(** * levelCCA: the alternating CCA / output-weight optimiser

    A shallow embedding of [mindaffectBCI/decoder/levelCCA.py]:
    the constrained weight solver [nonneglsopt] and the main optimiser
    [levelsCCA_cov].

    Numbers.  numpy's float64 values are idealised as exact rationals
    ([Q]); rounding and overflow are outside the model.  Sums are kept
    in lowest terms, which leaves the number they denote as it is.  A
    division whose divisor is zero does not raise in numpy: it yields
    inf or nan and the run goes on with non-finite values.  The model
    does not follow such values; it stops with the outcome
    [NonFinite].  A property stated of an outcome [Ok] is therefore a
    property of the calls in which no division is by zero; of the
    vectors with inf or nan entries that the code returns otherwise
    the model says nothing.

    Arrays.  An [ndarray] is a shape and a row-major buffer, as in
    numpy.  Callers are assumed to pass arrays of conforming shapes
    (numpy would raise a broadcasting error otherwise); an index out of
    range reads 0, which never happens on conforming shapes.

    Library routines.  [np.linalg.pinv], [np.linalg.svd], [np.exp],
    [np.sqrt] and the two helpers the file imports from sibling modules
    ([robust_whitener], [Cyy_tyeye_diag2full]) are the methods of the
    class [LinAlg]; every general theorem holds for any implementation
    of them.  Plotting and printing are left out ([showplots=False]).

    The file has two models of the two functions: a pure one, on array
    values, for what they compute, and one over a store of array
    objects, for what they write; the second is built from the steps of
    the first and computes the same results ([levelsCCA_cov_refines]).

    Callers.  [levelsCCA], [levelsSummaryStatistics] and
    [debug_levelsCCA_cov] are modelled in [Callers], with Python's
    binding of positional and keyword arguments; the statistics
    routines they import from sibling modules are the methods of the
    class [Stats]. *)

From Stdlib Require Import QArith Qabs Qminmax Lqa ZArith Lia.
From stdpp Require Import gmap strings list sorting.

Open Scope Q_scope.

(** ** Outcomes of a call *)

Inductive exn :=
| NameError (name : string)
| ValueError (msg : string)
| UnboundLocalError (name : string)
| TypeError (msg : string).

Inductive res (A : Type) :=
| Ok (a : A)
| Raise (e : exn)
| NonFinite.
Arguments Ok {A} a.
Arguments Raise {A} e.
Arguments NonFinite {A}.

#[global] Instance res_ret : MRet res := fun _ a => Ok a.
#[global] Instance res_bind : MBind res := fun _ _ f m =>
  match m with
  | Ok a => f a
  | Raise e => Raise e
  | NonFinite => NonFinite
  end.

Definition is_ok {A} (r : res A) : bool :=
  match r with Ok _ => true | _ => false end.

(** ** Rational helpers *)

Definition Qlt_bool (x y : Q) : bool := negb (Qle_bool y x).

(** Sums are kept in lowest terms: [Qred q] is the number [q] with
    numerator and denominator divided by their common factor. *)
Definition sumQ (l : list Q) : Q := foldr (fun x acc => Qred (x + acc)) 0 l.
Arguments sumQ : simpl never.

(** [big_sum n f] is the sum of [f i] for [i] in [range(n)]. *)
Definition big_sum (n : nat) (f : nat -> Q) : Q := sumQ (map f (seq 0 n)).

(** ** n-dimensional arrays *)

Record ndarray := mk_nd { shape : list nat; data : list Q }.

(** Row-major offset of a multi-index. *)
Definition size_of (shp : list nat) : nat := foldr Nat.mul 1%nat shp.

Fixpoint ravel (shp idx : list nat) : nat :=
  match shp, idx with
  | _ :: shp', i :: idx' => (i * size_of shp' + ravel shp' idx')%nat
  | _, _ => 0%nat
  end.

(** All multi-indices of a shape, in row-major order. *)
Fixpoint indices (shp : list nat) : list (list nat) :=
  match shp with
  | [] => [[]]
  | n :: rest => flat_map (fun i => map (cons i) (indices rest)) (seq 0 n)
  end.

Definition tabulate (shp : list nat) (f : list nat -> Q) : ndarray :=
  mk_nd shp (map f (indices shp)).

Definition get (a : ndarray) (idx : list nat) : Q :=
  nth (ravel (shape a) idx) (data a) 0.

Definition dim (a : ndarray) (k : nat) : nat := nth k (shape a) 0%nat.

(** [a.shape[-1]] and [a.shape[-2]]. *)
Definition dim_last (a : ndarray) : nat := nth 0 (rev (shape a)) 0%nat.
Definition dim_last2 (a : ndarray) : nat := nth 1 (rev (shape a)) 0%nat.

Definition reshape (a : ndarray) (shp : list nat) : ndarray := mk_nd shp (data a).

(** Elementwise operations; a scalar operand is broadcast. *)
Definition amap (f : Q -> Q) (a : ndarray) : ndarray :=
  mk_nd (shape a) (map f (data a)).
Definition azip (f : Q -> Q -> Q) (a b : ndarray) : ndarray :=
  mk_nd (shape a) (zip_with f (data a) (data b)).

Definition aadd := azip Qplus.
Definition asub := azip Qminus.
Definition amul := azip Qmult.
Definition ascale (c : Q) := amap (fun x => c * x).
Definition ashift (c : Q) := amap (fun x => x + c).

(** [np.sum(a)], [np.all(a == 0)]. *)
Definition asum (a : ndarray) : Q := sumQ (data a).
Definition all_zero (a : ndarray) : bool := forallb (fun x => Qeq_bool x 0) (data a).

(** [a / d] for a scalar [d]: dividing an empty array by zero gives the
    empty array, dividing anything else by zero gives inf or nan. *)
Definition div_scalar (a : ndarray) (d : Q) : res ndarray :=
  if Qeq_bool d 0
  then match data a with [] => Ok a | _ => NonFinite end
  else Ok (amap (fun x => x / d) a).

(** [a / b] elementwise. *)
Definition div_elem (a b : ndarray) : res ndarray :=
  if existsb (fun x => Qeq_bool x 0) (take (length (data a)) (data b))
  then NonFinite
  else Ok (azip Qdiv a b).

(** Vectors and matrices. *)
Definition vec (l : list Q) : ndarray := mk_nd [length l] l.

(** [u @ v] for two vectors. *)
Definition dot (u v : ndarray) : Q :=
  big_sum (dim u 0) (fun i => get u [i] * get v [i]).

(** [M @ v] and [v @ M]. *)
Definition matvec (M v : ndarray) : ndarray :=
  tabulate [dim M 0] (fun ix =>
    match ix with
    | [i] => big_sum (dim M 1) (fun j => get M [i; j] * get v [j])
    | _ => 0
    end).
Definition vecmat (v M : ndarray) : ndarray :=
  tabulate [dim M 1] (fun ix =>
    match ix with
    | [j] => big_sum (dim M 0) (fun i => get v [i] * get M [i; j])
    | _ => 0
    end).

(** [np.eye(n)]. *)
Definition eye (n : nat) : ndarray :=
  tabulate [n; n] (fun ix =>
    match ix with
    | [i; j] => if Nat.eqb i j then 1 else 0
    | _ => 0
    end).

(** [np.diag(v)] of a vector and [np.diag(M)] of a matrix. *)
Definition diag_of_vec (v : ndarray) : ndarray :=
  tabulate [dim v 0; dim v 0] (fun ix =>
    match ix with
    | [i; j] => if Nat.eqb i j then get v [i] else 0
    | _ => 0
    end).
Definition diag_of_mat (M : ndarray) : ndarray :=
  tabulate [Nat.min (dim M 0) (dim M 1)] (fun ix =>
    match ix with
    | [i] => get M [i; i]
    | _ => 0
    end).

(** [np.mean(a)]; the mean of an empty array is nan. *)
Definition amean (a : ndarray) : res Q :=
  match data a with
  | [] => NonFinite
  | _ => Ok (asum a / inject_Z (Z.of_nat (length (data a))))
  end.

(** ** The numerical routines the module calls *)

Class LinAlg := {
  (** [np.linalg.pinv(C, hermitian=True)] *)
  np_pinv : ndarray -> ndarray;
  (** [np.exp] and [np.sqrt] on one entry *)
  np_exp : Q -> Q;
  np_sqrt : Q -> Q;
  (** [np.linalg.svd(M, full_matrices=False)]: [(U, s, Vh)] *)
  np_svd : ndarray -> ndarray * ndarray * ndarray;
  (** [robust_whitener(C, reg, rcond, symetric)], first component *)
  robust_whitener : ndarray -> Q -> Q -> bool -> ndarray;
  (** [Cyy_tyeye_diag2full(Cyy_tyeye)] *)
  Cyy_tyeye_diag2full : ndarray -> ndarray
}.

(** ** The constrained weight solver, [nonneglsopt] *)

Module Solver.
Section Solver.
Context `{LinAlg}.

(** [nonneglsopt] reads [eta] in its 'expgrad' and 'gd' branches.  It
    has no parameter or local of that name ([eta] is a parameter of
    [levelsCCA_cov]) and the module binds no global [eta]: the lookup
    finds nothing. *)
Definition module_eta : option Q := None.

Definition lookup_eta : res Q :=
  match module_eta with
  | Some eta => Ok eta
  | None => Raise (NameError "eta")
  end.

(** [C_xx - 2*C_yx@s_y + s_y.T@C_yy@s_y] *)
Definition objective (C_xx : Q) (C_yx C_yy s_y : ndarray) : Q :=
  C_xx - dot (ascale 2 C_yx) s_y + dot (vecmat s_y C_yy) s_y.

(** [(s_y < 0).astype(s_y.dtype)] *)
Definition neg_mask (s_y : ndarray) : ndarray :=
  amap (fun x => if Qlt_bool x 0 then 1 else 0) s_y.

(** One pass through the [if syopt == ... elif ... else raise] chain. *)
Definition update (syopt : string) (C_yx C_yy s_y : ndarray) : res ndarray :=
  if String.eqb syopt "ls" then
    Ok (matvec (np_pinv C_yy) C_yx)
  else if String.eqb syopt "lspos" then
    let s_y := matvec (np_pinv C_yy) C_yx in
    Ok (amap (fun x => Qmax x 0) s_y)
  else if String.eqb syopt "expgrad" then
    let ds_y := asub (matvec C_yy s_y) C_yx in
    eta ← lookup_eta;
    let eds_y := amap (fun d => np_exp (- eta * d)) ds_y in
    Ok (amul s_y eds_y)
  else if String.eqb syopt "gd" then
    let ds_y := asub (matvec C_yy s_y) C_yx in
    eta ← lookup_eta;
    Ok (aadd s_y (ascale (eta * (1 # 100)) ds_y))
  else if String.eqb syopt "mu" then
    div_elem (amul s_y (amap Qabs C_yx)) (ashift (1 # 1000000) (matvec C_yy s_y))
  else if String.eqb syopt "irwls" || String.eqb syopt "negridge" then
    m ← amean (diag_of_mat C_yy);
    let C := aadd C_yy (amap (fun x => x * m * 10) (diag_of_vec (neg_mask s_y))) in
    Ok (matvec (np_pinv C) C_yx)
  else
    Raise (ValueError ("unknown optimization type: " +:+ syopt)).

(** [(s_y + eps) / np.sum(s_y + eps)] *)
Definition project (eps : Q) (s_y : ndarray) : res ndarray :=
  div_scalar (ashift eps s_y) (asum (ashift eps s_y)).

(** [for iter in range(max_iter)], with [n] iterations left. *)
Fixpoint solver_loop (n : nat) (syopt : string) (C_xx : Q) (C_yx C_yy : ndarray)
    (tol eps : Q) (s_y : ndarray) (J : Q) : res ndarray :=
  match n with
  | O => Ok s_y
  | S n' =>
      let oJ := J in
      s_y ← update syopt C_yx C_yy s_y;
      s_y ← project eps s_y;
      let J := objective C_xx C_yx C_yy s_y in
      if Qlt_bool (Qabs (oJ - J)) tol then Ok s_y
      else solver_loop n' syopt C_xx C_yx C_yy tol eps s_y J
  end.

(** [s_y = np.maximum(1e-6, s_y); s_y = s_y / np.sum(s_y)] *)
Definition clamp (s_y : ndarray) : ndarray := amap (fun x => Qmax (1 # 1000000) x) s_y.
Definition clamp_normalise (s_y : ndarray) : res ndarray :=
  let s_y := clamp s_y in
  div_scalar s_y (asum s_y).

(** [C_yy.copy() + np.eye(C_yy.shape[0])*ridge] *)
Definition add_ridge (C_yy : ndarray) (ridge : Q) : ndarray :=
  aadd C_yy (amap (fun x => x * ridge) (eye (dim C_yy 0))).

(** The body after the guard on degenerate inputs. *)
Definition solve (C_xx : Q) (C_yx C_yy s_y : ndarray) (syopt : string)
    (max_iter : nat) (tol eps : Q) : res ndarray :=
  let J := objective C_xx C_yx C_yy s_y in
  s_y ← solver_loop max_iter syopt C_xx C_yx C_yy tol eps s_y J;
  clamp_normalise s_y.

Definition nonneglsopt (C_xx : Q) (C_yx C_yy s_y : ndarray) (syopt : option string)
    (max_iter : nat) (tol ridge eps : Q) : res ndarray :=
  let syopt := default "negridge"%string syopt in
  if all_zero C_yy then Ok s_y
  else
    let C_yy := add_ridge C_yy ridge in
    solve C_xx C_yx C_yy s_y syopt max_iter tol eps.

(** The call with the defaults [max_iter=30, tol=1e-4, ridge=1e-4,
    eps=1e-3], as [levelsCCA_cov] makes it. *)
Definition nonneglsopt_default (C_xx : Q) (C_yx C_yy s_y : ndarray)
    (syopt : option string) : res ndarray :=
  nonneglsopt C_xx C_yx C_yy s_y syopt 30 (1 # 10000) (1 # 10000) (1 # 1000).

(** The mode strings the dispatch chain knows. *)
Definition supported_modes : list string :=
  ["ls"; "lspos"; "expgrad"; "gd"; "mu"; "irwls"; "negridge"]%string.
Definition supported (syopt : string) : bool :=
  existsb (String.eqb syopt) supported_modes.

End Solver.
End Solver.

(** ** The main optimiser, [levelsCCA_cov] *)

Module CCA.
Section CCA.
Context `{LinAlg}.

(** [reg] and [rcond] are a number or a pair
    ([if not hasattr(reg, '__iter__'): reg = (reg, reg)]). *)
Inductive one_or_two := One (x : Q) | Two (x y : Q).
Definition as_pair (p : one_or_two) : Q * Q :=
  match p with One x => (x, x) | Two x y => (x, y) end.

(** The keyword arguments.  [CCA], [symetric] and [eta] are accepted
    and never read by the body. *)
Record params := {
  reg : one_or_two;
  rank : Z;
  rcond : one_or_two;
  tol : Q;
  max_iter : nat;
  eta : Q;
  syopt : option string
}.

Definition default_params : params :=
  {| reg := One (1 # 1000000000); rank := 1;
     rcond := Two (1 # 100000000) (1 # 100000000);
     tol := 1 # 1000; max_iter := 100; eta := 1 # 2; syopt := None |}.

(** What an iteration binds: the filters, the responses and the
    retained singular values. *)
Record model := { W_kd : ndarray; R_ket : ndarray; l_k : ndarray }.

(** The reduced statistics handed to the weight solver. *)
Record stats := { wCxxw : Q; rCyxw_y : ndarray; rCyyr_yy : ndarray }.

(** What one iteration computes besides the model: the statistics, the
    pre- and post-update objective, the new weights and the two changes
    the convergence test reads. *)
Record iter_log := {
  it_stats : stats; it_oS_y : ndarray; it_S_y : ndarray;
  J_wr : Q; J_s : Q; deltaS_y : Q; deltaJ : Q
}.

(** The loop variables.  [Js] is the trace buffer, one row per
    iteration, [None] for a row of nan.  [history] is ghost state: the
    record of every iteration run so far, oldest first. *)
Record loop_state := {
  J : Q;
  S_y : ndarray;
  last_model : option model;
  Js : list (option (Q * Q));
  history : list iter_log
}.

(** [J = 1e9] *)
Definition J_init : Q := 1000000000.

(** [np.ones((nY)) / nY] *)
Definition uniform (nY : nat) : ndarray :=
  amap (fun x => x / inject_Z (Z.of_nat nY)) (vec (replicate nY 1)).

(** [if S_y is None: S_y = np.ones((nY)) / nY] *)
Definition seed_or_uniform (nY : nat) (seed : option ndarray) : ndarray :=
  match seed with None => uniform nY | Some s => s end.

Definition init_state (nY : nat) (seed : option ndarray) (max_iter : nat) : loop_state :=
  {| J := J_init;
     S_y := seed_or_uniform nY seed;
     last_model := None;
     Js := replicate max_iter None;
     history := [] |}.

(** [np.argsort(l)]: indices that sort [l] ascending (insertion of each
    index after the entries that are not larger; ties keep their
    order, as numpy's sort does on short arrays). *)
Fixpoint insert_idx (l : list Q) (i : nat) (sorted : list nat) : list nat :=
  match sorted with
  | [] => [i]
  | j :: rest =>
      if Qle_bool (nth j l 0) (nth i l 0) then j :: insert_idx l i rest
      else i :: j :: rest
  end.
Definition argsort (l : list Q) : list nat :=
  fold_left (fun acc i => insert_idx l i acc) (seq 0 (length l)) [].

(** [a[idx]] for a vector and [a[idx, ...]] for rows of a tensor. *)
Definition take_idx (a : ndarray) (idx : list nat) : ndarray :=
  vec (map (fun i => nth i (data a) 0) idx).
Definition select_rows (a : ndarray) (idx : list nat) : ndarray :=
  tabulate (length idx :: tail (shape a)) (fun ix =>
    match ix with
    | k :: rest => get a (nth k idx 0%nat :: rest)
    | [] => 0
    end).

(** Steps 2.4 and 2.5: order the components by singular value,
    descending, and keep the first [min(len, rank)]. *)
Definition top_idx (rank : nat) (l_k : ndarray) : list nat :=
  let l_idx := rev (argsort (data l_k)) in
  let r := Nat.min (length l_idx) rank in
  take r l_idx.

(** Steps 1 to 2.3 for the weighting [S_y]: the whitener of the
    weighted [Cyy] and the doubly-whitened cross matrix, made 2d. *)
Definition whitened_cross (reg1 rcond1 : Q) (Cyy_yetyet CyxisqrtCxx_yetd : ndarray)
    (nE tau nD : nat) (S_y : ndarray) : ndarray * ndarray :=
  (* einsum("y,yetzfu,z->etfu", S_y, Cyy_yetyet, S_y) *)
  let sCyys_etet :=
    tabulate [dim Cyy_yetyet 1; dim Cyy_yetyet 2; dim Cyy_yetyet 4; dim Cyy_yetyet 5]
      (fun ix => match ix with
       | [e; t; f; u] =>
           big_sum (dim S_y 0) (fun y => big_sum (dim S_y 0) (fun z =>
             get S_y [y] * get Cyy_yetyet [y; e; t; z; f; u] * get S_y [z]))
       | _ => 0 end) in
  (* einsum('yetd,y->etd', CyxisqrtCxx_yetd, S_y) *)
  let sCyxisqrtCxx_etd :=
    tabulate [dim CyxisqrtCxx_yetd 1; dim CyxisqrtCxx_yetd 2; dim CyxisqrtCxx_yetd 3]
      (fun ix => match ix with
       | [e; t; d] =>
           big_sum (dim CyxisqrtCxx_yetd 0) (fun y =>
             get CyxisqrtCxx_yetd [y; e; t; d] * get S_y [y])
       | _ => 0 end) in
  let sCyys_et_et := reshape sCyys_etet [(nE * tau)%nat; (nE * tau)%nat] in
  let isqrtCyy_et_et := robust_whitener sCyys_et_et reg1 rcond1 true in
  let isqrtCyy_etet := reshape isqrtCyy_et_et [nE; tau; nE; tau] in
  (* einsum('etfu,etd->fud', isqrtCyy_etet, sCyxisqrtCxx_etd) *)
  let isqrtCxxsCyxisqrtCyy_etd :=
    tabulate [nE; tau; dim sCyxisqrtCxx_etd 2]
      (fun ix => match ix with
       | [f; u; d] =>
           big_sum nE (fun e => big_sum tau (fun t =>
             get isqrtCyy_etet [e; t; f; u] * get sCyxisqrtCxx_etd [e; t; d]))
       | _ => 0 end) in
  (isqrtCyy_etet, reshape isqrtCxxsCyxisqrtCyy_etd [(nE * tau)%nat; nD]).

(** [np.moveaxis(R_et_k.reshape((nE, tau, k)), -1, 0)], with [k] the
    size of the last axis of [R_et_k]. *)
Definition responses_ket (nE tau : nat) (R_et_k : ndarray) : ndarray :=
  let R_etk := reshape R_et_k [nE; tau; dim_last R_et_k] in
  tabulate [dim_last R_et_k; nE; tau]
    (fun ix => match ix with
     | [k; e; t] => get R_etk [e; t; k]
     | _ => 0 end).

(** Steps 2.3 to 2.5 on the factors [(R_et_k, l_k, W_kd)] of the SVD:
    the responses as [(k, nE, tau)], then the rows of the [rank]
    largest singular values. *)
Definition retain (rank nE tau : nat) (usv : ndarray * ndarray * ndarray)
    : ndarray * ndarray * ndarray :=
  let '(R_et_k, l_k, W_kd) := usv in
  let R_ket := responses_ket nE tau R_et_k in
  let idx := top_idx rank l_k in
  (select_rows R_ket idx, take_idx l_k idx, select_rows W_kd idx).

(** Steps 2.6 and 3: the whiteners applied to the retained components,
    and the reduced statistics. *)
Definition reduced (Cxx_dd Cyx_yetd Cyy_yetyet isqrtCxx_dd isqrtCyy_etet : ndarray)
    (nE tau : nat) (rlw : ndarray * ndarray * ndarray) : model * stats :=
  let '(R_ket, l_k, W_kd) := rlw in
  (* einsum('ket,etfu->kfu', R_ket, isqrtCyy_etet) *)
  let R_ket :=
    tabulate [dim R_ket 0; nE; tau]
      (fun ix => match ix with
       | [k; f; u] =>
           big_sum (dim R_ket 1) (fun e => big_sum (dim R_ket 2) (fun t =>
             get R_ket [k; e; t] * get isqrtCyy_etet [e; t; f; u]))
       | _ => 0 end) in
  (* einsum('kd,df->kf', W_kd, isqrtCxx_dd) *)
  let W_kd :=
    tabulate [dim W_kd 0; dim isqrtCxx_dd 1]
      (fun ix => match ix with
       | [k; f] =>
           big_sum (dim W_kd 1) (fun d => get W_kd [k; d] * get isqrtCxx_dd [d; f])
       | _ => 0 end) in
  (* einsum('kd,de,ke', W_kd, Cxx_dd, W_kd) *)
  let wCxxw :=
    big_sum (dim W_kd 0) (fun k => big_sum (dim W_kd 1) (fun d =>
      big_sum (dim Cxx_dd 1) (fun e =>
        get W_kd [k; d] * get Cxx_dd [d; e] * get W_kd [k; e]))) in
  (* einsum("ket,yetzfu,kfu->yz", R_ket, Cyy_yetyet, R_ket) *)
  let rCyyr_yy :=
    tabulate [dim Cyy_yetyet 0; dim Cyy_yetyet 3]
      (fun ix => match ix with
       | [y; z] =>
           big_sum (dim R_ket 0) (fun k =>
           big_sum (dim R_ket 1) (fun e => big_sum (dim R_ket 2) (fun t =>
           big_sum (dim R_ket 1) (fun f => big_sum (dim R_ket 2) (fun u =>
             get R_ket [k; e; t] * get Cyy_yetyet [y; e; t; z; f; u]
             * get R_ket [k; f; u])))))
       | _ => 0 end) in
  (* einsum('ket,yetd,kd->y', R_ket, Cyx_yetd, W_kd) *)
  let rCyxw_y :=
    tabulate [dim Cyx_yetd 0]
      (fun ix => match ix with
       | [y] =>
           big_sum (dim R_ket 0) (fun k =>
           big_sum (dim R_ket 1) (fun e => big_sum (dim R_ket 2) (fun t =>
           big_sum (dim W_kd 1) (fun d =>
             get R_ket [k; e; t] * get Cyx_yetd [y; e; t; d] * get W_kd [k; d]))))
       | _ => 0 end) in
  ({| W_kd := W_kd; R_ket := R_ket; l_k := l_k |},
   {| wCxxw := wCxxw; rCyxw_y := rCyxw_y; rCyyr_yy := rCyyr_yy |}).

(** Steps 1 to 3 of an iteration. *)
Definition cca_step (rank : nat) (reg1 rcond1 : Q)
    (Cxx_dd Cyx_yetd Cyy_yetyet isqrtCxx_dd CyxisqrtCxx_yetd : ndarray)
    (nE tau nD : nat) (S_y : ndarray) : model * stats :=
  let '(isqrtCyy_etet, isqrtCxxsCyxisqrtCyy_et_d) :=
    whitened_cross reg1 rcond1 Cyy_yetyet CyxisqrtCxx_yetd nE tau nD S_y in
  let rlw := retain rank nE tau (np_svd isqrtCxxsCyxisqrtCyy_et_d) in
  reduced Cxx_dd Cyx_yetd Cyy_yetyet isqrtCxx_dd isqrtCyy_etet nE tau rlw.

(** [wCxxw - 2 * rCyxw_y @ S_y + S_y.T @ rCyyr_yy @ S_y] *)
Definition J_of (st : stats) (S_y : ndarray) : Q :=
  Solver.objective (wCxxw st) (rCyxw_y st) (rCyyr_yy st) S_y.

(** Steps 4 and 5: the objective before the update, the constrained
    solve and renormalisation, the objective after it. *)
Definition weight_step (st : stats) (syopt : option string) (oJ : Q)
    (oS_y : ndarray) : res iter_log :=
  let J_wr := J_of st oS_y in
  S_y ← Solver.nonneglsopt_default (wCxxw st) (rCyxw_y st) (rCyyr_yy st) oS_y syopt;
  S_y ← div_scalar S_y (asum S_y);
  let J_s := J_of st S_y in
  Ok {| it_stats := st; it_oS_y := oS_y; it_S_y := S_y;
        J_wr := J_wr; J_s := J_s;
        deltaS_y := asum (amap Qabs (asub S_y oS_y));
        deltaJ := Qabs (J_s - oJ) |}.

(** [deltaS_y < tol or deltaJ < tol] *)
Definition converged (tol : Q) (it : iter_log) : bool :=
  Qlt_bool (deltaS_y it) tol || Qlt_bool (deltaJ it) tol.

(** [for iter in range(max_iter)], at index [iter] with [n] iterations
    left. *)
Fixpoint loop (step : ndarray -> model * stats) (syopt : option string) (tol : Q)
    (n iter : nat) (st : loop_state) : res loop_state :=
  match n with
  | O => Ok st
  | S n' =>
      let oJ := J st in
      let oS_y := S_y st in
      let '(mdl, sts) := step oS_y in
      it ← weight_step sts syopt oJ oS_y;
      let st' :=
        {| J := J_s it; S_y := it_S_y it; last_model := Some mdl;
           Js := <[iter := Some (J_wr it, J_s it)]> (Js st);
           history := history st ++ [it] |} in
      if converged tol it then Ok st'
      else loop step syopt tol n' (S iter) st'
  end.

(** [np.max(l_k)]; numpy raises on an empty array. *)
Definition np_max (a : ndarray) : res Q :=
  match data a with
  | [] => Raise (ValueError "zero-size array to reduction operation maximum which has no identity")
  | x :: rest => Ok (foldr Qmax x rest)
  end.

(** [a * v[:, np.newaxis, ...]]: slice [k] of [a] times [v[k]]. *)
Definition scale_rows (a v : ndarray) : ndarray :=
  tabulate (shape a) (fun ix => get a ix * get v [hd 0%nat ix]).

(** The relative component weights [nl_k] and the rescaling after the
    loop. *)
Definition relative_weights (l_k : ndarray) : res ndarray :=
  mx ← np_max l_k;
  Ok (if Qlt_bool 0 mx then amap (fun l => l / mx) l_k else amap (fun _ => 1) l_k).

Definition rescale (m : model) : res (ndarray * ndarray) :=
  nl_k ← relative_weights (l_k m);
  let s := amap np_sqrt nl_k in
  Ok (scale_rows (W_kd m) s, scale_rows (R_ket m) s).

(** [einsum('yetd,df->yetf', Cyx_yetd, isqrtCxx_dd)] *)
Definition whiten_Cyx (Cyx_yetd isqrtCxx_dd : ndarray) : ndarray :=
  tabulate [dim Cyx_yetd 0; dim Cyx_yetd 1; dim Cyx_yetd 2; dim isqrtCxx_dd 1]
    (fun ix => match ix with
     | [y; e; t; f] =>
         big_sum (dim Cyx_yetd 3) (fun d =>
           get Cyx_yetd [y; e; t; d] * get isqrtCxx_dd [d; f])
     | _ => 0 end).

(** What comes before the loop: the sizes, the expanded [Cyy], the
    spatial whitener and the whitened [Cyx].  The result is the CCA step
    every iteration applies to its [S_y].  ([isqrtCxxCxxisqrtCxx_dd] is
    computed by the source and never read; it is left out.) *)
Definition step_of (Cxx_dd Cyx_yetd Cyy_tyeye : ndarray) (p : params)
    : ndarray -> model * stats :=
  let rank := Z.to_nat (Z.max 1 (rank p)) in
  let reg := as_pair (reg p) in
  let rcond := as_pair (rcond p) in
  let tau := dim Cyy_tyeye 0 in
  let nE := dim_last Cyy_tyeye in
  let nD := dim Cxx_dd 0 in
  let Cyy_yetyet := Cyy_tyeye_diag2full Cyy_tyeye in
  let isqrtCxx_dd := robust_whitener Cxx_dd (fst reg) (fst rcond) true in
  let CyxisqrtCxx_yetd := whiten_Cyx Cyx_yetd isqrtCxx_dd in
  cca_step rank (snd reg) (snd rcond) Cxx_dd Cyx_yetd Cyy_yetyet
    isqrtCxx_dd CyxisqrtCxx_yetd nE tau nD.

(** The part of [levelsCCA_cov] up to the end of the loop. *)
Definition levelsCCA_cov_run (Cxx_dd Cyx_yetd Cyy_tyeye : ndarray)
    (seed : option ndarray) (p : params) : res loop_state :=
  let nY := dim_last2 Cyy_tyeye in
  loop (step_of Cxx_dd Cyx_yetd Cyy_tyeye p)
       (syopt p) (tol p) (max_iter p) 0 (init_state nY seed (max_iter p)).

(** [levelsCCA_cov]: returns [(J, W_kd, R_ket, S_y)].  With no iteration
    run, [l_k] was never bound when the rescaling reads it. *)
Definition levelsCCA_cov (Cxx_dd Cyx_yetd Cyy_tyeye : ndarray)
    (seed : option ndarray) (p : params) : res (Q * ndarray * ndarray * ndarray) :=
  st ← levelsCCA_cov_run Cxx_dd Cyx_yetd Cyy_tyeye seed p;
  match last_model st with
  | None => Raise (UnboundLocalError "l_k")
  | Some m =>
      WR ← rescale m;
      Ok (J st, fst WR, snd WR, S_y st)
  end.

(** *** Notions used to state the properties *)

(** A value that no number exceeds, as [+infinity] would be. *)
Definition plus_infinity (x : Q) : Prop := forall y : Q, y <= x.

(** The factors [(R_et_k, l_k, W_kd)] the SVD returns in the iteration
    that starts with the weights [S_y]. *)
Definition svd_factors (Cxx_dd Cyx_yetd Cyy_tyeye : ndarray) (p : params)
    (S_y : ndarray) : ndarray * ndarray * ndarray :=
  let reg := as_pair (reg p) in
  let rcond := as_pair (rcond p) in
  let isqrtCxx_dd := robust_whitener Cxx_dd (fst reg) (fst rcond) true in
  np_svd (snd (whitened_cross (snd reg) (snd rcond)
                 (Cyy_tyeye_diag2full Cyy_tyeye) (whiten_Cyx Cyx_yetd isqrtCxx_dd)
                 (dim_last Cyy_tyeye) (dim Cyy_tyeye 0) (dim Cxx_dd 0) S_y)).

(** Index [i] comes before index [j] when its value in [l] is not
    larger. *)
Definition le_at (l : list Q) (i j : nat) : Prop := nth i l 0 <= nth j l 0.

(** The row [Js[iter,:] = [J_wr, J_s]] an iteration writes. *)
Definition row (it : iter_log) : option (Q * Q) := Some (J_wr it, J_s it).

(** [chain step syopt J S its]: [its] are the records of consecutive
    iterations started with objective [J] and weights [S]; each one
    runs on the weights and the objective the one before left. *)
Inductive chain (step : ndarray -> model * stats) (syopt : option string)
    : Q -> ndarray -> list iter_log -> Prop :=
| chain_nil J S : chain step syopt J S []
| chain_cons J S it its mdl :
    step S = (mdl, it_stats it) ->
    weight_step (it_stats it) syopt J S = Ok it ->
    chain step syopt (J_s it) (it_S_y it) its ->
    chain step syopt J S (it :: its).

End CCA.
End CCA.

(** ** The same two functions over a store of array objects

    numpy arrays are objects passed by reference.  Here every array a
    function receives, returns, hands to another function or keeps from
    one iteration to the next is a cell of a store; an expression that
    builds an array allocates a new cell, an assignment to a slice
    ([Js[iter,:] = ...]) writes into an existing one, and rebinding a
    name writes nothing.  The values are computed by the functions of
    the pure model above. *)

Module Heap.
Section Heap.
Context `{LinAlg}.

(** A cell holds an array, or the trace buffer with its nan rows. *)
Inductive cell :=
| Arr (a : ndarray)
| Trace (rows : list (option (Q * Q))).

Definition M (A : Type) : Type := gmap nat cell -> res A * gmap nat cell.

Definition ret {A} (a : A) : M A := fun h => (Ok a, h).
Definition bind {A B} (m : M A) (f : A -> M B) : M B := fun h =>
  match m h with
  | (Ok a, h') => f a h'
  | (Raise e, h') => (Raise e, h')
  | (NonFinite, h') => (NonFinite, h')
  end.
#[local] Instance M_ret : MRet M := @ret.
#[local] Instance M_bind : MBind M := fun _ _ f m => bind m f.

Definition lift {A} (r : res A) : M A := fun h => (r, h).

(** Reading an array through a reference. *)
Definition load (p : nat) : M ndarray := fun h =>
  match h !! p with
  | Some (Arr a) => (Ok a, h)
  | _ => (Raise (TypeError "not an ndarray"), h)
  end.

(** A new object. *)
Definition alloc (c : cell) : M nat := fun h =>
  let p := fresh (dom h) in (Ok p, <[p := c]> h).

(** An assignment into the rows of the trace buffer at [p]. *)
Definition write_rows (p : nat)
    (f : list (option (Q * Q)) -> list (option (Q * Q))) : M unit := fun h =>
  match h !! p with
  | Some (Trace rows) => (Ok (), <[p := Trace (f rows)]> h)
  | _ => (Raise (TypeError "not a trace buffer"), h)
  end.

(** [nonneglsopt]: takes and returns references.  On degenerate input
    the reference it was given is returned. *)
Definition nonneglsopt (C_xx : Q) (C_yx C_yy s_y : nat) (syopt : option string)
    (max_iter : nat) (tol ridge eps : Q) : M nat :=
  let syopt := default "negridge"%string syopt in
  vC_yy ← load C_yy;
  if all_zero vC_yy then mret s_y
  else
    vC_yx ← load C_yx;
    vs_y ← load s_y;
    copy ← alloc (Arr vC_yy);
    vcopy ← load copy;
    C_yy' ← alloc (Arr (Solver.add_ridge vcopy ridge));
    vC_yy' ← load C_yy';
    r ← lift (Solver.solve C_xx vC_yx vC_yy' vs_y syopt max_iter tol eps);
    alloc (Arr r).

(** The loop of [levelsCCA_cov]; [Js] and [S_y] are references, [last]
    the references of the model the latest iteration built. *)
Fixpoint loop (step : ndarray -> CCA.model * CCA.stats) (syopt : option string) (tol : Q)
    (n iter : nat) (Js : nat) (J : Q) (S_y : nat) (last : option (nat * nat * nat))
    : M (Q * nat * option (nat * nat * nat)) :=
  match n with
  | O => mret (J, S_y, last)
  | S n' =>
      let oJ := J in
      let oS_y := S_y in
      voS_y ← load oS_y;
      let '(mdl, sts) := step voS_y in
      W_kd ← alloc (Arr (CCA.W_kd mdl));
      R_ket ← alloc (Arr (CCA.R_ket mdl));
      l_k ← alloc (Arr (CCA.l_k mdl));
      rCyxw_y ← alloc (Arr (CCA.rCyxw_y sts));
      rCyyr_yy ← alloc (Arr (CCA.rCyyr_yy sts));
      let J_wr := CCA.J_of sts voS_y in
      S_y ← nonneglsopt (CCA.wCxxw sts) rCyxw_y rCyyr_yy oS_y syopt
              30 (1 # 10000) (1 # 10000) (1 # 1000);
      vS_y ← load S_y;
      vS_y ← lift (div_scalar vS_y (asum vS_y));
      S_y ← alloc (Arr vS_y);
      let J_s := CCA.J_of sts vS_y in
      _ ← write_rows Js (fun rows => <[iter := Some (J_wr, J_s)]> rows);
      let deltaS_y := asum (amap Qabs (asub vS_y voS_y)) in
      let deltaJ := Qabs (J_s - oJ) in
      if Qlt_bool deltaS_y tol || Qlt_bool deltaJ tol
      then mret (J_s, S_y, Some (W_kd, R_ket, l_k))
      else loop step syopt tol n' (S iter) Js J_s S_y (Some (W_kd, R_ket, l_k))
  end.

(** [levelsCCA_cov] on references to the three covariance arrays and,
    optionally, to a seed; returns [J] and references to [W_kd],
    [R_ket] and [S_y]. *)
Definition levelsCCA_cov (Cxx_dd Cyx_yetd Cyy_tyeye : nat) (seed : option nat)
    (p : CCA.params) : M (Q * nat * nat * nat) :=
  vCxx ← load Cxx_dd;
  vCyx ← load Cyx_yetd;
  vCyy ← load Cyy_tyeye;
  let nY := dim_last2 vCyy in
  (* Js = np.zeros((max_iter,2)); Js[:] = np.nan *)
  Js ← alloc (Trace (replicate (CCA.max_iter p) (Some (0, 0))));
  _ ← write_rows Js (fun rows => map (fun _ => None) rows);
  S_y ← match seed with
        | None => alloc (Arr (CCA.uniform nY))
        | Some s => mret s
        end;
  out ← loop (CCA.step_of vCxx vCyx vCyy p)
             (CCA.syopt p) (CCA.tol p) (CCA.max_iter p) 0 Js CCA.J_init S_y None;
  let '(J, S_y, last) := out in
  match last with
  | None => lift (Raise (UnboundLocalError "l_k"))
  | Some (W_kd, R_ket, l_k) =>
      vW ← load W_kd;
      vR ← load R_ket;
      vl ← load l_k;
      WR ← lift (CCA.rescale {| CCA.W_kd := vW; CCA.R_ket := vR; CCA.l_k := vl |});
      W_kd ← alloc (Arr (fst WR));
      R_ket ← alloc (Arr (snd WR));
      mret (J, W_kd, R_ket, S_y)
  end.

(** *** Notions used to state the properties *)

(** The references [locs] hold the arrays of the model [m]. *)
Definition model_at (h : gmap nat cell) (locs : option (nat * nat * nat))
    (m : option CCA.model) : Prop :=
  match locs, m with
  | Some (W, R, l), Some m =>
      h !! W = Some (Arr (CCA.W_kd m)) /\ h !! R = Some (Arr (CCA.R_ket m))
      /\ h !! l = Some (Arr (CCA.l_k m))
  | None, None => True
  | _, _ => False
  end.

(** Every array object of [h] is in [h'] with the same content. *)
Definition arrays_kept (h h' : gmap nat cell) : Prop :=
  forall q a, h !! q = Some (Arr a) -> h' !! q = Some (Arr a).

(** [keeps h0 Q m]: run from a store in which every object of [h0] is
    still as in [h0], the computation [m] ends in such a store again,
    and [Q] holds of the value it returns. *)
Definition keeps {A} (h0 : gmap nat cell) (Q : A -> Prop) (m : M A) : Prop :=
  forall h r h', h0 ⊆ h -> m h = (r, h') ->
    h0 ⊆ h' /\ forall a, r = Ok a -> Q a.

End Heap.
End Heap.

(** ** An exact implementation of the routines on small inputs

    Used to run the model on concrete inputs.  Each routine is exact on
    the inputs named in its comment, which are the only ones the
    examples below feed it. *)

Module Small.

(** Square root, exact on the squares of rationals. *)
Definition Qsqrt (q : Q) : Q :=
  let r := Qred q in
  Z.sqrt (Qnum r) # Pos.sqrt (Qden r).

(** Pseudo-inverse of a diagonal matrix: the non-zero diagonal entries
    are inverted. *)
Definition pinv_diag (C : ndarray) : ndarray :=
  tabulate (shape C) (fun ix =>
    match ix with
    | [i; j] =>
        if Nat.eqb i j
        then (if Qeq_bool (get C [i; i]) 0 then 0 else / get C [i; i])
        else 0
    | _ => 0
    end).

(** Modelled from the spec: [robust_whitener], which lives in
    [multipleCCA.py].  On a diagonal matrix, with a ridge [reg] added
    to the eigenvalues and a non-negative cutoff [rcond]: an eigenvalue
    at or below the cutoff is dropped, the others are replaced by their
    inverse square root. *)
Definition whitener_diag (C : ndarray) (reg rcond : Q) (symetric : bool) : ndarray :=
  tabulate (shape C) (fun ix =>
    match ix with
    | [i; j] =>
        if Nat.eqb i j
        then (let lam := get C [i; i] + reg in
              if Qle_bool lam rcond then 0 else / Qsqrt lam)
        else 0
    | _ => 0
    end).

(** Singular value decomposition of a 1 x 1 matrix [[m]]:
    [[sign m]] * [|m|] * [[1]]. *)
Definition svd_1x1 (M : ndarray) : ndarray * ndarray * ndarray :=
  let m := get M [0; 0]%nat in
  (mk_nd [1; 1]%nat [if Qlt_bool m 0 then -1 else 1],
   mk_nd [1]%nat [Qabs m],
   mk_nd [1; 1]%nat [1]).

(** Modelled from the spec: [Cyy_tyeye_diag2full], which lives in
    [updateSummaryStatistics.py].  Entry [(y,e,t,z,f,u)] of the full
    tensor is the compressed entry at lag difference [t-u], the lag
    axis being read at [|t-u|] with the two sides swapped when the
    difference is negative. *)
Definition diag2full (C : ndarray) : ndarray :=
  let tau := dim C 0 in
  let nY := dim C 1 in
  let nE := dim C 2 in
  tabulate [nY; nE; tau; nY; nE; tau] (fun ix =>
    match ix with
    | [y; e; t; z; f; u] =>
        if Nat.leb u t then get C [(t - u)%nat; y; e; z; f]
        else get C [(u - t)%nat; z; f; y; e]
    | _ => 0
    end).

(** A second-order rational stand-in for [np.exp]; no run reaches it,
    since the lookup of [eta] fails first. *)
Definition exp2 (x : Q) : Q := 1 + x + x * x / 2.

#[export] Instance small_linalg : LinAlg := {|
  np_pinv := pinv_diag;
  np_exp := exp2;
  np_sqrt := Qsqrt;
  np_svd := svd_1x1;
  robust_whitener := whitener_diag;
  Cyy_tyeye_diag2full := diag2full
|}.

End Small.


(** ** Small inputs

    Two candidate outputs, one event type, one lag, one channel. *)

Module Inputs.
Import CCA.

(** Unit channel variance, outputs of variance 2 that do not covary,
    cross-covariances 0.2 and 0.1 with the channel. *)
Definition Cxx1 : ndarray := mk_nd [1; 1]%nat [1].
Definition Cyx1 : ndarray := mk_nd [2; 1; 1; 1]%nat [1 # 5; 1 # 10].
Definition Cyy1 : ndarray := mk_nd [1; 2; 1; 2; 1]%nat [2; 0; 0; 2].

(** No signal at all. *)
Definition Cxx0 : ndarray := mk_nd [1; 1]%nat [0].
Definition Cyx0 : ndarray := mk_nd [2; 1; 1; 1]%nat [0; 0].
Definition Cyy0 : ndarray := mk_nd [1; 2; 1; 2; 1]%nat [0; 0; 0; 0].

(** The defaults but for: no ridge and one iteration; no ridge and
    [tol = 1e9]; [tol = 1e9]; [tol = 1e9] and no iteration. *)
Definition p_one : params :=
  {| reg := One 0; rank := 1; rcond := Two (1 # 100000000) (1 # 100000000);
     tol := 1 # 1000; max_iter := 1; eta := 1 # 2; syopt := None |}.
Definition p_tol : params :=
  {| reg := One 0; rank := 1; rcond := Two (1 # 100000000) (1 # 100000000);
     tol := 1000000000; max_iter := 100; eta := 1 # 2; syopt := None |}.
Definition p_tol_noiter : params :=
  {| reg := One 0; rank := 1; rcond := Two (1 # 100000000) (1 # 100000000);
     tol := 1000000000; max_iter := 0; eta := 1 # 2; syopt := None |}.


(** A store holding a cross term, a Gram matrix and weights. *)
Definition store2 : gmap nat Heap.cell :=
  <[0%nat := Heap.Arr (vec [1 # 5; 1 # 10])]>
    (<[1%nat := Heap.Arr (mk_nd [2; 2]%nat [2; 0; 0; 2])]>
       (<[2%nat := Heap.Arr (vec [1 # 2; 1 # 2])]> ∅)).

(** A store holding the three covariance arrays. *)
Definition store1 : gmap nat Heap.cell :=
  <[0%nat := Heap.Arr Cxx1]> (<[1%nat := Heap.Arr Cyx1]> (<[2%nat := Heap.Arr Cyy1]> ∅)).

End Inputs.


(** ** The callers: [debug_levelsCCA_cov], [levelsSummaryStatistics], [levelsCCA] *)

Module Callers.

(** *** Python values and calls

    [levelsCCA] hands its flags on to [levelsSummaryStatistics] by
    position, and [None], flags, numbers and arrays all travel through
    the same parameters; the values and the binding of a call's
    arguments are therefore modelled as Python has them. *)

Inductive pyval :=
| PNone
| PBool (b : bool)
| PInt (n : Z)
| PFloat (q : Q)
| PArr (a : ndarray).

(** A signature: the parameters in order, each with its default if it
    has one.  An environment: the parameters bound by a call. *)
Definition signature := list (string * option pyval).
Definition env := list (string * pyval).

Fixpoint assoc (x : string) (e : env) : option pyval :=
  match e with
  | [] => None
  | (y, v) :: e' => if String.eqb x y then Some v else assoc x e'
  end.

(** Positional arguments fill the parameters from the left; what is
    returned with the bindings is the part of the signature not yet
    bound. *)
Fixpoint bind_positional (sig : signature) (args : list pyval)
    : res (env * signature) :=
  match args with
  | [] => Ok ([], sig)
  | a :: args' =>
      match sig with
      | [] => Raise (TypeError "too many positional arguments")
      | (x, _) :: sig' =>
          r ← bind_positional sig' args';
          Ok ((x, a) :: fst r, snd r)
      end
  end.

(** The remaining parameters take the keyword argument of their name,
    or else their default. *)
Fixpoint bind_keywords (rest : signature) (kw : env) : res env :=
  match rest with
  | [] => Ok []
  | (x, d) :: rest' =>
      v ← match assoc x kw, d with
          | Some v, _ => Ok v
          | None, Some v => Ok v
          | None, None => Raise (TypeError ("missing required argument: " +:+ x))
          end;
      e ← bind_keywords rest' kw;
      Ok ((x, v) :: e)
  end.

(** A keyword must name a parameter that no positional argument has
    bound. *)
Definition call_bind (sig : signature) (args : list pyval) (kw : env) : res env :=
  r ← bind_positional sig args;
  if forallb (fun k => existsb (String.eqb (fst k)) (map fst (snd r))) kw
  then e ← bind_keywords (snd r) kw; Ok (fst r ++ e)
  else Raise (TypeError "unexpected keyword argument or multiple values for argument").

(** Reading a bound parameter. *)
Definition var (e : env) (x : string) : pyval := default PNone (assoc x e).

(** *** The statistics routines

    [zero_outliers] (from [utils]) and [updateCxx], [updateCxy],
    [compCyy_diag] (from [updateSummaryStatistics]), as
    [levelsSummaryStatistics] calls them:
    [zero_outliers(X, Y, badEpThresh)],
    [updateCxx(None, X, None, tau, offset, center, unitnorm)],
    [updateCxy(None, X, Y, None, tau, offset, center, unitnorm)],
    [compCyy_diag(Y, tau, zeropadded, unitnorm, perY=False)]. *)
Class Stats := {
  zero_outliers : pyval -> pyval -> pyval -> res (pyval * pyval);
  updateCxx : pyval -> pyval -> pyval -> pyval -> pyval -> res ndarray;
  updateCxy : pyval -> pyval -> pyval -> pyval -> pyval -> pyval -> res ndarray;
  compCyy_diag : pyval -> pyval -> pyval -> pyval -> res ndarray
}.

Section Callers.
Context `{LinAlg} `{Stats}.

(** [n if prev is None else n + prev], for an array [n]: a flag or a
    number is broadcast over [n], [True] counting as 1. *)
Definition accumulate (n : ndarray) (prev : pyval) : ndarray :=
  match prev with
  | PNone => n
  | PBool b => ashift (if b then 1 else 0) n
  | PInt z => ashift (inject_Z z) n
  | PFloat q => ashift q n
  | PArr a => aadd n a
  end.

Definition sig_levelsSummaryStatistics : signature :=
  [("X_TSd", None); ("Y_TSye", None); ("tau", None);
   ("Cxx_dd", Some PNone); ("Cyx_yetd", Some PNone); ("Cyy_tyeye", Some PNone);
   ("offset", Some (PInt 0)); ("center", Some (PBool true));
   ("unitnorm", Some (PBool false)); ("zeropadded", Some (PBool true));
   ("badEpThresh", Some (PInt 4))]%string.

(** The body of [levelsSummaryStatistics], on its bound parameters. *)
Definition levelsSummaryStatistics_body (e : env)
    : res (ndarray * ndarray * ndarray) :=
  XY ← zero_outliers (var e "X_TSd") (var e "Y_TSye") (var e "badEpThresh");
  let X_TSd := fst XY in
  let Y_TSye := snd XY in
  nCxx_dd ← updateCxx X_TSd (var e "tau") (var e "offset") (var e "center")
              (var e "unitnorm");
  nCyx_yetd ← updateCxy X_TSd Y_TSye (var e "tau") (var e "offset") (var e "center")
                (var e "unitnorm");
  nCyy_tyeye ← compCyy_diag Y_TSye (var e "tau") (var e "zeropadded") (var e "unitnorm");
  Ok (accumulate nCxx_dd (var e "Cxx_dd"),
      accumulate nCyx_yetd (var e "Cyx_yetd"),
      accumulate nCyy_tyeye (var e "Cyy_tyeye")).

(** A call of [levelsSummaryStatistics] with positional arguments
    [args] and keyword arguments [kw]. *)
Definition levelsSummaryStatistics (args : list pyval) (kw : env)
    : res (ndarray * ndarray * ndarray) :=
  e ← call_bind sig_levelsSummaryStatistics args kw;
  levelsSummaryStatistics_body e.

(** [levelsCCA]: the statistics, then [levelsCCA_cov] with [reg],
    [rank] and [rcond] and its defaults for the rest.  ([CCA] is
    accepted and not passed on; [symetric] is passed on to
    [levelsCCA_cov], which never reads it.) *)
Definition levelsCCA (X_TSd Y_TSye tau offset : pyval) (reg : CCA.one_or_two)
    (rank : Z) (rcond : CCA.one_or_two) (center unitnorm zeropadded : pyval)
    : res (Q * ndarray * ndarray * ndarray) :=
  stats ← levelsSummaryStatistics
            [X_TSd; Y_TSye; tau; offset; center; unitnorm; zeropadded] [];
  let '(Cxx_dd, Cyx_yetd, Cyy_tyeye) := stats in
  CCA.levelsCCA_cov Cxx_dd Cyx_yetd Cyy_tyeye None
    {| CCA.reg := reg; CCA.rank := rank; CCA.rcond := rcond;
       CCA.tol := CCA.tol CCA.default_params;
       CCA.max_iter := CCA.max_iter CCA.default_params;
       CCA.eta := CCA.eta CCA.default_params;
       CCA.syopt := None |}.

(** [debug_levelsCCA_cov]: [rank] and [syopt] are its own parameters,
    the seed and the other settings reach [levelsCCA_cov] through
    [**kwargs]; they are the argument [seed] and the other fields of
    [p].  Printing and plotting are left out. *)
Definition debug_levelsCCA_cov (Cxx_dd Cyx_yetd Cyy_tyeye : ndarray)
    (seed : option ndarray) (p : CCA.params) : res (ndarray * ndarray * ndarray) :=
  (* if syopt is None: syopt='negridge' *)
  let syopt := match CCA.syopt p with None => "negridge"%string | Some s => s end in
  out ← CCA.levelsCCA_cov Cxx_dd Cyx_yetd Cyy_tyeye seed
          {| CCA.reg := CCA.reg p; CCA.rank := CCA.rank p; CCA.rcond := CCA.rcond p;
             CCA.tol := CCA.tol p; CCA.max_iter := CCA.max_iter p;
             CCA.eta := CCA.eta p; CCA.syopt := Some syopt |};
  let '(J, W_kd, R_ket, S_y) := out in
  Ok (W_kd, R_ket, S_y).

End Callers.

(** The seed of the single-output test in [testcase_levelsCCA]:
    [S_y = np.zeros((nY)); S_y[yi] = 1].  (An index [yi] outside the
    array raises IndexError in numpy; the list update does nothing
    there.) *)
Definition one_hot (nY yi : nat) : ndarray := vec (<[yi := 1]> (replicate nY 0)).

End Callers.

(** ** A second implementation, for diagonal matrices

    As [Small], but with the singular value decomposition of a
    diagonal matrix of any size, so that an iteration has more than one
    component to choose from. *)

Module Diag.

(** [M = U @ diag(s) @ Vh] for a diagonal [M]: [U] holds the signs of
    the diagonal, [s] its absolute values, [Vh] is the identity.  This
    is the decomposition numpy returns (up to the signs) when the
    absolute values are in descending order, as they are in the runs
    below. *)
Definition svd_diag (M : ndarray) : ndarray * ndarray * ndarray :=
  let n := Nat.min (dim M 0) (dim M 1) in
  (tabulate [dim M 0; n] (fun ix =>
     match ix with
     | [i; k] => if Nat.eqb i k then (if Qlt_bool (get M [i; i]) 0 then -1 else 1) else 0
     | _ => 0
     end),
   tabulate [n] (fun ix => match ix with [k] => Qabs (get M [k; k]) | _ => 0 end),
   tabulate [n; dim M 1] (fun ix =>
     match ix with
     | [k; j] => if Nat.eqb k j then 1 else 0
     | _ => 0
     end)).

#[export] Instance diag_linalg : LinAlg := {|
  np_pinv := Small.pinv_diag;
  np_exp := Small.exp2;
  np_sqrt := Small.Qsqrt;
  np_svd := svd_diag;
  robust_whitener := Small.whitener_diag;
  Cyy_tyeye_diag2full := Small.diag2full
|}.

End Diag.

(** ** More small inputs *)

Module MoreInputs.
Import CCA.

(** [tol = 0] and two iterations; the mode 'gd' with [rank = 0]. *)
Definition p_zero_tol : params :=
  {| reg := One 0; rank := 1; rcond := Two (1 # 100000000) (1 # 100000000);
     tol := 0; max_iter := 2; eta := 1 # 2; syopt := None |}.
Definition p_gd_rank0 : params :=
  {| reg := One 0; rank := 0; rcond := Two (1 # 100000000) (1 # 100000000);
     tol := 1 # 1000; max_iter := 1; eta := 1 # 2; syopt := Some "gd"%string |}.

(** Two outputs of variance 4, and statistics that differ from
    [Cyx1], [Cyy4] in the second output only. *)
Definition Cyy4 : ndarray := mk_nd [1; 2; 1; 2; 1]%nat [4; 0; 0; 4].
Definition Cyx2 : ndarray := mk_nd [2; 1; 1; 1]%nat [1 # 5; 7 # 10].
Definition Cyy2 : ndarray := mk_nd [1; 2; 1; 2; 1]%nat [4; 0; 0; 9].

(** One output of variance 4, one event type, one lag, one channel. *)
Definition Cyx_one : ndarray := mk_nd [1; 1; 1; 1]%nat [1 # 5].
Definition Cyy_one : ndarray := mk_nd [1; 1; 1; 1; 1]%nat [4].

(** One output, two event types of variance 4, one lag, two channels
    of unit variance: the first event type covaries with the first
    channel (0.8), the second with the second (0.2), so that the
    doubly-whitened cross matrix is diag(0.4, 0.1).  [Cyx_z]: no
    covariance between events and channels. *)
Definition Cxx_I2 : ndarray := mk_nd [2; 2]%nat [1; 0; 0; 1].
Definition Cyx_d : ndarray := mk_nd [1; 2; 1; 2]%nat [4 # 5; 0; 0; 1 # 5].
Definition Cyx_z : ndarray := mk_nd [1; 2; 1; 2]%nat [0; 0; 0; 0].
Definition Cyy_d : ndarray := mk_nd [1; 1; 2; 1; 2]%nat [4; 0; 0; 4].

(** The mode 'lspos' with the other settings at their defaults. *)
Definition p_lspos : params :=
  {| reg := One (1 # 1000000000); rank := 1;
     rcond := Two (1 # 100000000) (1 # 100000000);
     tol := 1 # 1000; max_iter := 100; eta := 1 # 2; syopt := Some "lspos"%string |}.

(** No ridge, one iteration, and two components or one. *)
Definition p_rank2 : params :=
  {| reg := One 0; rank := 2; rcond := Two (1 # 100000000) (1 # 100000000);
     tol := 1 # 1000; max_iter := 1; eta := 1 # 2; syopt := None |}.
Definition p_rank1 : params :=
  {| reg := One 0; rank := 1; rcond := Two (1 # 100000000) (1 # 100000000);
     tol := 1 # 1000; max_iter := 1; eta := 1 # 2; syopt := None |}.

End MoreInputs.


(** * Properties *)

(** ** Rationals, sums and arrays *)

Lemma Qlt_bool_iff (x y : Q) : Qlt_bool x y = true <-> x < y.
Proof.
  unfold Qlt_bool. rewrite negb_true_iff, <- not_true_iff_false, Qle_bool_iff.
  split; [apply Qnot_le_lt | apply Qlt_not_le].
Qed.

Lemma Qlt_bool_false (x y : Q) : Qlt_bool x y = false <-> y <= x.
Proof.
  unfold Qlt_bool. rewrite negb_false_iff. apply Qle_bool_iff.
Qed.

Lemma all_zero_spec (a : ndarray) :
  all_zero a = true <-> Forall (fun x => x == 0) (data a).
Proof.
  unfold all_zero. rewrite forallb_forall, Forall_forall.
  split; intros Hz x Hx.
  - apply Qeq_bool_iff, Hz, list_elem_of_In, Hx.
  - apply Qeq_bool_iff, Hz, list_elem_of_In, Hx.
Qed.

Lemma sumQ_nil : sumQ [] = 0.
Proof. reflexivity. Qed.

Lemma sumQ_cons (x : Q) (l : list Q) : sumQ (x :: l) == x + sumQ l.
Proof. unfold sumQ. cbn [foldr]. apply Qred_correct. Qed.

Lemma sumQ_nonneg (l : list Q) : Forall (fun x => 0 <= x) l -> 0 <= sumQ l.
Proof.
  induction 1 as [|x l Hx _ IH]; rewrite ?sumQ_cons, ?sumQ_nil; lra.
Qed.

Lemma sumQ_pos (l : list Q) : l <> [] -> Forall (fun x => 0 < x) l -> 0 < sumQ l.
Proof.
  intros Hne Hl. destruct Hl as [|x l Hx Hl]; [congruence|]. rewrite sumQ_cons.
  assert (0 <= sumQ l) by (apply sumQ_nonneg; eapply Forall_impl; [apply Hl|];
                           intros; now apply Qlt_le_weak).
  lra.
Qed.

Lemma sumQ_map_div (l : list Q) (d : Q) :
  sumQ (map (fun x => x / d) l) == sumQ l / d.
Proof.
  induction l as [|x l IH]; cbn [map]; rewrite ?sumQ_cons, ?sumQ_nil.
  - unfold Qdiv. now rewrite Qmult_0_l.
  - rewrite IH. unfold Qdiv. now rewrite Qmult_plus_distr_l.
Qed.



(** Reading a tabulated array at an index within its shape gives the
    tabulated function back. *)
Lemma length_indices (shp : list nat) : length (indices shp) = size_of shp.
Proof.
  induction shp as [|n shp IH]; [reflexivity|].
  cbn [indices size_of foldr]. fold (size_of shp). rewrite <- IH.
  generalize 0%nat. induction n as [|n IHn]; intros a; [reflexivity|].
  cbn [seq flat_map]. rewrite length_app, length_map, IHn. cbn. lia.
Qed.

Lemma ravel_lt (shp ix : list nat) :
  Forall2 lt ix shp -> (ravel shp ix < size_of shp)%nat.
Proof.
  induction 1 as [|i n ix shp Hi _ IH]; [cbn; lia|].
  cbn [ravel size_of foldr]. fold (size_of shp). nia.
Qed.

Lemma lookup_flat_map_block {A B} (g : A -> list B) (m : nat) (xs : list A) :
  (forall x, length (g x) = m) ->
  forall i r, (r < m)%nat ->
  flat_map g xs !! (i * m + r)%nat = xs !! i ≫= fun x => g x !! r.
Proof.
  intros Hg. induction xs as [|x xs IH]; intros i r Hr; [reflexivity|].
  cbn [flat_map]. destruct i as [|i].
  - cbn. rewrite lookup_app_l by (rewrite Hg; lia). reflexivity.
  - rewrite lookup_app_r by (rewrite Hg; lia). rewrite Hg.
    replace (S i * m + r - m)%nat with (i * m + r)%nat by lia.
    now rewrite IH.
Qed.

Lemma lookup_indices (shp ix : list nat) :
  Forall2 lt ix shp -> indices shp !! ravel shp ix = Some ix.
Proof.
  induction 1 as [|i n ix shp Hi Hrest IH]; [reflexivity|].
  cbn [indices ravel].
  rewrite (lookup_flat_map_block _ (size_of shp)).
  - rewrite lookup_seq_lt by exact Hi. cbn.
    rewrite list_lookup_fmap, IH. reflexivity.
  - intros x. now rewrite length_map, length_indices.
  - now apply ravel_lt.
Qed.

Lemma get_tabulate (shp : list nat) (f : list nat -> Q) (ix : list nat) :
  Forall2 lt ix shp -> get (tabulate shp f) ix = f ix.
Proof.
  intros Hix. unfold get, tabulate. cbn [shape data].
  apply nth_lookup_Some with (d := 0).
  rewrite list_lookup_fmap, (lookup_indices _ _ Hix). reflexivity.
Qed.

(** Reading a vector. *)
Lemma get_vec (l : list Q) (k : nat) : get (vec l) [k] = nth k l 0.
Proof.
  unfold get, vec. cbn. f_equal. lia.
Qed.

(** ** The weight solver *)

Module SolverFacts.
Import Solver.
Section SolverFacts.
Context `{LinAlg}.

Lemma supported_false (syopt : string) :
  supported syopt = false ->
  update syopt = fun _ _ _ => Raise (ValueError ("unknown optimization type: " +:+ syopt)).
Proof.
  unfold supported, supported_modes. simpl. rewrite !orb_false_iff.
  intros (H1 & H2 & H3 & H4 & H5 & H6 & H7 & _).
  unfold update. now rewrite H1, H2, H3, H4, H5, H6, H7.
Qed.

(** The closing clamp and renormalisation never divides by zero. *)
Lemma clamp_positive (s : ndarray) : Forall (fun x => 0 < x) (data (clamp s)).
Proof.
  unfold clamp, amap. simpl. apply Forall_forall. intros x Hx.
  apply list_elem_of_fmap in Hx as (y & -> & _).
  eapply Qlt_le_trans; [|apply Q.le_max_l]. reflexivity.
Qed.

Lemma clamp_length (s : ndarray) : length (data (clamp s)) = length (data s).
Proof. unfold clamp, amap. simpl. apply length_map. Qed.

Lemma clamp_normalise_ok (s : ndarray) :
  exists v, clamp_normalise s = Ok v
    /\ shape v = shape s
    /\ length (data v) = length (data s)
    /\ Forall (fun x => 0 < x) (data v)
    /\ (data v <> [] -> asum v == 1).
Proof.
  unfold clamp_normalise, div_scalar.
  pose proof (clamp_positive s) as Hpos.
  pose proof (clamp_length s) as Hlen.
  destruct (Qeq_bool (asum (clamp s)) 0) eqn:Hz.
  - apply Qeq_bool_iff in Hz.
    destruct (data (clamp s)) as [|x l] eqn:Hd.
    + exists (clamp s). rewrite Hd. repeat split; try assumption; congruence.
    + exfalso. assert (0 < asum (clamp s)).
      { unfold asum. apply sumQ_pos; rewrite Hd; [easy | exact Hpos]. }
      lra.
  - assert (Hnz : ~ asum (clamp s) == 0).
    { intros Hc. apply Qeq_bool_iff in Hc. congruence. }
    eexists. split; [reflexivity|]. cbn [amap shape data].
    repeat split.
    + now rewrite length_map.
    + apply Forall_forall. intros x Hx.
      apply list_elem_of_fmap in Hx as (y & -> & Hy).
      assert (Hs : 0 < asum (clamp s)).
      { unfold asum. apply sumQ_pos; [|exact Hpos].
        intros Hc. rewrite Hc in Hy. inversion Hy. }
      rewrite Forall_forall in Hpos. specialize (Hpos y Hy).
      apply Qlt_shift_div_l; lra.
    + intros _. eapply Qeq_trans; [apply sumQ_map_div|].
      fold (asum (clamp s)). field. exact Hnz.
Qed.

(** A solve that is not cut short by the guard ends in the clamp: what
    it returns is positive and sums to 1. *)
Lemma nonneglsopt_solved C_xx C_yx C_yy s_y syopt max_iter tol ridge eps v :
  all_zero C_yy = false ->
  nonneglsopt C_xx C_yx C_yy s_y syopt max_iter tol ridge eps = Ok v ->
  Forall (fun x => 0 < x) (data v) /\ (data v <> [] -> asum v == 1).
Proof.
  intros Hz. unfold nonneglsopt, solve. rewrite Hz.
  destruct (solver_loop _ _ _ _ _ _ _ _ _) as [s| |]; cbn; try discriminate.
  destruct (clamp_normalise_ok s) as (w & Hw & _ & _ & Hpos & Hsum).
  rewrite Hw. intros [= <-]. now split.
Qed.

(** In the 'expgrad' and 'gd' modes the first iteration stops at the
    missing name [eta]. *)
Lemma missing_eta_raises C_xx C_yx C_yy s_y syopt max_iter tol ridge eps :
  syopt = "expgrad"%string \/ syopt = "gd"%string ->
  all_zero C_yy = false ->
  max_iter <> 0%nat ->
  nonneglsopt C_xx C_yx C_yy s_y (Some syopt) max_iter tol ridge eps
  = Raise (NameError "eta").
Proof.
  intros Hm Hz Hn. unfold nonneglsopt, solve. rewrite Hz.
  destruct max_iter as [|n]; [congruence|].
  destruct Hm as [-> | ->]; reflexivity.
Qed.

(** C1, at a failing input.  [C_yy = [[1]]] is positive semi-definite
    and not zero, 'expgrad' and 'gd' are two of the modes the dispatch
    chain of [nonneglsopt] offers, and the call with the default
    settings returns no vector at all: it raises NameError on [eta],
    whatever the numerical routines are. *)
Theorem nonneglsopt_expgrad_gd_raise :
  nonneglsopt 1 (vec [1 # 2]) (mk_nd [1; 1]%nat [1]) (vec [1]) (Some "expgrad"%string)
    30 (1 # 10000) (1 # 10000) (1 # 1000) = Raise (NameError "eta")
  /\ nonneglsopt 1 (vec [1 # 2]) (mk_nd [1; 1]%nat [1]) (vec [1]) (Some "gd"%string)
    30 (1 # 10000) (1 # 10000) (1 # 1000) = Raise (NameError "eta").
Proof. split; reflexivity. Qed.

(** C4.  If every entry of the Gram matrix [C_yy] is zero, the solver
    returns its input [s_y] as it is, for every mode (a supported one,
    [None], or any other string) and every setting of the iteration
    cap, tolerance, ridge and epsilon. *)
Theorem nonneglsopt_zero_gram_returns_input
    C_xx C_yx C_yy s_y syopt max_iter tol ridge eps :
  Forall (fun x => x == 0) (data C_yy) ->
  nonneglsopt C_xx C_yx C_yy s_y syopt max_iter tol ridge eps = Ok s_y.
Proof.
  intros Hz. apply all_zero_spec in Hz. unfold nonneglsopt. now rewrite Hz.
Qed.

(** C5, as amended.  When [C_yy] has a non-zero entry and at least one
    iteration is allowed, a mode string outside the supported ones
    makes the call raise ValueError in its first iteration, before any
    update of [s_y]. *)
Theorem nonneglsopt_unknown_mode_raises
    C_xx C_yx C_yy s_y (syopt : string) max_iter tol ridge eps :
  supported syopt = false ->
  ~ Forall (fun x => x == 0) (data C_yy) ->
  max_iter <> 0%nat ->
  nonneglsopt C_xx C_yx C_yy s_y (Some syopt) max_iter tol ridge eps
  = Raise (ValueError ("unknown optimization type: " +:+ syopt)).
Proof.
  intros Hs Hz Hn. unfold nonneglsopt, solve.
  destruct (all_zero C_yy) eqn:Ha.
  { exfalso. now apply Hz, all_zero_spec. }
  destruct max_iter as [|n]; [congruence|].
  cbn [from_option id solver_loop]. now rewrite (supported_false _ Hs).
Qed.

(** C10.  With an all-zero [C_yy] the early return comes before the
    mode is looked at and before the closing clamp: a mode string that
    is not supported raises nothing, and the result is the input [s_y]
    itself, whatever its entries. *)
Theorem nonneglsopt_zero_gram_skips_checks
    C_xx C_yx C_yy s_y (syopt : string) max_iter tol ridge eps :
  Forall (fun x => x == 0) (data C_yy) ->
  supported syopt = false ->
  nonneglsopt C_xx C_yx C_yy s_y (Some syopt) max_iter tol ridge eps = Ok s_y.
Proof.
  intros Hz _. apply all_zero_spec in Hz. unfold nonneglsopt. now rewrite Hz.
Qed.

End SolverFacts.
End SolverFacts.

(** *** Concrete runs of the solver *)

Module SolverRuns.
Import Solver SolverFacts Small.

Lemma nonneglsopt_zero_gram_returns_input_witness :
  Forall (fun x => x == 0) (data (mk_nd [2; 2]%nat [0; 0; 0; 0]))
  /\ nonneglsopt 1 (vec [1 # 5; 1 # 10]) (mk_nd [2; 2]%nat [0; 0; 0; 0])
       (vec [1 # 3; 2 # 3]) (Some "ls"%string) 30 (1 # 10000) (1 # 10000) (1 # 1000)
     = Ok (vec [1 # 3; 2 # 3]).
Proof.
  assert (Hz : Forall (fun x => x == 0) (data (mk_nd [2; 2]%nat [0; 0; 0; 0])))
    by (repeat constructor).
  split; [exact Hz|].
  exact (nonneglsopt_zero_gram_returns_input 1 (vec [1 # 5; 1 # 10]) _
           (vec [1 # 3; 2 # 3]) (Some "ls"%string) 30 (1 # 10000) (1 # 10000)
           (1 # 1000) Hz).
Defined.

Lemma nonneglsopt_unknown_mode_raises_witness :
  nonneglsopt 1 (vec [1 # 5; 1 # 10]) (mk_nd [2; 2]%nat [2; 0; 0; 2])
    (vec [1 # 2; 1 # 2]) (Some "newton"%string) 30 (1 # 10000) (1 # 10000) (1 # 1000)
  = Raise (ValueError "unknown optimization type: newton").
Proof.
  apply (nonneglsopt_unknown_mode_raises 1 (vec [1 # 5; 1 # 10])
           (mk_nd [2; 2]%nat [2; 0; 0; 2]) (vec [1 # 2; 1 # 2]) "newton").
  - reflexivity.
  - intros Hz. inversion Hz as [|x l Hx _]. discriminate Hx.
  - discriminate.
Defined.

(** C5, as stated, fails: an unsupported mode string is not an error
    when [C_yy] is all zero, nor when no iteration is allowed. *)
Lemma nonneglsopt_unknown_mode_no_error :
  supported "newton" = false
  /\ nonneglsopt 1 (vec [1 # 2]) (mk_nd [1; 1]%nat [0]) (vec [1])
       (Some "newton"%string) 30 (1 # 10000) (1 # 10000) (1 # 1000)
     = Ok (vec [1])
  /\ nonneglsopt 1 (vec [1 # 2]) (mk_nd [1; 1]%nat [1]) (vec [1])
       (Some "newton"%string) 0 (1 # 10000) (1 # 10000) (1 # 1000)
     = Ok (vec [1]).
Proof. repeat split; vm_compute; reflexivity. Qed.

Lemma nonneglsopt_zero_gram_skips_checks_witness :
  Forall (fun x => x == 0) (data (mk_nd [2; 2]%nat [0; 0; 0; 0]))
  /\ supported "simplex" = false
  /\ nonneglsopt 1 (vec [1 # 5; 1 # 10]) (mk_nd [2; 2]%nat [0; 0; 0; 0])
       (vec [-1; 3]) (Some "simplex"%string) 30 (1 # 10000) (1 # 10000) (1 # 1000)
     = Ok (vec [-1; 3]).
Proof.
  assert (Hz : Forall (fun x => x == 0) (data (mk_nd [2; 2]%nat [0; 0; 0; 0])))
    by (repeat constructor).
  assert (Hs : supported "simplex" = false) by reflexivity.
  split; [exact Hz|]. split; [exact Hs|].
  exact (nonneglsopt_zero_gram_skips_checks 1 (vec [1 # 5; 1 # 10]) _
           (vec [-1; 3]) "simplex" 30 (1 # 10000) (1 # 10000) (1 # 1000) Hz Hs).
Defined.

End SolverRuns.

(** ** The choice of the components *)

Module SelectFacts.
Import CCA.
Section Argsort.
Variable l : list Q.

#[local] Abbreviation le_at := (le_at l).

Lemma insert_idx_perm i sorted : insert_idx l i sorted ≡ₚ i :: sorted.
Proof.
  induction sorted as [|j rest IH]; cbn; [reflexivity|].
  destruct (Qle_bool (nth j l 0) (nth i l 0)); [|reflexivity].
  rewrite IH. apply Permutation_swap.
Qed.

Lemma insert_idx_sorted i sorted :
  StronglySorted le_at sorted -> StronglySorted le_at (insert_idx l i sorted).
Proof.
  induction sorted as [|j rest IH]; cbn; intros Hs.
  - repeat constructor.
  - apply StronglySorted_cons in Hs as [Hj Hrest].
    destruct (Qle_bool (nth j l 0) (nth i l 0)) eqn:Hle.
    + apply Qle_bool_iff in Hle. apply StronglySorted_cons. split; [|auto].
      rewrite (insert_idx_perm i rest). constructor; assumption.
    + assert (Hlt : nth i l 0 < nth j l 0).
      { apply Qnot_le_lt. intros Hc. apply Qle_bool_iff in Hc. congruence. }
      apply StronglySorted_cons. split.
      * constructor; [unfold le_at; lra|].
        eapply Forall_impl; [exact Hj|]. unfold le_at. intros k Hk. lra.
      * apply StronglySorted_cons. now split.
Qed.

Lemma fold_insert_spec (todo acc : list nat) :
  StronglySorted le_at acc ->
  StronglySorted le_at (fold_left (fun acc i => insert_idx l i acc) todo acc)
  /\ fold_left (fun acc i => insert_idx l i acc) todo acc ≡ₚ todo ++ acc.
Proof.
  revert acc. induction todo as [|i todo IH]; intros acc Hs; cbn.
  - split; [exact Hs | reflexivity].
  - destruct (IH (insert_idx l i acc) (insert_idx_sorted i acc Hs)) as [H1 H2].
    split; [exact H1|].
    rewrite H2, insert_idx_perm. symmetry. apply Permutation_middle.
Qed.

Lemma argsort_sorted : StronglySorted le_at (argsort l).
Proof. apply fold_insert_spec. constructor. Qed.

Lemma argsort_perm : argsort l ≡ₚ seq 0 (length l).
Proof.
  unfold argsort. destruct (fold_insert_spec (seq 0 (length l)) []) as [_ Hp];
    [constructor|]. now rewrite app_nil_r in Hp.
Qed.

Lemma StronglySorted_rev {A} (R : relation A) (xs : list A) :
  StronglySorted R xs -> StronglySorted (flip R) (rev xs).
Proof.
  induction 1 as [|x xs Hs IH Hx]; cbn; [constructor|].
  apply StronglySorted_app_2; [|exact IH|repeat constructor].
  intros y z Hy Hz. apply list_elem_of_singleton in Hz as ->.
  rewrite Forall_forall in Hx. apply Hx.
  apply list_elem_of_In, in_rev, list_elem_of_In. exact Hy.
Qed.

(** The indices [top_idx] keeps: as many as the rank allows, distinct,
    in range, by value descending, and no index left out has a larger
    value than one that is kept. *)
Lemma top_idx_spec (rank : nat) (a : ndarray) :
  data a = l ->
  let idx := top_idx rank a in
  length idx = Nat.min rank (length l)
  /\ NoDup idx
  /\ Forall (fun i => (i < length l)%nat) idx
  /\ StronglySorted (flip le_at) idx
  /\ (forall i j, i ∈ idx -> (j < length l)%nat -> j ∉ idx -> le_at j i).
Proof.
  intros Hd. unfold top_idx. rewrite Hd. cbv zeta.
  pose proof argsort_perm as Hp. pose proof argsort_sorted as Hs.
  apply StronglySorted_rev in Hs.
  assert (Hp' : rev (argsort l) ≡ₚ seq 0 (length l)).
  { now rewrite <- Hp, <- Permutation_rev. }
  assert (Hlen : length (rev (argsort l)) = length l).
  { now rewrite Hp', length_seq. }
  assert (Hnd : NoDup (rev (argsort l))).
  { rewrite Hp'. apply NoDup_seq. }
  set (r := Nat.min (length (rev (argsort l))) rank) in *.
  rewrite <- (take_drop r (rev (argsort l))) in Hs, Hnd, Hp'.
  set (idx := take r (rev (argsort l))) in *.
  split; [unfold idx; rewrite length_take; unfold r; lia|].
  split; [apply NoDup_app in Hnd as (Hnd1 & _ & _); exact Hnd1|].
  split.
  { apply Forall_forall. intros i Hi.
    assert (Hin : i ∈ seq 0 (length l)) by (rewrite <- Hp'; set_solver).
    apply elem_of_seq in Hin. lia. }
  split; [eapply StronglySorted_app_1_l; exact Hs|].
  intros i j Hi Hj Hnot.
  assert (Hin : j ∈ idx ++ drop r (rev (argsort l))).
  { rewrite Hp'. apply elem_of_seq. lia. }
  apply elem_of_app in Hin as [Hin | Hin]; [contradiction|].
  exact (StronglySorted_app_1_elem_of _ _ _ _ _ Hs Hi Hin).
Qed.

End Argsort.
Section Retain.
Context `{LinAlg}.

Lemma sorted_values (l : list Q) (idx : list nat) :
  StronglySorted (flip (le_at l)) idx ->
  StronglySorted (fun x y => y <= x) (map (fun i => nth i l 0) idx).
Proof.
  induction 1 as [|i idx Hs IH Hi]; cbn; constructor; [exact IH|].
  apply Forall_forall. intros x Hx.
  apply list_elem_of_fmap in Hx as (j & -> & Hj).
  rewrite Forall_forall in Hi. exact (Hi j Hj).
Qed.

Lemma step_of_retain Cxx_dd Cyx_yetd Cyy_tyeye p S_y :
  let usv := svd_factors Cxx_dd Cyx_yetd Cyy_tyeye p S_y in
  let r := Z.to_nat (Z.max 1 (rank p)) in
  let idx := top_idx r (snd (fst usv)) in
  let mdl := fst (step_of Cxx_dd Cyx_yetd Cyy_tyeye p S_y) in
  l_k mdl = take_idx (snd (fst usv)) idx
  /\ dim (W_kd mdl) 0 = length idx
  /\ dim (R_ket mdl) 0 = length idx
  /\ retain r (dim_last Cyy_tyeye) (dim Cyy_tyeye 0) usv
     = (select_rows (responses_ket (dim_last Cyy_tyeye) (dim Cyy_tyeye 0)
                       (fst (fst usv))) idx,
        take_idx (snd (fst usv)) idx,
        select_rows (snd usv) idx).
Proof.
  unfold step_of, svd_factors, cca_step. cbv zeta.
  destruct (whitened_cross _ _ _ _ _ _ _ _) as [isq M]. cbn [snd].
  destruct (np_svd M) as [[U s] Vh]. cbn. tauto.
Qed.

Lemma big_sum_ext (n : nat) (f g : nat -> Q) :
  (forall i, (i < n)%nat -> f i = g i) -> big_sum n f = big_sum n g.
Proof.
  intros Hfg. unfold big_sum. f_equal. apply map_ext_in.
  intros i Hi. apply in_seq in Hi. apply Hfg. lia.
Qed.

(** Row [k] of [a[idx, ...]] is row [idx[k]] of [a]. *)
Lemma get_select_rows (a : ndarray) (idx : list nat) k i rest :
  idx !! k = Some i ->
  Forall2 lt rest (tail (shape a)) ->
  get (select_rows a idx) (k :: rest) = get a (i :: rest).
Proof.
  intros Hk Hrest. unfold select_rows.
  rewrite get_tabulate.
  - now rewrite (nth_lookup_Some _ _ 0%nat _ Hk).
  - constructor; [now apply lookup_lt_Some in Hk | exact Hrest].
Qed.

(** The model of an iteration, entry by entry: row [k] of [W_kd] is
    row [idx[k]] of the right factor of the SVD times the spatial
    whitener, and slice [k] of [R_ket] is column [idx[k]] of the left
    factor, as [(nE, tau)], times the whitener of the weighted [Cyy]. *)
Lemma step_of_rows Cxx_dd Cyx_yetd Cyy_tyeye p S_y :
  let usv := svd_factors Cxx_dd Cyx_yetd Cyy_tyeye p S_y in
  let U := fst (fst usv) in
  let s := data (snd (fst usv)) in
  let Vh := snd usv in
  let idx := top_idx (Z.to_nat (Z.max 1 (rank p))) (snd (fst usv)) in
  let nE := dim_last Cyy_tyeye in
  let tau := dim Cyy_tyeye 0 in
  let isqrtCxx_dd :=
    robust_whitener Cxx_dd (fst (as_pair (reg p))) (fst (as_pair (rcond p))) true in
  let isqrtCyy_etet :=
    fst (whitened_cross (snd (as_pair (reg p))) (snd (as_pair (rcond p)))
           (Cyy_tyeye_diag2full Cyy_tyeye) (whiten_Cyx Cyx_yetd isqrtCxx_dd)
           nE tau (dim Cxx_dd 0) S_y) in
  let mdl := fst (step_of Cxx_dd Cyx_yetd Cyy_tyeye p S_y) in
  (forall kv dv k i f,
     shape Vh = [kv; dv] -> idx !! k = Some i -> (f < dim isqrtCxx_dd 1)%nat ->
     get (W_kd mdl) [k; f]
     = big_sum dv (fun d => get Vh [i; d] * get isqrtCxx_dd [d; f]))
  /\ (forall k i f u,
        dim_last U = length s -> idx !! k = Some i -> (i < length s)%nat ->
        (f < nE)%nat -> (u < tau)%nat ->
        get (R_ket mdl) [k; f; u]
        = big_sum nE (fun e => big_sum tau (fun t =>
            get (reshape U [nE; tau; length s]) [e; t; i]
            * get isqrtCyy_etet [e; t; f; u]))).
Proof.
  unfold step_of, svd_factors, cca_step. cbv zeta.
  destruct (whitened_cross _ _ _ _ _ _ _ _) as [isq M]. cbn [fst snd].
  destruct (np_svd M) as [[U s] Vh]. cbn [fst snd retain reduced W_kd R_ket].
  set (idx := top_idx _ s).
  split.
  - intros kv dv k i f HVh Hk Hf.
    pose proof (lookup_lt_Some _ _ _ Hk) as Hklt.
    rewrite get_tabulate.
    2:{ unfold select_rows, dim. cbn [tabulate shape nth].
        repeat constructor; assumption. }
    assert (Hd1 : dim (select_rows Vh idx) 1 = dv).
    { unfold select_rows, dim. cbn [tabulate shape]. now rewrite HVh. }
    rewrite Hd1. apply big_sum_ext. intros d Hd.
    rewrite (get_select_rows Vh idx k i [d] Hk); [reflexivity|].
    rewrite HVh. cbn. repeat constructor. exact Hd.
  - intros k i f u HU Hk Hi Hf Hu.
    pose proof (lookup_lt_Some _ _ _ Hk) as Hklt.
    set (R0 := responses_ket (dim_last Cyy_tyeye) (dim Cyy_tyeye 0) U).
    assert (Hs0 : shape R0 = [dim_last U; dim_last Cyy_tyeye; dim Cyy_tyeye 0]) by reflexivity.
    assert (Hd0 : dim (select_rows R0 idx) 0 = length idx) by reflexivity.
    assert (Hd1 : dim (select_rows R0 idx) 1 = dim_last Cyy_tyeye) by reflexivity.
    assert (Hd2 : dim (select_rows R0 idx) 2 = dim Cyy_tyeye 0) by reflexivity.
    rewrite Hd0, Hd1, Hd2.
    rewrite get_tabulate by (repeat constructor; assumption).
    apply big_sum_ext. intros e He. apply big_sum_ext. intros t Ht.
    rewrite (get_select_rows R0 idx k i [e; t] Hk).
    2:{ rewrite Hs0. cbn. repeat constructor; assumption. }
    unfold R0, responses_ket. rewrite get_tabulate.
    2:{ rewrite HU. repeat constructor; assumption. }
    now rewrite HU.
Qed.
(** C7.  In an iteration with rank parameter [r >= 1], the components
    kept are those of the [r] largest singular values of the SVD of the
    doubly-whitened cross matrix: the kept indices [idx] are distinct
    and in range, their singular values are the returned [l_k], in
    descending order, and no singular value left out exceeds a kept
    one.  The vectors kept are the singular vectors of these indices:
    row [k] of the model's [W_kd] is row [idx[k]] of the right factor
    [Vh], times the spatial whitener, and slice [k] of its [R_ket] is
    column [idx[k]] of the left factor [U], read as [(nE, tau)], times
    the whitener of the weighted [Cyy] (for factors of the shapes the
    SVD gives them: [Vh] a matrix, [U] with one column per singular
    value).  Their number is [min(r, number of singular values)] along
    the first axis of [W_kd], of [R_ket] and in [l_k]: fewer than [r]
    when the SVD offers fewer, never more. *)
Theorem levelsCCA_cov_retains_top_rank Cxx_dd Cyx_yetd Cyy_tyeye p S_y :
  (1 <= rank p)%Z ->
  let usv := svd_factors Cxx_dd Cyx_yetd Cyy_tyeye p S_y in
  let U := fst (fst usv) in
  let s := data (snd (fst usv)) in
  let Vh := snd usv in
  let r := Z.to_nat (rank p) in
  let nE := dim_last Cyy_tyeye in
  let tau := dim Cyy_tyeye 0 in
  let isqrtCxx_dd :=
    robust_whitener Cxx_dd (fst (as_pair (reg p))) (fst (as_pair (rcond p))) true in
  let isqrtCyy_etet :=
    fst (whitened_cross (snd (as_pair (reg p))) (snd (as_pair (rcond p)))
           (Cyy_tyeye_diag2full Cyy_tyeye) (whiten_Cyx Cyx_yetd isqrtCxx_dd)
           nE tau (dim Cxx_dd 0) S_y) in
  let mdl := fst (step_of Cxx_dd Cyx_yetd Cyy_tyeye p S_y) in
  exists idx,
    length idx = Nat.min r (length s)
    /\ NoDup idx
    /\ Forall (fun i => (i < length s)%nat) idx
    /\ data (l_k mdl) = map (fun i => nth i s 0) idx
    /\ StronglySorted (fun x y => y <= x) (data (l_k mdl))
    /\ (forall i j, i ∈ idx -> (j < length s)%nat -> j ∉ idx ->
          nth j s 0 <= nth i s 0)
    /\ (forall kv dv k i f,
          shape Vh = [kv; dv] -> idx !! k = Some i -> (f < dim isqrtCxx_dd 1)%nat ->
          get (W_kd mdl) [k; f]
          = big_sum dv (fun d => get Vh [i; d] * get isqrtCxx_dd [d; f]))
    /\ (forall k i f u,
          dim_last U = length s -> idx !! k = Some i -> (f < nE)%nat -> (u < tau)%nat ->
          get (R_ket mdl) [k; f; u]
          = big_sum nE (fun e => big_sum tau (fun t =>
              get (reshape U [nE; tau; length s]) [e; t; i]
              * get isqrtCyy_etet [e; t; f; u])))
    /\ retain r nE tau usv
       = (select_rows (responses_ket nE tau U) idx,
          take_idx (snd (fst usv)) idx,
          select_rows Vh idx)
    /\ dim (W_kd mdl) 0 = Nat.min r (length s)
    /\ dim (R_ket mdl) 0 = Nat.min r (length s)
    /\ length (data (l_k mdl)) = Nat.min r (length s).
Proof.
  intros Hr usv U s Vh r nE tau isqrtCxx_dd isqrtCyy_etet mdl.
  assert (Hrank : Z.to_nat (Z.max 1 (rank p)) = r) by (unfold r; f_equal; lia).
  pose proof (step_of_retain Cxx_dd Cyx_yetd Cyy_tyeye p S_y) as Hret.
  pose proof (step_of_rows Cxx_dd Cyx_yetd Cyy_tyeye p S_y) as Hrows.
  cbv zeta in Hret, Hrows. rewrite Hrank in Hret, Hrows.
  fold usv in Hret, Hrows. fold mdl in Hret, Hrows. fold U s Vh in Hrows.
  fold nE tau in Hrows. fold isqrtCxx_dd in Hrows. fold isqrtCyy_etet in Hrows.
  destruct Hret as (Hl & HW & HR & HVh). destruct Hrows as (HWrow & HRrow).
  destruct (top_idx_spec s r (snd (fst usv)) eq_refl)
    as (Hlen & Hnd & Hrange & Hsort & Htop).
  exists (top_idx r (snd (fst usv))).
  split; [exact Hlen|]. split; [exact Hnd|]. split; [exact Hrange|].
  split; [rewrite Hl; reflexivity|].
  split; [rewrite Hl; apply sorted_values, Hsort|].
  split; [exact Htop|].
  split; [exact HWrow|].
  split.
  { intros k i f u HU Hk Hf Hu. apply HRrow; try assumption.
    rewrite Forall_forall in Hrange. apply Hrange.
    now apply list_elem_of_lookup_2 in Hk. }
  split; [exact HVh|].
  split; [now rewrite HW|]. split; [now rewrite HR|].
  rewrite Hl. cbn. now rewrite length_map.
Qed.

End Retain.
End SelectFacts.

(** ** The optimiser loop *)

Module CCAFacts.
Import CCA.
Section Loop.
Context `{LinAlg}.
Variables (step : ndarray -> model * stats) (syopt : option string) (tol : Q).

(** What a record says about the iteration that produced it. *)
Lemma weight_step_inv sts oJ oS it :
  weight_step sts syopt oJ oS = Ok it ->
  exists s,
    Solver.nonneglsopt_default (wCxxw sts) (rCyxw_y sts) (rCyyr_yy sts) oS syopt = Ok s
    /\ div_scalar s (asum s) = Ok (it_S_y it)
    /\ it_stats it = sts /\ it_oS_y it = oS
    /\ J_wr it = J_of sts oS
    /\ J_s it = J_of sts (it_S_y it)
    /\ deltaS_y it = asum (amap Qabs (asub (it_S_y it) oS))
    /\ deltaJ it = Qabs (J_s it - oJ).
Proof.
  unfold weight_step.
  destruct (Solver.nonneglsopt_default _ _ _ _ _) as [s| |] eqn:Hs; cbn; try discriminate.
  destruct (div_scalar s (asum s)) as [s'| |] eqn:Hd; cbn; try discriminate.
  intros [= <-]. exists s. cbn. repeat split; try reflexivity; assumption.
Qed.

(** The loop, by the iterations it runs: it appends their records to
    the history; every one but the last failed the convergence test;
    it stops short of [n] only on an iteration that passed it; and the
    rows of [Js] from [iter] on are the rows of these iterations. *)
Lemma loop_spec n : forall iter st st',
  loop step syopt tol n iter st = Ok st' ->
  exists new,
    history st' = history st ++ new
    /\ chain step syopt (J st) (S_y st) new
    /\ (length new <= n)%nat
    /\ (forall i it, (S i < length new)%nat -> new !! i = Some it ->
          converged tol it = false)
    /\ ((length new < n)%nat ->
          exists it, last new = Some it /\ converged tol it = true)
    /\ Js st' = list_inserts iter (row <$> new) (Js st)
    /\ (new = [] -> st' = st)
    /\ (forall it, last new = Some it ->
          J st' = J_s it /\ S_y st' = it_S_y it
          /\ last_model st' = Some (fst (step (it_oS_y it)))).
Proof.
  induction n as [|n IH]; intros iter st st' Hl.
  - cbn in Hl. injection Hl as <-. exists []. rewrite app_nil_r.
    split; [reflexivity|]. split; [constructor|]. split; [cbn; lia|].
    split; [intros i it Hi; cbn in Hi; lia|]. split; [cbn; lia|].
    split; [reflexivity|]. split; [reflexivity|]. intros it Hlast; discriminate.
  - cbn [loop] in Hl.
    destruct (step (S_y st)) as [mdl sts] eqn:Hstep.
    destruct (weight_step sts syopt (J st) (S_y st)) as [it| |] eqn:Hw;
      cbn in Hl; try discriminate.
    pose proof (weight_step_inv _ _ _ _ Hw) as (s & _ & _ & Hsts & HoS & _).
    assert (Hch : forall its, chain step syopt (J_s it) (it_S_y it) its ->
                              chain step syopt (J st) (S_y st) (it :: its)).
    { intros its Hc. econstructor;
        [rewrite Hsts; exact Hstep | rewrite Hsts; exact Hw | exact Hc]. }
    destruct (converged tol it) eqn:Hc.
    + injection Hl as <-. exists [it]. cbn.
      split; [reflexivity|]. split; [apply Hch; constructor|]. split; [lia|].
      split; [intros i it' Hi; lia|]. split; [intros _; now exists it|].
      split; [reflexivity|]. split; [discriminate|].
      intros it' [= <-]. rewrite HoS, Hstep. eauto.
    + apply IH in Hl as (new & Hh & Hchain & Hlen & Hnc & Hlast & HJs & Hnil & Hfin).
      cbn in Hh, Hchain, HJs.
      exists (it :: new).
      split; [rewrite Hh, <- app_assoc; reflexivity|].
      split; [apply Hch, Hchain|]. split; [cbn; lia|].
      split.
      { intros [|i] it' Hi Hlk; cbn in Hi, Hlk.
        - now injection Hlk as <-.
        - apply (Hnc i); [lia | exact Hlk]. }
      split.
      { intros Hlt. cbn in Hlt.
        destruct Hlast as (it' & Hl' & Hc'); [lia|].
        exists it'. split; [|exact Hc'].
        destruct new; [discriminate|]. exact Hl'. }
      split.
      { rewrite HJs. cbn [fmap list_fmap list_inserts].
        symmetry. apply list_insert_inserts_lt. lia. }
      split; [discriminate|].
      intros it' Hl'. destruct new as [|it2 new].
      * cbn in Hl'. injection Hl' as <-. rewrite (Hnil eq_refl). cbn.
        rewrite HoS, Hstep. eauto.
      * apply Hfin. exact Hl'.
Qed.

(** Position [i] of a chain: the iteration ran the solver on the
    statistics of the CCA step for its own starting weights, which are
    the initial ones or those the iteration before produced. *)
Lemma chain_lookup its : forall J0 S0 i it,
  chain step syopt J0 S0 its ->
  its !! i = Some it ->
  exists oJ mdl,
    step (it_oS_y it) = (mdl, it_stats it)
    /\ weight_step (it_stats it) syopt oJ (it_oS_y it) = Ok it
    /\ match i with
       | O => oJ = J0 /\ it_oS_y it = S0
       | S j => exists prev, its !! j = Some prev
                  /\ oJ = J_s prev /\ it_oS_y it = it_S_y prev
       end.
Proof.
  induction its as [|it0 its IH]; intros J0 S0 i it Hc Hi; [discriminate|].
  inversion Hc as [|J1 S1 it1 its1 mdl Hstep Hw Hrest]; subst.
  pose proof (weight_step_inv _ _ _ _ Hw) as (s & _ & _ & _ & HoS & _).
  destruct i as [|i]; cbn in Hi.
  - injection Hi as <-. exists J0, mdl. rewrite HoS. eauto.
  - destruct (IH _ _ _ _ Hrest Hi) as (oJ & mdl' & Hs' & Hw' & Hprev).
    exists oJ, mdl'. split; [exact Hs'|]. split; [exact Hw'|].
    destruct i as [|i].
    + destruct Hprev as [-> ->]. exists it0. eauto.
    + destruct Hprev as (prev & Hp & HJ & HS). exists prev. eauto.
Qed.

End Loop.

Section Bounds.
Context `{LinAlg}.

Lemma div_by_sum_bound (s v : ndarray) :
  div_scalar s (asum s) = Ok v ->
  Forall (fun x => 0 <= x) (data s) ->
  Forall (fun x => 0 <= x) (data v) /\ asum v <= 1.
Proof.
  unfold div_scalar. destruct (Qeq_bool (asum s) 0) eqn:Hz.
  - destruct (data s) eqn:Hd; [|discriminate].
    intros [= <-] _. unfold asum. rewrite Hd, sumQ_nil. split; [now apply Forall_nil | lra].
  - intros [= <-] Hpos.
    assert (Hnz : ~ asum s == 0).
    { intros Hc. apply Qeq_bool_iff in Hc. congruence. }
    pose proof (sumQ_nonneg _ Hpos) as Hge. fold (asum s) in Hge.
    assert (Hs : 0 < asum s) by lra.
    split.
    + cbn. apply Forall_forall. intros x Hx.
      apply list_elem_of_fmap in Hx as (y & -> & Hy).
      rewrite Forall_forall in Hpos. specialize (Hpos y Hy).
      apply Qle_shift_div_l; lra.
    + unfold asum at 1. cbn.
      assert (He : sumQ (map (fun x => x / asum s) (data s)) == 1).
      { eapply Qeq_trans; [apply sumQ_map_div|]. fold (asum s). now field. }
      lra.
Qed.

Lemma nonneglsopt_nonneg C_xx C_yx C_yy s_y syopt s :
  Solver.nonneglsopt_default C_xx C_yx C_yy s_y syopt = Ok s ->
  Forall (fun x => 0 <= x) (data s_y) ->
  Forall (fun x => 0 <= x) (data s).
Proof.
  unfold Solver.nonneglsopt_default. intros Hs Hpos.
  destruct (all_zero C_yy) eqn:Hz.
  - unfold Solver.nonneglsopt in Hs. rewrite Hz in Hs. now injection Hs as <-.
  - apply (SolverFacts.nonneglsopt_solved _ _ _ _ _ _ _ _ _ _ Hz) in Hs as [Hs _].
    eapply Forall_impl; [exact Hs|]. intros x Hx. now apply Qlt_le_weak.
Qed.


Lemma sumQ_replicate_one (n : nat) : sumQ (replicate n 1) == inject_Z (Z.of_nat n).
Proof.
  induction n as [|n IH]; [reflexivity|].
  cbn [replicate]. rewrite sumQ_cons, IH, Nat2Z.inj_succ, <- Z.add_1_l, inject_Z_plus.
  reflexivity.
Qed.

(** The uniform seed: [nY] entries equal to [1/nY], non-negative, of
    sum 1 (of sum 0 when there is no output at all). *)
Lemma uniform_spec (nY : nat) :
  shape (uniform nY) = [nY]
  /\ length (data (uniform nY)) = nY
  /\ Forall (fun x => x == 1 / inject_Z (Z.of_nat nY)) (data (uniform nY))
  /\ Forall (fun x => 0 <= x) (data (uniform nY))
  /\ asum (uniform nY) <= 1.
Proof.
  unfold uniform, vec, amap. cbn.
  rewrite length_map, !length_replicate.
  split; [reflexivity|]. split; [reflexivity|].
  assert (Hn : 0 <= inject_Z (Z.of_nat nY)).
  { change 0 with (inject_Z 0). rewrite <- Zle_Qle. lia. }
  split; [|split].
  - apply Forall_forall. intros x Hx.
    apply list_elem_of_fmap in Hx as (y & -> & Hy).
    apply elem_of_replicate in Hy as [-> _]. reflexivity.
  - apply Forall_forall. intros x Hx.
    apply list_elem_of_fmap in Hx as (y & -> & Hy).
    apply elem_of_replicate in Hy as [-> _].
    unfold Qdiv. apply Qmult_le_0_compat; [lra|]. now apply Qinv_le_0_compat.
  - unfold asum. cbn [data]. destruct nY as [|n]; [cbn; rewrite sumQ_nil; lra|].
    assert (He : sumQ (map (fun x => x / inject_Z (Z.of_nat (S n))) (replicate (S n) 1)) == 1).
    { eapply Qeq_trans; [apply sumQ_map_div|]. rewrite sumQ_replicate_one.
      field. change 0 with (inject_Z 0). rewrite inject_Z_injective. lia. }
    lra.
Qed.

Lemma Qmax_either (x y : Q) : Qmax x y = x \/ Qmax x y = y.
Proof.
  unfold Qmax, GenericMinMax.gmax. destruct (x ?= y); auto.
Qed.

Lemma foldr_Qmax_spec (x : Q) (l : list Q) :
  foldr Qmax x l ∈ x :: l /\ (forall y, y ∈ x :: l -> y <= foldr Qmax x l).
Proof.
  induction l as [|z l [IHin IHle]]; cbn.
  - split; [apply elem_of_cons; now left|].
    intros y Hy. apply list_elem_of_singleton in Hy as ->. lra.
  - split.
    + destruct (Qmax_either z (foldr Qmax x l)) as [-> | ->].
      * apply elem_of_cons. right. apply elem_of_cons. now left.
      * apply elem_of_cons in IHin as [Hx | Hin].
        -- apply elem_of_cons. now left.
        -- apply elem_of_cons. right. apply elem_of_cons. now right.
    + intros y Hy.
      pose proof (Q.le_max_l z (foldr Qmax x l)).
      pose proof (Q.le_max_r z (foldr Qmax x l)).
      apply elem_of_cons in Hy as [-> | Hy].
      * assert (x <= foldr Qmax x l) by (apply IHle, elem_of_cons; now left). lra.
      * apply elem_of_cons in Hy as [-> | Hy]; [lra|].
        assert (y <= foldr Qmax x l) by (apply IHle, elem_of_cons; now right). lra.
Qed.

(** [np.max]: a value of the array that no other exceeds. *)
Lemma np_max_spec (a : ndarray) (mx : Q) :
  np_max a = Ok mx ->
  mx ∈ data a /\ (forall y, y ∈ data a -> y <= mx).
Proof.
  unfold np_max. destruct (data a) as [|x l]; [discriminate|].
  intros [= <-]. apply foldr_Qmax_spec.
Qed.

Lemma get_scale_rows (a v : ndarray) (k : nat) (rest : list nat) :
  Forall2 lt (k :: rest) (shape a) ->
  get (scale_rows a v) (k :: rest) = get a (k :: rest) * get v [k].
Proof.
  intros Hix. unfold scale_rows. now rewrite get_tabulate.
Qed.

End Bounds.
Section Run.
Context `{LinAlg}.
Variables (Cxx_dd Cyx_yetd Cyy_tyeye : ndarray) (seed : option ndarray) (p : params).

Lemma run_spec st :
  levelsCCA_cov_run Cxx_dd Cyx_yetd Cyy_tyeye seed p = Ok st ->
  chain (step_of Cxx_dd Cyx_yetd Cyy_tyeye p) (syopt p) J_init
    (seed_or_uniform (dim_last2 Cyy_tyeye) seed) (history st)
  /\ (length (history st) <= max_iter p)%nat
  /\ (forall i it, (S i < length (history st))%nat -> history st !! i = Some it ->
        converged (tol p) it = false)
  /\ ((length (history st) < max_iter p)%nat ->
        exists it, last (history st) = Some it /\ converged (tol p) it = true)
  /\ Js st = list_inserts 0 (row <$> history st) (replicate (max_iter p) None)
  /\ (history st = [] ->
        st = init_state (dim_last2 Cyy_tyeye) seed (max_iter p))
  /\ (forall it, last (history st) = Some it ->
        J st = J_s it /\ S_y st = it_S_y it
        /\ last_model st
           = Some (fst (step_of Cxx_dd Cyx_yetd Cyy_tyeye p (it_oS_y it)))).
Proof.
  unfold levelsCCA_cov_run. intros Hl.
  apply loop_spec in Hl as (new & Hh & Hc & Hlen & Hnc & Hlast & HJs & Hnil & Hfin).
  cbn in Hh, Hc, HJs. rewrite Hh. tauto.
Qed.

Lemma converged_false tol it :
  converged tol it = false <-> tol <= deltaS_y it /\ tol <= deltaJ it.
Proof.
  unfold converged. rewrite orb_false_iff, !Qlt_bool_false. reflexivity.
Qed.



(** C2, as amended.  Every row [(pre, post)] of the trace belongs to an
    iteration: both numbers are the same quadratic objective of that
    iteration's reduced statistics, which the CCA step computed from
    the weights the iteration started with; [pre] is taken at those
    weights, [post] at the new ones, the solver's output divided by its
    sum; and the starting weights are the initial ones or the new
    weights of the iteration before.  Nothing orders [post] and
    [pre]. *)
Theorem levelsCCA_cov_trace_rows st i pre post :
  levelsCCA_cov_run Cxx_dd Cyx_yetd Cyy_tyeye seed p = Ok st ->
  Js st !! i = Some (Some (pre, post)) ->
  exists it,
    history st !! i = Some it
    /\ pre = J_of (it_stats it) (it_oS_y it)
    /\ post = J_of (it_stats it) (it_S_y it)
    /\ (exists mdl,
          step_of Cxx_dd Cyx_yetd Cyy_tyeye p (it_oS_y it) = (mdl, it_stats it))
    /\ (exists s,
          Solver.nonneglsopt_default (wCxxw (it_stats it)) (rCyxw_y (it_stats it))
            (rCyyr_yy (it_stats it)) (it_oS_y it) (syopt p) = Ok s
          /\ div_scalar s (asum s) = Ok (it_S_y it))
    /\ match i with
       | O => it_oS_y it = seed_or_uniform (dim_last2 Cyy_tyeye) seed
       | S j => exists prev, history st !! j = Some prev
                  /\ it_oS_y it = it_S_y prev
       end.
Proof.
  intros Hrun Hrow. apply run_spec in Hrun as (Hc & Hlen & _ & _ & HJs & _ & _).
  rewrite HJs in Hrow.
  apply list_lookup_inserts_Some in Hrow as [[_ Hrep] | (Hi & _ & Hlk)].
  { apply lookup_replicate_1 in Hrep as [Hrep _]. discriminate. }
  rewrite Nat.sub_0_r, list_lookup_fmap in Hlk.
  destruct (history st !! i) as [it|] eqn:Hit; [|discriminate].
  cbn in Hlk. injection Hlk as <- <-.
  exists it. split; [reflexivity|].
  destruct (chain_lookup _ _ _ _ _ _ _ Hc Hit) as (oJ & mdl & Hstep & Hw & Hprev).
  apply weight_step_inv in Hw as (s & Hs & Hd & _ & _ & Hpre & Hpost & _).
  split; [exact Hpre|]. split; [exact Hpost|].
  split; [now exists mdl|]. split; [now exists s|].
  destruct i as [|j]; [tauto|].
  destruct Hprev as (prev & Hp & _ & HS). now exists prev.
Qed.

(** C6, as amended.  A run starts from the finite sentinel [J = 1e9]
    and from the caller's seed as it is, or, without a seed, from the
    vector of [nY] entries [1/nY] ([nY] the size of the last but one
    axis of [Cyy_tyeye]): these are the weights the first iteration
    starts with and the [J] its change is measured against, and they
    are the loop variables if no iteration runs. *)
Theorem levelsCCA_cov_initial_state st :
  levelsCCA_cov_run Cxx_dd Cyx_yetd Cyy_tyeye seed p = Ok st ->
  let nY := dim_last2 Cyy_tyeye in
  (forall it, head (history st) = Some it ->
     it_oS_y it = seed_or_uniform nY seed
     /\ deltaJ it = Qabs (J_s it - 1000000000))
  /\ (max_iter p = 0%nat ->
       J st = 1000000000 /\ S_y st = seed_or_uniform nY seed)
  /\ (forall s, seed = Some s -> seed_or_uniform nY seed = s)
  /\ (seed = None ->
       shape (seed_or_uniform nY seed) = [nY]
       /\ length (data (seed_or_uniform nY seed)) = nY
       /\ Forall (fun x => x == 1 / inject_Z (Z.of_nat nY))
            (data (seed_or_uniform nY seed))).
Proof.
  intros Hrun nY. apply run_spec in Hrun as (Hc & Hlen & _ & _ & _ & Hnil & _).
  split.
  { intros it Hhd. destruct (history st) as [|it0 rest] eqn:Hh; [discriminate|].
    injection Hhd as ->.
    destruct (chain_lookup _ _ _ _ _ 0%nat it Hc eq_refl) as (oJ & mdl & _ & Hw & -> & HoS).
    split; [exact HoS|].
    apply weight_step_inv in Hw as (_ & _ & _ & _ & _ & _ & _ & _ & HdJ).
    exact HdJ. }
  split.
  { intros Hmax. rewrite Hnil; [now cbn|].
    destruct (history st); [reflexivity | cbn in Hlen; lia]. }
  split; [now intros s ->|].
  intros ->. cbn. pose proof (uniform_spec nY). tauto.
Qed.

(** C8.  What [levelsCCA_cov] returns after the loop: [J] and [S_y]
    of the last iteration, and that iteration's filters and responses
    with slice [k] multiplied by [np.sqrt(w_k)], where [w_k] is
    [l_k / max(l)] when the largest retained singular value [max(l)] is
    positive, so that the largest component has [w = 1], and [w_k = 1]
    for every [k] when it is not (a zero maximum): then every slice is
    multiplied by [np.sqrt(1)] and nothing is divided by zero. *)
Theorem levelsCCA_cov_rescaled Jf W R S :
  levelsCCA_cov Cxx_dd Cyx_yetd Cyy_tyeye seed p = Ok (Jf, W, R, S) ->
  exists st it mx,
    levelsCCA_cov_run Cxx_dd Cyx_yetd Cyy_tyeye seed p = Ok st
    /\ last (history st) = Some it
    /\ Jf = J_s it /\ S = it_S_y it
    /\ let m := fst (step_of Cxx_dd Cyx_yetd Cyy_tyeye p (it_oS_y it)) in
       mx ∈ data (l_k m)
       /\ (forall l, l ∈ data (l_k m) -> l <= mx)
       /\ shape W = shape (W_kd m) /\ shape R = shape (R_ket m)
       /\ (forall k rest l, data (l_k m) !! k = Some l ->
            exists w,
              (0 < mx -> w = l / mx) /\ (mx <= 0 -> w = 1)
              /\ (Forall2 lt (k :: rest) (shape (W_kd m)) ->
                    get W (k :: rest) = get (W_kd m) (k :: rest) * np_sqrt w)
              /\ (Forall2 lt (k :: rest) (shape (R_ket m)) ->
                    get R (k :: rest) = get (R_ket m) (k :: rest) * np_sqrt w))
       /\ (0 < mx -> mx / mx == 1).
Proof.
  unfold levelsCCA_cov. intros Hret.
  destruct (levelsCCA_cov_run Cxx_dd Cyx_yetd Cyy_tyeye seed p) as [st| |] eqn:Hrun;
    cbn in Hret; try discriminate.
  pose proof (run_spec _ Hrun) as (_ & _ & _ & _ & _ & Hnil & Hfin).
  destruct (last (history st)) as [it|] eqn:Hlast.
  2:{ apply last_None in Hlast. rewrite (Hnil Hlast) in Hret. discriminate. }
  destruct (Hfin it eq_refl) as (HJ & HS & Hm).
  rewrite Hm in Hret. unfold rescale, relative_weights in Hret.
  set (m := fst (step_of Cxx_dd Cyx_yetd Cyy_tyeye p (it_oS_y it))) in *.
  destruct (np_max (l_k m)) as [mx| |] eqn:Hmx; cbn in Hret; try discriminate.
  injection Hret as <- <- <- <-.
  exists st, it, mx. split; [reflexivity|]. split; [exact Hlast|].
  split; [exact HJ|]. split; [exact HS|]. cbv zeta.
  destruct (np_max_spec _ _ Hmx) as [Hin Hle].
  split; [exact Hin|]. split; [exact Hle|].
  split; [reflexivity|]. split; [reflexivity|].
  split; [|intros Hpos; field; lra].
  intros k rest l Hk.
  assert (Hshape : exists n, shape (l_k m) = [n]).
  { pose proof (SelectFacts.step_of_retain Cxx_dd Cyx_yetd Cyy_tyeye p (it_oS_y it))
      as (Hl & _). fold m in Hl. rewrite Hl. unfold take_idx, vec. cbn. eauto. }
  destruct Hshape as [n Hn].
  exists (if Qlt_bool 0 mx then l / mx else 1).
  assert (Hget : forall nl : ndarray,
             shape nl = shape (l_k m) ->
             forall k, get (amap np_sqrt nl) [k] = nth k (map np_sqrt (data nl)) 0).
  { intros nl Hs j. unfold get, amap. cbn [shape data]. rewrite Hs, Hn. cbn.
    f_equal. lia. }
  split; [intros Hpos; apply Qlt_bool_iff in Hpos; now rewrite Hpos|].
  split; [intros Hle0; apply Qlt_bool_false in Hle0; now rewrite Hle0|].
  split; intros Hix; rewrite get_scale_rows by exact Hix; f_equal;
    destruct (Qlt_bool 0 mx); rewrite Hget by reflexivity; cbn [amap data];
    apply nth_lookup_Some; rewrite !list_lookup_fmap; fold m in Hk;
    rewrite Hk; reflexivity.
Qed.

End Run.
End CCAFacts.


(** ** The store: what a call leaves untouched *)

Module HeapFacts.
Import Heap.
#[local] Existing Instance M_ret.
#[local] Existing Instance M_bind.

Section Frame.
Context `{LinAlg}.
Variable h0 : gmap nat cell.

Lemma keeps_ret {A} (a : A) (Q : A -> Prop) : Q a -> keeps h0 Q (mret a).
Proof. intros HQ h r h' Hh [= <- <-]. split; [exact Hh|]. now intros a' [= <-]. Qed.

Lemma keeps_lift {A} (r : res A) : keeps h0 (fun _ => True) (lift r).
Proof. intros h r' h' Hh [= <- <-]. now split. Qed.

Lemma keeps_load (p : nat) : keeps h0 (fun _ => True) (load p).
Proof.
  intros h r h' Hh. unfold load.
  destruct (h !! p) as [[a|rows]|]; intros [= <- <-]; now split.
Qed.

(** A new object is none of the old ones. *)
Lemma keeps_alloc (c : cell) : keeps h0 (fun p => h0 !! p = None) (alloc c).
Proof.
  intros h r h' Hh. unfold alloc. intros [= <- <-].
  assert (Hfresh : h !! fresh (dom h) = None).
  { apply not_elem_of_dom, is_fresh. }
  assert (Hold : h0 !! fresh (dom h) = None).
  { eapply lookup_weaken_None; [exact Hfresh | exact Hh]. }
  split; [now apply insert_subseteq_r|]. now intros a [= <-].
Qed.

(** A write into an object that is none of the old ones. *)
Lemma keeps_write (p : nat) f :
  h0 !! p = None -> keeps h0 (fun _ => True) (write_rows p f).
Proof.
  intros Hp h r h' Hh. unfold write_rows.
  destruct (h !! p) as [[a|rows]|]; intros [= <- <-]; split; try easy.
  now apply insert_subseteq_r.
Qed.

Lemma keeps_bind {A B} (m : M A) (f : A -> M B) (Q : A -> Prop) (Q' : B -> Prop) :
  keeps h0 Q m ->
  (forall a, Q a -> keeps h0 Q' (f a)) ->
  keeps h0 Q' (m ≫= f).
Proof.
  intros Hm Hf h r h' Hh. unfold mbind, M_bind, bind.
  destruct (m h) as [[a|e|] h1] eqn:Hmh; intros Hr.
  - destruct (Hm _ _ _ Hh Hmh) as [Hh1 HQ].
    exact (Hf a (HQ a eq_refl) _ _ _ Hh1 Hr).
  - injection Hr as <- <-. split; [exact (proj1 (Hm _ _ _ Hh Hmh))|]. discriminate.
  - injection Hr as <- <-. split; [exact (proj1 (Hm _ _ _ Hh Hmh))|]. discriminate.
Qed.

Lemma keeps_weaken {A} (m : M A) (Q Q' : A -> Prop) :
  keeps h0 Q m -> (forall a, Q a -> Q' a) -> keeps h0 Q' m.
Proof.
  intros Hm HQ h r h' Hh Hr. destruct (Hm _ _ _ Hh Hr) as [Hh' Ha].
  split; [exact Hh'|]. intros a Hra. apply HQ, Ha, Hra.
Qed.

Lemma keeps_nonneglsopt C_xx C_yx C_yy s_y syopt max_iter tol ridge eps :
  keeps h0 (fun _ => True) (nonneglsopt C_xx C_yx C_yy s_y syopt max_iter tol ridge eps).
Proof.
  unfold nonneglsopt.
  eapply keeps_bind; [apply keeps_load|]. intros vC_yy _.
  destruct (all_zero vC_yy); [now apply keeps_ret|].
  eapply keeps_bind; [apply keeps_load|]. intros vC_yx _.
  eapply keeps_bind; [apply keeps_load|]. intros vs_y _.
  eapply keeps_bind; [apply keeps_alloc|]. intros copy _.
  eapply keeps_bind; [apply keeps_load|]. intros vcopy _.
  eapply keeps_bind; [apply keeps_alloc|]. intros C_yy' _.
  eapply keeps_bind; [apply keeps_load|]. intros vC_yy' _.
  eapply keeps_bind; [apply keeps_lift|]. intros r _.
  eapply keeps_weaken; [apply keeps_alloc|]. auto.
Qed.

Lemma keeps_loop step syopt tol Js n : forall iter J S_y last,
  h0 !! Js = None ->
  keeps h0 (fun _ => True) (loop step syopt tol n iter Js J S_y last).
Proof.
  induction n as [|n IH]; intros iter J S_y last HJs; cbn [loop].
  - now apply keeps_ret.
  - eapply keeps_bind; [apply keeps_load|]. intros voS_y _.
    destruct (step voS_y) as [mdl sts].
    eapply keeps_bind; [apply keeps_alloc|]. intros W_kd _.
    eapply keeps_bind; [apply keeps_alloc|]. intros R_ket _.
    eapply keeps_bind; [apply keeps_alloc|]. intros l_k _.
    eapply keeps_bind; [apply keeps_alloc|]. intros rCyxw_y _.
    eapply keeps_bind; [apply keeps_alloc|]. intros rCyyr_yy _.
    eapply keeps_bind; [apply keeps_nonneglsopt|]. intros S1 _.
    eapply keeps_bind; [apply keeps_load|]. intros vS1 _.
    eapply keeps_bind; [apply keeps_lift|]. intros vS2 _.
    eapply keeps_bind; [apply keeps_alloc|]. intros S2 _.
    eapply keeps_bind; [apply keeps_write, HJs|]. intros [] _.
    destruct (_ || _); [now apply keeps_ret | now apply IH].
Qed.

Lemma keeps_levelsCCA_cov Cxx_dd Cyx_yetd Cyy_tyeye seed p :
  keeps h0 (fun _ => True) (levelsCCA_cov Cxx_dd Cyx_yetd Cyy_tyeye seed p).
Proof.
  unfold levelsCCA_cov.
  eapply keeps_bind; [apply keeps_load|]. intros vCxx _.
  eapply keeps_bind; [apply keeps_load|]. intros vCyx _.
  eapply keeps_bind; [apply keeps_load|]. intros vCyy _.
  eapply keeps_bind; [apply keeps_alloc|]. intros Js HJs.
  eapply keeps_bind; [apply keeps_write, HJs|]. intros [] _.
  eapply keeps_bind with (Q := fun _ => True).
  { destruct seed; [now apply keeps_ret|].
    eapply keeps_weaken; [apply keeps_alloc|]. auto. }
  intros S_y _.
  eapply keeps_bind; [apply keeps_loop, HJs|]. intros [[J S] last] _.
  destruct last as [[[W_kd R_ket] l_k]|]; [|apply keeps_lift].
  eapply keeps_bind; [apply keeps_load|]. intros vW _.
  eapply keeps_bind; [apply keeps_load|]. intros vR _.
  eapply keeps_bind; [apply keeps_load|]. intros vl _.
  eapply keeps_bind; [apply keeps_lift|]. intros WR _.
  eapply keeps_bind; [apply keeps_alloc|]. intros W' _.
  eapply keeps_bind; [apply keeps_alloc|]. intros R' _.
  now apply keeps_ret.
Qed.

End Frame.

Section Unchanged.
Context `{LinAlg}.

(** C9.  Whatever objects the store holds when [levelsCCA_cov] is
    called, among them the three covariance arrays and the seed, each
    holds the same content when the call ends, with a result or with an
    error: the call allocates new arrays and writes only into the trace
    buffer it allocated itself.  The same holds of a call of
    [nonneglsopt]: the ridge goes into a new array, [C_yy] keeps its
    content. *)
Theorem inputs_unchanged :
  (forall Cxx_dd Cyx_yetd Cyy_tyeye seed p h r h',
     levelsCCA_cov Cxx_dd Cyx_yetd Cyy_tyeye seed p h = (r, h') ->
     forall q c, h !! q = Some c -> h' !! q = Some c)
  /\ (forall C_xx C_yx C_yy s_y syopt max_iter tol ridge eps h r h',
       nonneglsopt C_xx C_yx C_yy s_y syopt max_iter tol ridge eps h = (r, h') ->
       forall q c, h !! q = Some c -> h' !! q = Some c).
Proof.
  split.
  - intros Cxx_dd Cyx_yetd Cyy_tyeye seed p h r h' Hrun q c Hq.
    destruct (keeps_levelsCCA_cov h Cxx_dd Cyx_yetd Cyy_tyeye seed p h r h'
                (reflexivity h) Hrun) as [Hsub _].
    eapply lookup_weaken; [exact Hq | exact Hsub].
  - intros C_xx C_yx C_yy s_y syopt max_iter tol ridge eps h r h' Hrun q c Hq.
    destruct (keeps_nonneglsopt h C_xx C_yx C_yy s_y syopt max_iter tol ridge eps
                h r h' (reflexivity h) Hrun) as [Hsub _].
    eapply lookup_weaken; [exact Hq | exact Hsub].
Qed.

End Unchanged.

Section Refine.
Context `{LinAlg}.

Lemma load_eq (h : gmap nat cell) p a : h !! p = Some (Arr a) -> load p h = (Ok a, h).
Proof. intros Hp. unfold load. now rewrite Hp. Qed.

Lemma bind_ok {A B} (m : M A) (f : A -> M B) h a h1 :
  m h = (Ok a, h1) -> (m ≫= f) h = f a h1.
Proof. intros Hm. unfold mbind, M_bind, bind. now rewrite Hm. Qed.

Lemma alloc_old (h : gmap nat cell) c q v :
  h !! q = Some v -> <[fresh (dom h) := c]> h !! q = Some v.
Proof.
  intros Hq. rewrite lookup_insert_ne; [exact Hq|].
  intros <-. pose proof (is_fresh (dom h)) as Hf.
  apply not_elem_of_dom in Hf. congruence.
Qed.

Lemma alloc_sub (h : gmap nat cell) c : h ⊆ <[fresh (dom h) := c]> h.
Proof. apply insert_subseteq, not_elem_of_dom, is_fresh. Qed.

Lemma nonneglsopt_refines C_xx pCyx pCyy ps vCyx vCyy vs syopt mi tol ridge eps
    (h : gmap nat cell) :
  h !! pCyx = Some (Arr vCyx) -> h !! pCyy = Some (Arr vCyy) -> h !! ps = Some (Arr vs) ->
  exists h', h ⊆ h' /\
    match Solver.nonneglsopt C_xx vCyx vCyy vs syopt mi tol ridge eps with
    | Ok v => exists q, nonneglsopt C_xx pCyx pCyy ps syopt mi tol ridge eps h = (Ok q, h')
                        /\ h' !! q = Some (Arr v)
    | Raise e => nonneglsopt C_xx pCyx pCyy ps syopt mi tol ridge eps h = (Raise e, h')
    | NonFinite => nonneglsopt C_xx pCyx pCyy ps syopt mi tol ridge eps h = (NonFinite, h')
    end.
Proof.
  intros Hyx Hyy Hs. unfold nonneglsopt, Solver.nonneglsopt.
  rewrite (bind_ok _ _ _ _ _ (load_eq _ _ _ Hyy)).
  destruct (all_zero vCyy).
  { exists h. split; [reflexivity|]. exists ps. split; [reflexivity | exact Hs]. }
  rewrite (bind_ok _ _ _ _ _ (load_eq _ _ _ Hyx)).
  rewrite (bind_ok _ _ _ _ _ (load_eq _ _ _ Hs)).
  rewrite (bind_ok (alloc (Arr vCyy)) _ h _ _ eq_refl).
  set (h1 := <[fresh (dom h) := Arr vCyy]> h).
  rewrite (bind_ok _ _ h1 vCyy h1) by (apply load_eq, lookup_insert_eq).
  rewrite (bind_ok (alloc (Arr (Solver.add_ridge vCyy ridge))) _ h1 _ _ eq_refl).
  set (h2 := <[fresh (dom h1) := Arr (Solver.add_ridge vCyy ridge)]> h1).
  rewrite (bind_ok _ _ h2 (Solver.add_ridge vCyy ridge) h2)
    by (apply load_eq, lookup_insert_eq).
  assert (Hsub : h ⊆ h2) by (etransitivity; apply alloc_sub).
  destruct (Solver.solve _ _ _ _ _ _ _ _) as [v| |] eqn:Hsolve.
  - rewrite (bind_ok _ _ h2 v h2) by reflexivity.
    exists (<[fresh (dom h2) := Arr v]> h2). split.
    + etransitivity; [exact Hsub | apply alloc_sub].
    + eexists. split; [reflexivity | apply lookup_insert_eq].
  - exists h2. split; [exact Hsub|]. reflexivity.
  - exists h2. split; [exact Hsub|]. reflexivity.
Qed.


Lemma arrays_kept_sub (h h' : gmap nat cell) : h ⊆ h' -> arrays_kept h h'.
Proof. intros Hsub q a Hq. eapply lookup_weaken; eauto. Qed.

Lemma arrays_kept_trans (h1 h2 h3 : gmap nat cell) :
  arrays_kept h1 h2 -> arrays_kept h2 h3 -> arrays_kept h1 h3.
Proof. intros H12 H23 q a Hq. auto. Qed.

Lemma arrays_kept_write (h : gmap nat cell) p rows rows' :
  h !! p = Some (Trace rows) -> arrays_kept h (<[p := Trace rows']> h).
Proof.
  intros Hp q a Hq. rewrite lookup_insert_ne; [exact Hq|]. intros <-. congruence.
Qed.

Lemma write_rows_eq (h : gmap nat cell) p f rows :
  h !! p = Some (Trace rows) ->
  write_rows p f h = (Ok (), <[p := Trace (f rows)]> h).
Proof. intros Hp. unfold write_rows. now rewrite Hp. Qed.

Lemma loop_refines step syopt tol n : forall iter st pJs pS plast (h : gmap nat cell),
  h !! pS = Some (Arr (CCA.S_y st)) ->
  h !! pJs = Some (Trace (CCA.Js st)) ->
  model_at h plast (CCA.last_model st) ->
  exists h', arrays_kept h h' /\
    match CCA.loop step syopt tol n iter st with
    | Ok st' =>
        exists pS' plast',
          loop step syopt tol n iter pJs (CCA.J st) pS plast h
          = (Ok (CCA.J st', pS', plast'), h')
          /\ h' !! pS' = Some (Arr (CCA.S_y st'))
          /\ h' !! pJs = Some (Trace (CCA.Js st'))
          /\ model_at h' plast' (CCA.last_model st')
    | Raise e =>
        loop step syopt tol n iter pJs (CCA.J st) pS plast h = (Raise e, h')
    | NonFinite =>
        loop step syopt tol n iter pJs (CCA.J st) pS plast h = (NonFinite, h')
    end.
Proof.
  induction n as [|n IH]; intros iter st pJs pS plast h HS HJs Hm.
  { exists h. split; [intros q a Hq; exact Hq|]. cbn. eauto 10. }
  cbn [loop CCA.loop].
  rewrite (bind_ok _ _ _ _ _ (load_eq _ _ _ HS)).
  destruct (step (CCA.S_y st)) as [mdl sts].
  rewrite (bind_ok (alloc (Arr (CCA.W_kd mdl))) _ h _ _ eq_refl).
  set (pW := fresh (dom h)). set (h1 := <[pW := Arr (CCA.W_kd mdl)]> h).
  rewrite (bind_ok (alloc (Arr (CCA.R_ket mdl))) _ h1 _ _ eq_refl).
  set (pR := fresh (dom h1)). set (h2 := <[pR := Arr (CCA.R_ket mdl)]> h1).
  rewrite (bind_ok (alloc (Arr (CCA.l_k mdl))) _ h2 _ _ eq_refl).
  set (pl := fresh (dom h2)). set (h3 := <[pl := Arr (CCA.l_k mdl)]> h2).
  rewrite (bind_ok (alloc (Arr (CCA.rCyxw_y sts))) _ h3 _ _ eq_refl).
  set (pyx := fresh (dom h3)). set (h4 := <[pyx := Arr (CCA.rCyxw_y sts)]> h3).
  rewrite (bind_ok (alloc (Arr (CCA.rCyyr_yy sts))) _ h4 _ _ eq_refl).
  set (pyy := fresh (dom h4)). set (h5 := <[pyy := Arr (CCA.rCyyr_yy sts)]> h4).
  assert (H01 : h ⊆ h1) by apply alloc_sub.
  assert (H12 : h1 ⊆ h2) by apply alloc_sub.
  assert (H23 : h2 ⊆ h3) by apply alloc_sub.
  assert (H34 : h3 ⊆ h4) by apply alloc_sub.
  assert (H45 : h4 ⊆ h5) by apply alloc_sub.
  assert (H05 : h ⊆ h5) by (repeat (etransitivity; [eassumption|]); reflexivity).
  assert (HW5 : h5 !! pW = Some (Arr (CCA.W_kd mdl))).
  { eapply lookup_weaken; [apply lookup_insert_eq|].
    repeat (etransitivity; [eassumption|]); reflexivity. }
  assert (HR5 : h5 !! pR = Some (Arr (CCA.R_ket mdl))).
  { eapply lookup_weaken; [apply lookup_insert_eq|].
    repeat (etransitivity; [eassumption|]); reflexivity. }
  assert (Hl5 : h5 !! pl = Some (Arr (CCA.l_k mdl))).
  { eapply lookup_weaken; [apply lookup_insert_eq|].
    repeat (etransitivity; [eassumption|]); reflexivity. }
  assert (Hyx5 : h5 !! pyx = Some (Arr (CCA.rCyxw_y sts))).
  { eapply lookup_weaken; [apply lookup_insert_eq | exact H45]. }
  assert (Hyy5 : h5 !! pyy = Some (Arr (CCA.rCyyr_yy sts))) by apply lookup_insert_eq.
  assert (HS5 : h5 !! pS = Some (Arr (CCA.S_y st))).
  { eapply lookup_weaken; [exact HS | exact H05]. }
  destruct (nonneglsopt_refines (CCA.wCxxw sts) pyx pyy pS _ _ _ syopt
              30 (1 # 10000) (1 # 10000) (1 # 1000) h5 Hyx5 Hyy5 HS5)
    as (h6 & H56 & Hsolve).
  unfold CCA.weight_step, Solver.nonneglsopt_default.
  destruct (Solver.nonneglsopt _ _ _ _ _ _ _ _ _) as [v| |].
  2:{ exists h6. split; [apply arrays_kept_sub; etransitivity; eassumption|].
      cbn. unfold mbind, M_bind, bind. now rewrite Hsolve. }
  2:{ exists h6. split; [apply arrays_kept_sub; etransitivity; eassumption|].
      cbn. unfold mbind, M_bind, bind. now rewrite Hsolve. }
  destruct Hsolve as (q & Hq & Hqv).
  rewrite (bind_ok _ _ _ _ _ Hq).
  rewrite (bind_ok _ _ _ _ _ (load_eq _ _ _ Hqv)).
  assert (H06 : h ⊆ h6) by (etransitivity; eassumption).
  cbn [mbind res_bind].
  destruct (div_scalar v (asum v)) as [v2| |] eqn:Hdiv; cbn [mbind res_bind].
  2:{ exists h6. split; [now apply arrays_kept_sub|]. reflexivity. }
  2:{ exists h6. split; [now apply arrays_kept_sub|]. reflexivity. }
  rewrite (bind_ok (lift (Ok v2)) _ h6 v2 h6 eq_refl).
  rewrite (bind_ok (alloc (Arr v2)) _ h6 _ _ eq_refl).
  set (pS2 := fresh (dom h6)). set (h7 := <[pS2 := Arr v2]> h6).
  assert (H67 : h6 ⊆ h7) by apply alloc_sub.
  assert (H07 : h ⊆ h7) by (etransitivity; eassumption).
  assert (HJs7 : h7 !! pJs = Some (Trace (CCA.Js st))).
  { eapply lookup_weaken; [exact HJs | exact H07]. }
  rewrite (bind_ok _ _ _ _ _ (write_rows_eq _ _ _ _ HJs7)).
  set (it := {| CCA.it_stats := sts; CCA.it_oS_y := CCA.S_y st; CCA.it_S_y := v2;
                CCA.J_wr := CCA.J_of sts (CCA.S_y st); CCA.J_s := CCA.J_of sts v2;
                CCA.deltaS_y := asum (amap Qabs (asub v2 (CCA.S_y st)));
                CCA.deltaJ := Qabs (CCA.J_of sts v2 - CCA.J st) |}).
  set (h8 := <[pJs := Trace (<[iter := Some (CCA.J_of sts (CCA.S_y st), CCA.J_of sts v2)]>
                               (CCA.Js st))]> h7).
  assert (H78 : arrays_kept h7 h8) by (eapply arrays_kept_write; exact HJs7).
  assert (H08 : arrays_kept h h8).
  { eapply arrays_kept_trans; [apply arrays_kept_sub, H07 | exact H78]. }
  assert (H58 : arrays_kept h5 h8).
  { eapply arrays_kept_trans; [|exact H78].
    apply arrays_kept_sub. etransitivity; eassumption. }
  assert (HS8 : h8 !! pS2 = Some (Arr v2)) by (apply H78, lookup_insert_eq).
  assert (HJs8 : h8 !! pJs = Some (Trace (<[iter := CCA.row it]> (CCA.Js st))))
    by apply lookup_insert_eq.
  assert (Hm8 : model_at h8 (Some (pW, pR, pl)) (Some mdl)).
  { cbn. auto. }
  change (Qlt_bool (asum (amap Qabs (asub v2 (CCA.S_y st)))) tol
          || Qlt_bool (Qabs (CCA.J_of sts v2 - CCA.J st)) tol)
    with (CCA.converged tol it).
  destruct (CCA.converged tol it).
  { exists h8. split; [exact H08|]. eexists _, _. split; [reflexivity|]. cbn. auto. }
  set (st' := {| CCA.J := CCA.J_s it; CCA.S_y := CCA.it_S_y it;
                 CCA.last_model := Some mdl;
                 CCA.Js := <[iter := Some (CCA.J_wr it, CCA.J_s it)]> (CCA.Js st);
                 CCA.history := CCA.history st ++ [it] |}).
  destruct (IH (S iter) st' pJs pS2 (Some (pW, pR, pl)) h8 HS8 HJs8 Hm8)
    as (h9 & H89 & Hrest).
  exists h9. split; [eapply arrays_kept_trans; eassumption|].
  exact Hrest.
Qed.

Lemma map_None_replicate {A B} (n : nat) (x : A) :
  map (fun _ => @None B) (replicate n x) = replicate n None.
Proof. induction n as [|n IH]; cbn; [reflexivity | now rewrite IH]. Qed.

(** The store-passing [levelsCCA_cov] computes what the pure one does:
    the same outcome, and on success references to the same arrays. *)
Lemma levelsCCA_cov_refines pCxx pCyx pCyy pseed Cxx Cyx Cyy seed p
    (h : gmap nat cell) :
  h !! pCxx = Some (Arr Cxx) -> h !! pCyx = Some (Arr Cyx) ->
  h !! pCyy = Some (Arr Cyy) ->
  match pseed, seed with
  | Some q, Some s => h !! q = Some (Arr s)
  | None, None => True
  | _, _ => False
  end ->
  exists h', arrays_kept h h' /\
    match CCA.levelsCCA_cov Cxx Cyx Cyy seed p with
    | Ok (J, W, R, Sy) =>
        exists pW pR pS,
          levelsCCA_cov pCxx pCyx pCyy pseed p h = (Ok (J, pW, pR, pS), h')
          /\ h' !! pW = Some (Arr W) /\ h' !! pR = Some (Arr R)
          /\ h' !! pS = Some (Arr Sy)
    | Raise e => levelsCCA_cov pCxx pCyx pCyy pseed p h = (Raise e, h')
    | NonFinite => levelsCCA_cov pCxx pCyx pCyy pseed p h = (NonFinite, h')
    end.
Proof.
  intros Hxx Hyx Hyy Hseed.
  unfold levelsCCA_cov, CCA.levelsCCA_cov, CCA.levelsCCA_cov_run.
  rewrite (bind_ok _ _ _ _ _ (load_eq _ _ _ Hxx)).
  rewrite (bind_ok _ _ _ _ _ (load_eq _ _ _ Hyx)).
  rewrite (bind_ok _ _ _ _ _ (load_eq _ _ _ Hyy)).
  rewrite (bind_ok (alloc _) _ h _ _ eq_refl).
  set (pJs := fresh (dom h)).
  set (h1 := <[pJs := Trace (replicate (CCA.max_iter p) (Some (0, 0)))]> h).
  assert (HJs1 : h1 !! pJs = Some (Trace (replicate (CCA.max_iter p) (Some (0, 0)))))
    by apply lookup_insert_eq.
  rewrite (bind_ok _ _ _ _ _ (write_rows_eq _ _ _ _ HJs1)).
  rewrite map_None_replicate.
  set (h2 := <[pJs := Trace (replicate (CCA.max_iter p) None)]> h1).
  assert (H02 : arrays_kept h h2).
  { eapply arrays_kept_trans; [apply arrays_kept_sub, alloc_sub|].
    eapply arrays_kept_write. exact HJs1. }
  assert (HJs2 : h2 !! pJs = Some (Trace (replicate (CCA.max_iter p) None)))
    by apply lookup_insert_eq.
  set (st0 := CCA.init_state (dim_last2 Cyy) seed (CCA.max_iter p)).
  assert (Hstart : exists pS h3,
             (match pseed with
              | Some s => mret s
              | None => alloc (Arr (CCA.uniform (dim_last2 Cyy)))
              end) h2 = (Ok pS, h3)
             /\ arrays_kept h h3
             /\ h3 !! pS = Some (Arr (CCA.S_y st0))
             /\ h3 !! pJs = Some (Trace (CCA.Js st0))).
  { destruct pseed as [q|], seed as [s|]; try contradiction.
    - exists q, h2. split; [reflexivity|]. split; [exact H02|].
      split; [apply H02, Hseed | exact HJs2].
    - eexists _, _. split; [reflexivity|]. split.
      + eapply arrays_kept_trans; [exact H02 | apply arrays_kept_sub, alloc_sub].
      + split; [apply lookup_insert_eq|]. now apply alloc_old. }
  destruct Hstart as (pS & h3 & Hrun & H03 & HS3 & HJs3).
  rewrite (bind_ok _ _ _ _ _ Hrun).
  destruct (loop_refines (CCA.step_of Cxx Cyx Cyy p) (CCA.syopt p) (CCA.tol p)
              (CCA.max_iter p) 0 st0 pJs pS None h3 HS3 HJs3 I)
    as (h4 & H34 & Hloop).
  assert (H04 : arrays_kept h h4) by (eapply arrays_kept_trans; eassumption).
  change (CCA.J st0) with CCA.J_init in Hloop. fold st0.
  destruct (CCA.loop _ _ _ _ _ st0) as [st'| |]; cbn [mbind res_bind].
  2:{ exists h4. split; [exact H04|]. unfold mbind, M_bind, bind. now rewrite Hloop. }
  2:{ exists h4. split; [exact H04|]. unfold mbind, M_bind, bind. now rewrite Hloop. }
  destruct Hloop as (pS' & plast & Hloop & HS4 & _ & Hm4).
  rewrite (bind_ok _ _ _ _ _ Hloop).
  destruct (CCA.last_model st') as [m|], plast as [[[pW pR] pl]|]; try contradiction.
  2:{ exists h4. split; [exact H04|]. reflexivity. }
  destruct Hm4 as (HW & HR & Hl).
  rewrite (bind_ok _ _ _ _ _ (load_eq _ _ _ HW)).
  rewrite (bind_ok _ _ _ _ _ (load_eq _ _ _ HR)).
  rewrite (bind_ok _ _ _ _ _ (load_eq _ _ _ Hl)).
  replace {| CCA.W_kd := CCA.W_kd m; CCA.R_ket := CCA.R_ket m; CCA.l_k := CCA.l_k m |}
    with m by (now destruct m).
  destruct (CCA.rescale m) as [[W R]| |]; cbn [mbind res_bind fst snd].
  2:{ exists h4. split; [exact H04|]. reflexivity. }
  2:{ exists h4. split; [exact H04|]. reflexivity. }
  rewrite (bind_ok (lift (Ok (W, R))) _ h4 (W, R) h4 eq_refl). cbn [fst snd].
  rewrite (bind_ok (alloc (Arr W)) _ h4 _ _ eq_refl).
  set (h5 := <[fresh (dom h4) := Arr W]> h4).
  rewrite (bind_ok (alloc (Arr R)) _ h5 _ _ eq_refl).
  set (h6 := <[fresh (dom h5) := Arr R]> h5).
  assert (H45 : h4 ⊆ h5) by apply alloc_sub.
  assert (H56 : h5 ⊆ h6) by apply alloc_sub.
  exists h6. split.
  { eapply arrays_kept_trans; [exact H04|]. apply arrays_kept_sub.
    etransitivity; eassumption. }
  eexists _, _, _. split; [reflexivity|].
  split; [eapply lookup_weaken; [apply lookup_insert_eq | exact H56]|].
  split; [apply lookup_insert_eq|].
  eapply lookup_weaken; [exact HS4 | etransitivity; eassumption].
Qed.

End Refine.
End HeapFacts.

(** ** Concrete runs of the optimiser *)

Module CCARuns.
Import CCA CCAFacts SelectFacts Small Inputs.

Lemma run_one_checks :
  match levelsCCA_cov_run Cxx1 Cyx1 Cyy1 None p_one with
  | Ok st =>
      match Js st, history st with
      | [Some (pre, post)], [it] =>
          Qeq_bool pre (17 # 10)
          && Qeq_bool post (41016851180017 # 23104030400010)
          && Qlt_bool pre post
          && Qeq_bool (wCxxw (it_stats it)) 1
          && Qlt_bool (deltaJ it) 1000000000
      | _, _ => false
      end
  | _ => false
  end = true.
Proof. vm_compute. reflexivity. Qed.

(** C2, as stated, fails.  On the input [Cxx1, Cyx1, Cyy1] the single
    iteration starts from the weights (1/2, 1/2) with the objective
    [J_pre = 1.7]; the solver's renormalised output is about
    (0.664, 0.336), where the same objective is
    [J_post = 41016851180017/23104030400010], about 1.775. *)
Lemma levelsCCA_cov_objective_can_increase :
  exists st pre post,
    levelsCCA_cov_run Cxx1 Cyx1 Cyy1 None p_one = Ok st
    /\ Js st = [Some (pre, post)]
    /\ pre == 17 # 10
    /\ post == 41016851180017 # 23104030400010
    /\ pre < post.
Proof.
  pose proof run_one_checks as Hc.
  destruct (levelsCCA_cov_run Cxx1 Cyx1 Cyy1 None p_one) as [st| |]; try discriminate.
  destruct (Js st) as [|[[pre post]|] [|]] eqn:HJs; try discriminate.
  destruct (history st) as [|it [|]]; try discriminate.
  apply andb_prop in Hc as [Hc _]. apply andb_prop in Hc as [Hc _].
  apply andb_prop in Hc as [Hc H3]. apply andb_prop in Hc as [H1 H2].
  exists st, pre, post. split; [reflexivity|]. split; [exact HJs|].
  split; [now apply Qeq_bool_iff|]. split; [now apply Qeq_bool_iff|].
  now apply Qlt_bool_iff.
Qed.

Lemma levelsCCA_cov_trace_rows_witness :
  exists st pre post it,
    levelsCCA_cov_run Cxx1 Cyx1 Cyy1 None p_one = Ok st
    /\ Js st !! 0%nat = Some (Some (pre, post))
    /\ history st !! 0%nat = Some it
    /\ pre = J_of (it_stats it) (it_oS_y it)
    /\ post = J_of (it_stats it) (it_S_y it)
    /\ it_oS_y it = seed_or_uniform (dim_last2 Cyy1) None.
Proof.
  pose proof run_one_checks as Hc.
  remember (levelsCCA_cov_run Cxx1 Cyx1 Cyy1 None p_one) as r eqn:Hrun.
  destruct r as [st| |]; try discriminate Hc. symmetry in Hrun.
  destruct (Js st) as [|[[pre post]|] [|]] eqn:HJs; try discriminate Hc.
  assert (Hrow : Js st !! 0%nat = Some (Some (pre, post))) by (now rewrite HJs).
  destruct (levelsCCA_cov_trace_rows Cxx1 Cyx1 Cyy1 None p_one st 0 pre post Hrun Hrow)
    as (it & Hit & Hpre & Hpost & _ & _ & HoS).
  exists st, pre, post, it.
  split; [reflexivity|]. split; [exact Hrow|]. split; [exact Hit|].
  split; [exact Hpre|]. split; [exact Hpost|]. exact HoS.
Defined.



Lemma run_tol_ok : is_ok (levelsCCA_cov_run Cxx1 Cyx1 Cyy1 None p_tol) = true.
Proof. vm_compute. reflexivity. Qed.

Lemma ret_one_ok : is_ok (levelsCCA_cov Cxx1 Cyx1 Cyy1 None p_one) = true.
Proof. vm_compute. reflexivity. Qed.



(** C6, as stated, fails: the initial [J] is the number 1e9, which
    1e9 + 1 exceeds, and the change of [J] the first iteration measures
    against it is a number below 1e9. *)
Lemma levelsCCA_cov_initial_J_finite :
  ~ plus_infinity (J (init_state 2 None 100))
  /\ exists st it,
       levelsCCA_cov_run Cxx1 Cyx1 Cyy1 None p_one = Ok st
       /\ head (history st) = Some it
       /\ deltaJ it < 1000000000.
Proof.
  split.
  - intros Hinf. specialize (Hinf 1000000001).
    change (J (init_state 2 None 100)) with 1000000000 in Hinf.
    apply Qle_bool_iff in Hinf. discriminate Hinf.
  - pose proof run_one_checks as Hc.
    destruct (levelsCCA_cov_run Cxx1 Cyx1 Cyy1 None p_one) as [st| |];
      try discriminate Hc.
    destruct (Js st) as [|[[pre post]|] [|]]; try discriminate Hc.
    destruct (history st) as [|it [|]] eqn:Hh; try discriminate Hc.
    apply andb_prop in Hc as [_ HdJ].
    exists st, it. split; [reflexivity|]. split; [now rewrite Hh|].
    now apply Qlt_bool_iff.
Qed.

Lemma levelsCCA_cov_initial_state_witness :
  exists st,
    levelsCCA_cov_run Cxx1 Cyx1 Cyy1 None p_one = Ok st
    /\ (forall it, head (history st) = Some it ->
          it_oS_y it = seed_or_uniform 2 None
          /\ deltaJ it = Qabs (J_s it - 1000000000))
    /\ Forall (fun x => x == 1 / 2) (data (seed_or_uniform 2 None)).
Proof.
  pose proof run_one_checks as Hc.
  remember (levelsCCA_cov_run Cxx1 Cyx1 Cyy1 None p_one) as r eqn:Hrun.
  destruct r as [st| |]; try discriminate Hc. symmetry in Hrun.
  destruct (levelsCCA_cov_initial_state Cxx1 Cyx1 Cyy1 None p_one st Hrun)
    as (Hfirst & _ & _ & Hunif).
  exists st. split; [reflexivity|]. split; [exact Hfirst|].
  exact (proj2 (proj2 (Hunif eq_refl))).
Defined.

End CCARuns.

(** ** Concrete runs with two components *)

Module DiagRuns.
Import CCA CCAFacts SelectFacts Diag MoreInputs.

Lemma factors_check :
  shape (snd (svd_factors Cxx_I2 Cyx_d Cyy_d p_rank1 (uniform 1))) = [2; 2]%nat
  /\ dim_last (fst (fst (svd_factors Cxx_I2 Cyx_d Cyy_d p_rank1 (uniform 1)))) = 2%nat
  /\ length (data (snd (fst (svd_factors Cxx_I2 Cyx_d Cyy_d p_rank1 (uniform 1))))) = 2%nat
  /\ dim (robust_whitener Cxx_I2 0 (1 # 100000000) true) 1 = 2%nat.
Proof. repeat split; vm_compute; reflexivity. Qed.

(** Two singular values, 0.4 and 0.1, and [rank = 1]: one component is
    kept, that of the larger value, and the two entries of its filter
    are those of its row of [Vh], whitened. *)
Lemma levelsCCA_cov_retains_top_rank_witness :
  (1 <= rank p_rank1)%Z
  /\ length (data (snd (fst (svd_factors Cxx_I2 Cyx_d Cyy_d p_rank1 (uniform 1))))) = 2%nat
  /\ exists i,
       data (l_k (fst (step_of Cxx_I2 Cyx_d Cyy_d p_rank1 (uniform 1))))
       = [nth i (data (snd (fst (svd_factors Cxx_I2 Cyx_d Cyy_d p_rank1 (uniform 1))))) 0]
       /\ (forall j, (j < 2)%nat ->
             nth j (data (snd (fst (svd_factors Cxx_I2 Cyx_d Cyy_d p_rank1 (uniform 1))))) 0
             <= nth i (data (snd (fst (svd_factors Cxx_I2 Cyx_d Cyy_d p_rank1
                                         (uniform 1))))) 0)
       /\ dim (W_kd (fst (step_of Cxx_I2 Cyx_d Cyy_d p_rank1 (uniform 1)))) 0 = 1%nat
       /\ (forall f, (f < 2)%nat ->
             get (W_kd (fst (step_of Cxx_I2 Cyx_d Cyy_d p_rank1 (uniform 1)))) [0%nat; f]
             = big_sum 2 (fun d =>
                 get (snd (svd_factors Cxx_I2 Cyx_d Cyy_d p_rank1 (uniform 1))) [i; d]
                 * get (robust_whitener Cxx_I2 0 (1 # 100000000) true) [d; f]))
       /\ (forall f, (f < 2)%nat ->
             get (R_ket (fst (step_of Cxx_I2 Cyx_d Cyy_d p_rank1 (uniform 1))))
               [0%nat; f; 0%nat]
             = big_sum 2 (fun e => big_sum 1 (fun t =>
                 get (reshape (fst (fst (svd_factors Cxx_I2 Cyx_d Cyy_d p_rank1
                                           (uniform 1)))) [2; 1; 2]%nat) [e; t; i]
                 * get (fst (whitened_cross 0 (1 # 100000000)
                               (Cyy_tyeye_diag2full Cyy_d)
                               (whiten_Cyx Cyx_d
                                  (robust_whitener Cxx_I2 0 (1 # 100000000) true))
                               2 1 2 (uniform 1))) [e; t; f; 0%nat]))).
Proof.
  assert (Hr : (1 <= rank p_rank1)%Z) by (cbn; lia).
  destruct factors_check as (HVh & HU & Hs & Hisq).
  split; [exact Hr|]. split; [exact Hs|].
  destruct (levelsCCA_cov_retains_top_rank Cxx_I2 Cyx_d Cyy_d p_rank1 (uniform 1) Hr)
    as (idx & Hlen & _ & _ & Hl & _ & Htop & HWrow & HRrow & _ & HW & _).
  rewrite Hs in Hlen, HW. cbn in Hlen, HW.
  destruct idx as [|i [|i' rest]]; try discriminate Hlen.
  exists i. split; [exact Hl|]. split.
  { intros j Hj. destruct (decide (j = i)) as [-> | Hne]; [apply Qle_refl|].
    apply Htop; [now apply list_elem_of_singleton | now rewrite Hs |].
    intros Hin. now apply list_elem_of_singleton in Hin. }
  split; [exact HW|]. split.
  - intros f Hf. apply (HWrow 2%nat 2%nat 0%nat i f HVh eq_refl).
    change (fst (as_pair (reg p_rank1))) with 0.
    change (fst (as_pair (rcond p_rank1))) with (1 # 100000000).
    now rewrite Hisq.
  - intros f Hf. rewrite <- Hs at 1.
    apply (HRrow 0%nat i f 0%nat); [now rewrite HU, Hs | reflexivity | exact Hf | cbn; lia].
Defined.

Lemma rank2_check :
  match levelsCCA_cov_run Cxx_I2 Cyx_d Cyy_d None p_rank2 with
  | Ok st =>
      match last (history st) with
      | Some it =>
          let m := fst (step_of Cxx_I2 Cyx_d Cyy_d p_rank2 (it_oS_y it)) in
          shape (W_kd m) = [2; 2]%nat /\ shape (R_ket m) = [2; 2; 1]%nat
          /\ exists a b, data (l_k m) = [a; b]
               /\ 0 < b /\ b < a /\ b / a == 1 # 4 /\ np_sqrt (b / a) = 1 # 2
      | None => False
      end
  | _ => False
  end.
Proof.
  vm_compute. split; [reflexivity|]. split; [reflexivity|].
  eexists _, _. split; [reflexivity|]. repeat split; reflexivity.
Qed.

Lemma zero_max_check :
  match levelsCCA_cov_run Cxx_I2 Cyx_z Cyy_d None p_rank2 with
  | Ok st =>
      match last (history st) with
      | Some it =>
          let m := fst (step_of Cxx_I2 Cyx_z Cyy_d p_rank2 (it_oS_y it)) in
          shape (W_kd m) = [2; 2]%nat
          /\ exists a b, data (l_k m) = [a; b] /\ a <= 0 /\ b <= 0
      | None => False
      end
  | _ => False
  end.
Proof.
  vm_compute. split; [reflexivity|].
  eexists _, _. split; [reflexivity|]. split; discriminate.
Qed.

Lemma rank2_runs_ok :
  is_ok (levelsCCA_cov Cxx_I2 Cyx_d Cyy_d None p_rank2)
  && is_ok (levelsCCA_cov Cxx_I2 Cyx_z Cyy_d None p_rank2) = true.
Proof. vm_compute. reflexivity. Qed.

(** Two retained components with singular values 0.4 and 0.1: the
    second has relative weight 1/4, and its filter and response are
    the last iteration's times [np.sqrt(1/4) = 1/2].  Without any
    covariance between events and channels both singular values are 0:
    the weights are 1 and the filters are multiplied by
    [np.sqrt(1)]. *)
Lemma levelsCCA_cov_rescaled_witness :
  (exists Jf W R S m w,
     levelsCCA_cov Cxx_I2 Cyx_d Cyy_d None p_rank2 = Ok (Jf, W, R, S)
     /\ w == 1 # 4 /\ np_sqrt w = 1 # 2
     /\ (forall d, (d < 2)%nat ->
           get W [1%nat; d] = get (W_kd m) [1%nat; d] * np_sqrt w)
     /\ (forall e, (e < 2)%nat ->
           get R [1%nat; e; 0%nat] = get (R_ket m) [1%nat; e; 0%nat] * np_sqrt w))
  /\ (exists Jf W R S m mx,
       levelsCCA_cov Cxx_I2 Cyx_z Cyy_d None p_rank2 = Ok (Jf, W, R, S)
       /\ mx ∈ data (l_k m) /\ (forall l, l ∈ data (l_k m) -> l <= mx) /\ mx <= 0
       /\ (forall k d, (k < 2)%nat -> (d < 2)%nat ->
             get W [k; d] = get (W_kd m) [k; d] * np_sqrt 1)).
Proof.
  pose proof rank2_runs_ok as Hok. apply andb_prop in Hok as [Hok1 Hok2].
  split.
  - remember (levelsCCA_cov Cxx_I2 Cyx_d Cyy_d None p_rank2) as r eqn:Hret.
    destruct r as [[[[Jf W] R] S]| |]; try discriminate Hok1. symmetry in Hret.
    destruct (levelsCCA_cov_rescaled Cxx_I2 Cyx_d Cyy_d None p_rank2 Jf W R S Hret)
      as (st & it & mx & Hrun & Hlast & _ & _ & Hmx & Hle & _ & _ & Hrows & _).
    pose proof rank2_check as Hc. rewrite Hrun, Hlast in Hc. cbv zeta in Hc.
    destruct Hc as (HsW & HsR & a & b & Hd & Hb & Hba & Hq & Hsq).
    set (m := fst (step_of Cxx_I2 Cyx_d Cyy_d p_rank2 (it_oS_y it))) in *.
    rewrite Hd in Hmx, Hle.
    assert (Hmxa : mx = a).
    { apply elem_of_cons in Hmx as [-> | Hmx]; [reflexivity|].
      apply list_elem_of_singleton in Hmx as ->.
      assert (a <= b) by (apply Hle, elem_of_cons; now left). lra. }
    subst mx.
    assert (Hlk : data (l_k m) !! 1%nat = Some b) by (now rewrite Hd).
    exists Jf, W, R, S, m, (b / a).
    split; [reflexivity|]. split; [exact Hq|]. split; [exact Hsq|].
    split.
    + intros d Hd2. destruct (Hrows 1%nat [d] b Hlk) as (w & Hw & _ & HWk & _).
      rewrite (Hw ltac:(lra)) in HWk. apply HWk. rewrite HsW.
      constructor; [lia|]. constructor; [lia|]. constructor.
    + intros e He. destruct (Hrows 1%nat [e; 0%nat] b Hlk) as (w & Hw & _ & _ & HRk).
      rewrite (Hw ltac:(lra)) in HRk. apply HRk. rewrite HsR.
      constructor; [lia|]. constructor; [lia|]. constructor; [lia|]. constructor.
  - remember (levelsCCA_cov Cxx_I2 Cyx_z Cyy_d None p_rank2) as r eqn:Hret.
    destruct r as [[[[Jf W] R] S]| |]; try discriminate Hok2. symmetry in Hret.
    destruct (levelsCCA_cov_rescaled Cxx_I2 Cyx_z Cyy_d None p_rank2 Jf W R S Hret)
      as (st & it & mx & Hrun & Hlast & _ & _ & Hmx & Hle & _ & _ & Hrows & _).
    pose proof zero_max_check as Hc. rewrite Hrun, Hlast in Hc. cbv zeta in Hc.
    destruct Hc as (HsW & a & b & Hd & Ha & Hb).
    set (m := fst (step_of Cxx_I2 Cyx_z Cyy_d p_rank2 (it_oS_y it))) in *.
    assert (Hmx0 : mx <= 0).
    { rewrite Hd in Hmx. apply elem_of_cons in Hmx as [-> | Hmx]; [exact Ha|].
      now apply list_elem_of_singleton in Hmx as ->. }
    exists Jf, W, R, S, m, mx.
    split; [reflexivity|]. split; [exact Hmx|]. split; [exact Hle|].
    split; [exact Hmx0|].
    intros k d Hk Hd2.
    assert (Hlk : exists l, data (l_k m) !! k = Some l).
    { rewrite Hd. destruct k as [|[|k]]; [now exists a | now exists b | lia]. }
    destruct Hlk as (l & Hlk).
    destruct (Hrows k [d] l Hlk) as (w & _ & Hw & HWk & _).
    rewrite (Hw Hmx0) in HWk. apply HWk. rewrite HsW.
    constructor; [lia|]. constructor; [lia|]. constructor.
Defined.

End DiagRuns.

(** ** Concrete runs over the store *)

Module HeapRuns.
Import CCA Small Inputs Heap HeapFacts.

Lemma inputs_unchanged_witness :
  (exists r h',
     levelsCCA_cov 0 1 2 None p_one store1 = (r, h')
     /\ h' !! 0%nat = Some (Arr Cxx1)
     /\ h' !! 1%nat = Some (Arr Cyx1)
     /\ h' !! 2%nat = Some (Arr Cyy1))
  /\ (exists r h',
       nonneglsopt 1 0 1 2 None 30 (1 # 10000) (1 # 10000) (1 # 1000) store2 = (r, h')
       /\ h' !! 1%nat = Some (Arr (mk_nd [2; 2]%nat [2; 0; 0; 2]))).
Proof.
  destruct inputs_unchanged as [Hcca Hsolve].
  split.
  - remember (levelsCCA_cov 0 1 2 None p_one store1) as out eqn:Hrun.
    destruct out as [r h']. symmetry in Hrun.
    exists r, h'. split; [reflexivity|].
    pose proof (Hcca _ _ _ _ _ _ _ _ Hrun) as Hkeep.
    split; [|split]; apply Hkeep; reflexivity.
  - remember (nonneglsopt 1 0 1 2 None 30 (1 # 10000) (1 # 10000) (1 # 1000) store2)
      as out eqn:Hrun.
    destruct out as [r h']. symmetry in Hrun.
    exists r, h'. split; [reflexivity|].
    apply (Hsolve _ _ _ _ _ _ _ _ _ _ _ _ Hrun). reflexivity.
Defined.

End HeapRuns.

(** * Further properties *)

(** ** The weight solver, mode by mode *)

Module SolverModes.
Import Solver SolverFacts.
Section SolverModes.
Context `{LinAlg}.

(** With an update that does not look at the current weights, every
    pass of the loop computes the same vector: the loop returns what
    its first pass computes, whether the convergence test stops it or
    the iteration cap does. *)
Lemma solver_loop_constant syopt C_xx C_yx C_yy tol eps u n :
  (forall s, update syopt C_yx C_yy s = Ok u) ->
  forall s J, solver_loop (S n) syopt C_xx C_yx C_yy tol eps s J = project eps u.
Proof.
  intros Hu. induction n as [|n IH]; intros s J.
  - cbn [solver_loop]. rewrite Hu. cbn [mbind res_bind].
    destruct (project eps u) as [s1| |]; cbn [mbind res_bind]; try reflexivity.
    now destruct (Qlt_bool _ _).
  - change (solver_loop (S (S n)) syopt C_xx C_yx C_yy tol eps s J)
      with (let oJ := J in
            update syopt C_yx C_yy s ≫= fun s1 =>
            project eps s1 ≫= fun s2 =>
            let J2 := objective C_xx C_yx C_yy s2 in
            if Qlt_bool (Qabs (oJ - J2)) tol then Ok s2
            else solver_loop (S n) syopt C_xx C_yx C_yy tol eps s2 J2).
    cbv zeta. rewrite Hu. cbn [mbind res_bind].
    destruct (project eps u) as [s1| |] eqn:Hp; cbn [mbind res_bind]; try reflexivity.
    destruct (Qlt_bool _ _); [reflexivity|]. apply IH.
Qed.

Lemma project_positive eps s :
  0 < eps -> Forall (fun x => 0 <= x) (data s) ->
  exists v, project eps s = Ok v.
Proof.
  intros Heps Hpos. unfold project, div_scalar.
  destruct (Qeq_bool _ 0) eqn:Hz; [|eauto].
  destruct (data (ashift eps s)) as [|x l] eqn:Hd; [eauto|].
  exfalso. apply Qeq_bool_iff in Hz.
  assert (Hs : 0 < asum (ashift eps s)).
  { unfold asum. apply sumQ_pos; [now rewrite Hd|].
    unfold ashift, amap. cbn [data]. apply Forall_forall. intros y Hy.
    apply list_elem_of_fmap in Hy as (z & -> & Hz').
    rewrite Forall_forall in Hpos. specialize (Hpos z Hz'). lra. }
  lra.
Qed.

(** In the mode 'lspos' with a positive [eps] no division is by zero:
    the solver returns its input on an all-zero [C_yy], and a positive
    vector of sum 1 otherwise. *)
Lemma nonneglsopt_lspos_ok C_xx C_yx C_yy s_y max_iter tol ridge eps :
  0 < eps ->
  exists v,
    nonneglsopt C_xx C_yx C_yy s_y (Some "lspos"%string) max_iter tol ridge eps = Ok v
    /\ (all_zero C_yy = true -> v = s_y)
    /\ (all_zero C_yy = false ->
        Forall (fun x => 0 < x) (data v) /\ (data v <> [] -> asum v == 1)).
Proof.
  intros Heps. unfold nonneglsopt, solve.
  destruct (all_zero C_yy); [exists s_y; repeat split; congruence|].
  cbn [from_option id].
  assert (Hend : forall s, exists v,
             clamp_normalise s = Ok v
             /\ Forall (fun x => 0 < x) (data v) /\ (data v <> [] -> asum v == 1)).
  { intros s. destruct (clamp_normalise_ok s) as (v & Hv & _ & _ & Hpos & Hsum).
    now exists v. }
  destruct max_iter as [|n].
  - cbn [solver_loop mbind res_bind].
    destruct (Hend s_y) as (v & Hv & Hpos & Hsum). exists v.
    repeat split; try assumption; congruence.
  - rewrite (solver_loop_constant "lspos" _ _ _ _ _
               (amap (fun x => Qmax x 0) (matvec (np_pinv (add_ridge C_yy ridge)) C_yx)))
      by reflexivity.
    destruct (project_positive eps
                (amap (fun x => Qmax x 0) (matvec (np_pinv (add_ridge C_yy ridge)) C_yx))
                Heps) as (s1 & Hs1).
    { unfold amap. cbn [data]. apply Forall_forall. intros x Hx.
      apply list_elem_of_fmap in Hx as (y & -> & _). apply Q.le_max_r. }
    rewrite Hs1. cbn [mbind res_bind].
    destruct (Hend s1) as (v & Hv & Hpos & Hsum). exists v.
    repeat split; try assumption; congruence.
Qed.

(** X1.  The end of the solver, when [C_yy] has a non-zero entry.
    [Ok] is the outcome of a call in which no division was by zero;
    numpy does not stop at a division by zero, it goes on and returns a
    vector with inf or nan entries, and of such a vector nothing is
    said here.  Whenever the loop leaves a vector [s] (so: finite), in
    any mode and with any iteration cap, tolerance, ridge and epsilon,
    the clamp at 1e-6 and the renormalisation after the loop divide by
    no zero, and the solver returns a vector as long as [s] whose
    entries are strictly positive and sum to 1 (an empty vector
    apart); and in the mode 'lspos' with [eps > 0] it returns such a
    vector on every input. *)
Theorem nonneglsopt_result_positive_sum_one
    C_xx C_yx C_yy s_y syopt max_iter tol ridge eps :
  ~ Forall (fun x => x == 0) (data C_yy) ->
  let C := add_ridge C_yy ridge in
  let mode := default "negridge"%string syopt in
  (forall s,
     solver_loop max_iter mode C_xx C_yx C tol eps s_y (objective C_xx C_yx C s_y) = Ok s ->
     exists v,
       nonneglsopt C_xx C_yx C_yy s_y syopt max_iter tol ridge eps = Ok v
       /\ length (data v) = length (data s)
       /\ Forall (fun x => 0 < x) (data v) /\ (data v <> [] -> asum v == 1))
  /\ (syopt = Some "lspos"%string -> 0 < eps ->
      exists v,
        nonneglsopt C_xx C_yx C_yy s_y syopt max_iter tol ridge eps = Ok v
        /\ Forall (fun x => 0 < x) (data v) /\ (data v <> [] -> asum v == 1)).
Proof.
  intros Hnz C mode.
  assert (Hz : all_zero C_yy = false).
  { destruct (all_zero C_yy) eqn:Hz; [|reflexivity].
    exfalso. now apply Hnz, all_zero_spec. }
  split.
  - intros s Hloop. unfold nonneglsopt, solve. rewrite Hz. cbv zeta.
    fold C. fold mode. rewrite Hloop. cbn [mbind res_bind].
    destruct (clamp_normalise_ok s) as (v & Hv & _ & Hlen & Hpos & Hsum).
    exists v. auto.
  - intros -> Heps.
    destruct (nonneglsopt_lspos_ok C_xx C_yx C_yy s_y max_iter tol ridge eps Heps)
      as (v & Hv & _ & Hpos).
    exists v. split; [exact Hv | exact (Hpos Hz)].
Qed.

(** X2.  In the modes 'ls' and 'lspos', on a [C_yy] with a non-zero
    entry and with at least one iteration allowed, the result is the
    least-squares solution [pinv(C_yy + ridge*I) @ C_yx] (with its
    negative entries set to 0 for 'lspos'), shifted by [eps],
    renormalised, clamped and renormalised again.  It depends neither
    on the initial weights [s_y], nor on [C_xx], nor on the tolerance,
    nor on how many iterations are allowed. *)
Theorem nonneglsopt_ls_closed_form
    C_xx C_yx C_yy s_y (syopt : string) n tol ridge eps :
  syopt = "ls"%string \/ syopt = "lspos"%string ->
  ~ Forall (fun x => x == 0) (data C_yy) ->
  nonneglsopt C_xx C_yx C_yy s_y (Some syopt) (S n) tol ridge eps
  = (let u := matvec (np_pinv (add_ridge C_yy ridge)) C_yx in
     project eps (if String.eqb syopt "lspos" then amap (fun x => Qmax x 0) u else u)
     ≫= clamp_normalise).
Proof.
  intros Hm Hnz. unfold nonneglsopt, solve.
  destruct (all_zero C_yy) eqn:Hz; [exfalso; now apply Hnz, all_zero_spec|].
  cbn [from_option id]. cbv zeta.
  destruct Hm as [-> | ->].
  - rewrite (solver_loop_constant "ls" _ _ _ _ _
               (matvec (np_pinv (add_ridge C_yy ridge)) C_yx)); reflexivity.
  - rewrite (solver_loop_constant "lspos" _ _ _ _ _
               (amap (fun x => Qmax x 0) (matvec (np_pinv (add_ridge C_yy ridge)) C_yx)));
      reflexivity.
Qed.

(** X3.  In the mode 'lspos' with a positive [eps] the solver always
    returns a vector: it raises nothing and divides by no zero, on any
    input and with any iteration cap. *)
Theorem nonneglsopt_lspos_always_returns
    C_xx C_yx C_yy s_y max_iter tol ridge eps :
  0 < eps ->
  exists v,
    nonneglsopt C_xx C_yx C_yy s_y (Some "lspos"%string) max_iter tol ridge eps = Ok v.
Proof.
  intros Heps. unfold nonneglsopt, solve.
  destruct (all_zero C_yy); [eauto|].
  cbn [from_option id].
  destruct max_iter as [|n].
  - cbn [solver_loop mbind res_bind].
    destruct (clamp_normalise_ok s_y) as (v & Hv & _). eauto.
  - rewrite (solver_loop_constant "lspos" _ _ _ _ _
               (amap (fun x => Qmax x 0) (matvec (np_pinv (add_ridge C_yy ridge)) C_yx)))
      by reflexivity.
    destruct (project_positive eps
                (amap (fun x => Qmax x 0) (matvec (np_pinv (add_ridge C_yy ridge)) C_yx))
                Heps) as (s1 & Hs1).
    { unfold amap. cbn [data]. apply Forall_forall. intros x Hx.
      apply list_elem_of_fmap in Hx as (y & -> & _). apply Q.le_max_r. }
    rewrite Hs1. cbn [mbind res_bind].
    destruct (clamp_normalise_ok s1) as (v & Hv & _). eauto.
Qed.


Lemma update_raise syopt C_yx C_yy s e :
  update syopt C_yx C_yy s = Raise e ->
  (e = NameError "eta" /\ (syopt = "expgrad" \/ syopt = "gd")%string)
  \/ (e = ValueError ("unknown optimization type: " +:+ syopt)
      /\ supported syopt = false).
Proof.
  unfold update, supported, supported_modes. cbn [existsb].
  destruct (String.eqb syopt "ls") eqn:E1; [discriminate|].
  destruct (String.eqb syopt "lspos") eqn:E2; [discriminate|].
  destruct (String.eqb syopt "expgrad") eqn:E3.
  { apply String.eqb_eq in E3. intros [= <-]. left. auto. }
  destruct (String.eqb syopt "gd") eqn:E4.
  { apply String.eqb_eq in E4. intros [= <-]. left. auto. }
  destruct (String.eqb syopt "mu") eqn:E5.
  { unfold div_elem. now destruct (existsb _ _). }
  destruct (String.eqb syopt "irwls") eqn:E6.
  { cbn. unfold amean. now destruct (data _). }
  destruct (String.eqb syopt "negridge") eqn:E7.
  { cbn. unfold amean. now destruct (data _). }
  cbn. intros [= <-]. right. auto.
Qed.

Lemma div_scalar_no_raise a d e : div_scalar a d <> Raise e.
Proof. unfold div_scalar. destruct (Qeq_bool d 0); [destruct (data a)|]; discriminate. Qed.

Lemma solver_loop_raise n syopt C_xx C_yx C_yy tol eps e : forall s J,
  solver_loop n syopt C_xx C_yx C_yy tol eps s J = Raise e ->
  exists s', update syopt C_yx C_yy s' = Raise e.
Proof.
  induction n as [|n IH]; intros s J; [discriminate|].
  cbn [solver_loop].
  destruct (update syopt C_yx C_yy s) as [s1| |] eqn:Hu; cbn [mbind res_bind];
    [|intros [= <-]; eauto|discriminate].
  unfold project.
  destruct (div_scalar _ _) as [s2| |] eqn:Hd; cbn [mbind res_bind];
    [|intros [= ->]; now apply div_scalar_no_raise in Hd|discriminate].
  destruct (Qlt_bool _ _); [discriminate|]. apply IH.
Qed.

(** An exception that ends the solver was raised by the dispatch on
    the mode, past the guard and in an iteration. *)
Lemma nonneglsopt_raise_update
    C_xx C_yx C_yy s_y syopt max_iter tol ridge eps e :
  nonneglsopt C_xx C_yx C_yy s_y syopt max_iter tol ridge eps = Raise e ->
  all_zero C_yy = false /\ max_iter <> 0%nat
  /\ exists s', update (default "negridge"%string syopt) C_yx (add_ridge C_yy ridge) s'
                = Raise e.
Proof.
  unfold nonneglsopt, solve. intros Hr.
  destruct (all_zero C_yy) eqn:Hz; [discriminate|].
  destruct (solver_loop _ _ _ _ _ _ _ _ _) as [s| |] eqn:Hl; cbn [mbind res_bind] in Hr;
    [|injection Hr as ->|discriminate].
  { unfold clamp_normalise in Hr. now apply div_scalar_no_raise in Hr. }
  split; [reflexivity|]. split; [intros ->; discriminate|].
  now apply solver_loop_raise in Hl.
Qed.

(** X4.  The solver raises only two errors, each in its own modes and
    only past the guard on an all-zero [C_yy] and with an iteration
    allowed: NameError on [eta], in the modes 'expgrad' and 'gd', and
    ValueError, on a mode string that is none of the seven supported
    ones.  The modes 'ls', 'lspos', 'mu', 'irwls', 'negridge' and the
    default never raise. *)
Theorem nonneglsopt_raises_only
    C_xx C_yx C_yy s_y syopt max_iter tol ridge eps e :
  nonneglsopt C_xx C_yx C_yy s_y syopt max_iter tol ridge eps = Raise e ->
  exists m, syopt = Some m
    /\ ~ Forall (fun x => x == 0) (data C_yy)
    /\ max_iter <> 0%nat
    /\ ((e = NameError "eta" /\ (m = "expgrad" \/ m = "gd")%string)
        \/ (e = ValueError ("unknown optimization type: " +:+ m)
            /\ supported m = false)).
Proof.
  intros Hr. apply nonneglsopt_raise_update in Hr as (Hz & Hn & s' & Hu).
  assert (Hnz : ~ Forall (fun x => x == 0) (data C_yy)).
  { intros Hc. apply all_zero_spec in Hc. congruence. }
  apply update_raise in Hu.
  destruct syopt as [m|]; cbn [default from_option id] in Hu.
  - exists m. auto.
  - exfalso. destruct Hu as [(_ & [Hc|Hc]) | (_ & Hc)]; discriminate.
Qed.

(** X5.  The modes 'irwls' and 'negridge' and the default (no mode)
    are one and the same solver. *)
Theorem nonneglsopt_irwls_negridge_default
    C_xx C_yx C_yy s_y max_iter tol ridge eps :
  nonneglsopt C_xx C_yx C_yy s_y (Some "irwls"%string) max_iter tol ridge eps
  = nonneglsopt C_xx C_yx C_yy s_y None max_iter tol ridge eps
  /\ nonneglsopt C_xx C_yx C_yy s_y (Some "negridge"%string) max_iter tol ridge eps
     = nonneglsopt C_xx C_yx C_yy s_y None max_iter tol ridge eps.
Proof.
  split; [|reflexivity].
  unfold nonneglsopt, solve. destruct (all_zero C_yy); [reflexivity|].
  cbn [default from_option id]. f_equal.
  generalize (objective C_xx C_yx (add_ridge C_yy ridge) s_y). revert s_y.
  induction max_iter as [|n IH]; intros s J; [reflexivity|].
  cbn [solver_loop].
  change (update "irwls" C_yx (add_ridge C_yy ridge) s)
    with (update "negridge" C_yx (add_ridge C_yy ridge) s).
  destruct (update "negridge" _ _ s) as [s1| |]; cbn [mbind res_bind]; try reflexivity.
  destruct (project eps s1) as [s2| |]; cbn [mbind res_bind]; try reflexivity.
  destruct (Qlt_bool _ _); [reflexivity|]. apply IH.
Qed.

End SolverModes.
End SolverModes.

Module SolverModesRuns.
Import Solver SolverFacts Small SolverModes.

Lemma solver_loop_check :
  match solver_loop 30 "negridge" 1 (vec [1 # 5; 1 # 10])
          (add_ridge (mk_nd [2; 2]%nat [2; 0; 0; 2]) (1 # 10000)) (1 # 10000) (1 # 1000)
          (vec [1 # 2; 1 # 2])
          (objective 1 (vec [1 # 5; 1 # 10])
             (add_ridge (mk_nd [2; 2]%nat [2; 0; 0; 2]) (1 # 10000))
             (vec [1 # 2; 1 # 2]))
  with
  | Ok s => Nat.eqb (length (data s)) 2
  | _ => false
  end = true.
Proof. vm_compute. reflexivity. Qed.

Lemma nonneglsopt_result_positive_sum_one_witness :
  exists v,
    nonneglsopt 1 (vec [1 # 5; 1 # 10]) (mk_nd [2; 2]%nat [2; 0; 0; 2])
      (vec [1 # 2; 1 # 2]) None 30 (1 # 10000) (1 # 10000) (1 # 1000) = Ok v
    /\ length (data v) = 2%nat
    /\ Forall (fun x => 0 < x) (data v) /\ (data v <> [] -> asum v == 1).
Proof.
  destruct (nonneglsopt_result_positive_sum_one 1 (vec [1 # 5; 1 # 10])
              (mk_nd [2; 2]%nat [2; 0; 0; 2]) (vec [1 # 2; 1 # 2]) None 30
              (1 # 10000) (1 # 10000) (1 # 1000)) as (Hend & _).
  { intros Hz. inversion Hz as [|x l Hx _]. discriminate Hx. }
  cbv zeta in Hend. cbn [default from_option id] in Hend.
  pose proof solver_loop_check as Hok.
  remember (solver_loop 30 "negridge" 1 (vec [1 # 5; 1 # 10])
              (add_ridge (mk_nd [2; 2]%nat [2; 0; 0; 2]) (1 # 10000)) (1 # 10000)
              (1 # 1000) (vec [1 # 2; 1 # 2])
              (objective 1 (vec [1 # 5; 1 # 10])
                 (add_ridge (mk_nd [2; 2]%nat [2; 0; 0; 2]) (1 # 10000))
                 (vec [1 # 2; 1 # 2]))) as r eqn:Hloop.
  destruct r as [s| |]; try discriminate Hok.
  destruct (Hend s eq_refl) as (v & Hv & Hlen & Hpos & Hsum).
  assert (Hs : length (data s) = 2%nat) by (now apply Nat.eqb_eq).
  exists v. split; [exact Hv|]. split; [now rewrite Hlen|]. now split.
Defined.

Lemma nonneglsopt_ls_closed_form_witness :
  nonneglsopt 1 (vec [1 # 5; 1 # 10]) (mk_nd [2; 2]%nat [2; 0; 0; 2])
    (vec [1 # 2; 1 # 2]) (Some "ls"%string) 30 (1 # 10000) (1 # 10000) (1 # 1000)
  = (project (1 # 1000)
       (matvec (np_pinv (add_ridge (mk_nd [2; 2]%nat [2; 0; 0; 2]) (1 # 10000)))
          (vec [1 # 5; 1 # 10]))
     ≫= clamp_normalise).
Proof.
  apply (nonneglsopt_ls_closed_form 1 (vec [1 # 5; 1 # 10])
           (mk_nd [2; 2]%nat [2; 0; 0; 2]) (vec [1 # 2; 1 # 2]) "ls" 29
           (1 # 10000) (1 # 10000) (1 # 1000)).
  - left. reflexivity.
  - intros Hz. inversion Hz as [|x l Hx _]. discriminate Hx.
Defined.

Lemma nonneglsopt_lspos_always_returns_witness :
  exists v,
    nonneglsopt 1 (vec [1 # 5; -1 # 10]) (mk_nd [2; 2]%nat [2; 0; 0; 2])
      (vec [1 # 2; 1 # 2]) (Some "lspos"%string) 30 (1 # 10000) (1 # 10000) (1 # 1000)
    = Ok v.
Proof.
  apply (nonneglsopt_lspos_always_returns 1 (vec [1 # 5; -1 # 10])
           (mk_nd [2; 2]%nat [2; 0; 0; 2]) (vec [1 # 2; 1 # 2]) 30
           (1 # 10000) (1 # 10000) (1 # 1000)).
  reflexivity.
Defined.

Lemma nonneglsopt_raises_only_witness :
  exists m, Some "newton"%string = Some m
    /\ ~ Forall (fun x => x == 0) (data (mk_nd [2; 2]%nat [2; 0; 0; 2]))
    /\ 30%nat <> 0%nat
    /\ ((ValueError "unknown optimization type: newton" = NameError "eta"
         /\ (m = "expgrad" \/ m = "gd")%string)
        \/ (ValueError "unknown optimization type: newton"
            = ValueError ("unknown optimization type: " +:+ m)
            /\ supported m = false)).
Proof.
  apply (nonneglsopt_raises_only 1 (vec [1 # 5; 1 # 10])
           (mk_nd [2; 2]%nat [2; 0; 0; 2]) (vec [1 # 2; 1 # 2]) (Some "newton"%string)
           30 (1 # 10000) (1 # 10000) (1 # 1000)).
  vm_compute. reflexivity.
Defined.

End SolverModesRuns.

(** ** Runs of the optimiser: weights, trace, iteration count *)

Module RunFacts.
Import CCA CCAFacts.

Section Weights.
Context `{LinAlg}.

Lemma div_by_sum_one (s v : ndarray) :
  div_scalar s (asum s) = Ok v -> data v <> [] -> asum v == 1.
Proof.
  unfold div_scalar. destruct (Qeq_bool (asum s) 0) eqn:Hz.
  - destruct (data s) eqn:Hd; [|discriminate]. intros [= <-] Hne. congruence.
  - intros [= <-] _.
    assert (Hnz : ~ asum s == 0).
    { intros Hc. apply Qeq_bool_iff in Hc. congruence. }
    unfold asum at 1. cbn. eapply Qeq_trans; [apply sumQ_map_div|].
    fold (asum s). now field.
Qed.

(** Along a run, every iteration leaves weights that sum to 1, and
    non-negative ones if it started from non-negative ones. *)
Lemma chain_weights step syopt its : forall J0 S0,
  chain step syopt J0 S0 its ->
  Forall (fun it => data (it_S_y it) <> [] -> asum (it_S_y it) == 1) its
  /\ (Forall (fun x => 0 <= x) (data S0) ->
      Forall (fun it => Forall (fun x => 0 <= x) (data (it_S_y it))) its).
Proof.
  induction its as [|it its IH]; intros J0 S0 Hc.
  - split; [constructor | intros _; constructor].
  - inversion Hc as [|J1 S1 it1 its1 mdl Hstep Hw Hrest]; subst.
    apply weight_step_inv in Hw as (s & Hs & Hd & _).
    destruct (IH _ _ Hrest) as [IH1 IH2].
    split.
    + constructor; [|exact IH1]. now apply (div_by_sum_one s).
    + intros Hpos.
      assert (Hit : Forall (fun x => 0 <= x) (data (it_S_y it))).
      { apply nonneglsopt_nonneg in Hs; [|exact Hpos].
        now apply (div_by_sum_bound s). }
      constructor; [exact Hit | now apply IH2].
Qed.

Lemma div_by_sum_ok (s : ndarray) :
  ~ asum s == 0 \/ data s = [] -> exists v, div_scalar s (asum s) = Ok v.
Proof.
  intros Hs. unfold div_scalar. destruct (Qeq_bool (asum s) 0) eqn:Hz; [|eauto].
  apply Qeq_bool_iff in Hz. destruct Hs as [Hs | Hs]; [contradiction|].
  rewrite Hs. eauto.
Qed.

Lemma sums_to_one_or_empty (v : ndarray) :
  (data v <> [] -> asum v == 1) -> ~ asum v == 0 \/ data v = [].
Proof.
  intros Hv. destruct (data v) as [|x l] eqn:Hd; [now right|].
  left. rewrite Hv by discriminate. discriminate.
Qed.

(** The renormalisation after the solver divides by zero only when the
    reduced Gram matrix is all zero and the weights the iteration
    started with sum to zero. *)
Lemma weight_step_renormalises sts syopt oJ oS s :
  Solver.nonneglsopt_default (wCxxw sts) (rCyxw_y sts) (rCyyr_yy sts) oS syopt = Ok s ->
  ~ Forall (fun x => x == 0) (data (rCyyr_yy sts)) \/ ~ asum oS == 0 \/ data oS = [] ->
  exists it,
    weight_step sts syopt oJ oS = Ok it
    /\ (data (it_S_y it) <> [] -> asum (it_S_y it) == 1).
Proof.
  intros Hs Hcond. unfold weight_step. rewrite Hs. cbn [mbind res_bind].
  assert (Hdiv : ~ asum s == 0 \/ data s = []).
  { destruct (all_zero (rCyyr_yy sts)) eqn:Hz.
    - unfold Solver.nonneglsopt_default, Solver.nonneglsopt in Hs. rewrite Hz in Hs.
      injection Hs as <-. destruct Hcond as [Hc | Hc]; [|exact Hc].
      exfalso. now apply Hc, all_zero_spec.
    - apply (SolverFacts.nonneglsopt_solved _ _ _ _ _ _ _ _ _ _ Hz) in Hs as [_ Hsum].
      now apply sums_to_one_or_empty. }
  destruct (div_by_sum_ok s Hdiv) as (v & Hv). rewrite Hv. cbn [mbind res_bind].
  eexists. split; [reflexivity|]. cbn [it_S_y]. now apply (div_by_sum_one s).
Qed.

(** In the mode 'lspos' the loop runs to its end from any weights that
    do not sum to zero. *)
Lemma loop_lspos_total step tol n : forall iter st,
  ~ asum (S_y st) == 0 \/ data (S_y st) = [] ->
  exists st', loop step (Some "lspos"%string) tol n iter st = Ok st'.
Proof.
  induction n as [|n IH]; intros iter st Hst; [cbn; eauto|].
  cbn [loop]. destruct (step (S_y st)) as [mdl sts].
  destruct (SolverModes.nonneglsopt_lspos_ok (wCxxw sts) (rCyxw_y sts) (rCyyr_yy sts)
              (S_y st) 30 (1 # 10000) (1 # 10000) (1 # 1000)) as (s & Hs & _);
    [reflexivity|].
  destruct (weight_step_renormalises sts (Some "lspos"%string) (J st) (S_y st) s Hs)
    as (it & Hit & Hsum); [tauto|].
  rewrite Hit. cbn [mbind res_bind].
  destruct (converged tol it); [eauto|].
  apply IH. cbn [S_y]. now apply sums_to_one_or_empty.
Qed.

End Weights.

Section Run.
Context `{LinAlg}.
Variables (Cxx_dd Cyx_yetd Cyy_tyeye : ndarray) (seed : option ndarray) (p : params).

Lemma last_elem_of {A} (l : list A) (x : A) : last l = Some x -> x ∈ l.
Proof.
  intros Hl. apply last_Some in Hl as (l' & ->).
  apply elem_of_app. right. now apply list_elem_of_singleton.
Qed.

(** X6.  The weights [S_y] of [levelsCCA_cov].  [Ok] is the outcome
    of a call in which no division was by zero; numpy does not stop at
    a division by zero, it goes on and returns weights with inf or nan
    entries, and of those nothing is said here.  In an iteration in
    which the solver returns a vector, the renormalisation
    [S_y / np.sum(S_y)] divides by zero only if the reduced Gram matrix
    is all zero and the weights the iteration started with sum to zero
    (the solver then hands them back); otherwise the new weights sum
    to 1.  So the [S_y] of a call that returns without a division by
    zero sums to 1 (an empty vector apart), and has no negative entry
    when the seed is absent or has none.  And in the mode 'lspos',
    without a seed or with one that does not sum to zero, the loop
    always runs to its end. *)
Theorem levelsCCA_cov_returns_weights :
  (forall sts oJ oS s,
     Solver.nonneglsopt_default (wCxxw sts) (rCyxw_y sts) (rCyyr_yy sts) oS (syopt p)
     = Ok s ->
     ~ Forall (fun x => x == 0) (data (rCyyr_yy sts)) \/ ~ asum oS == 0 \/ data oS = [] ->
     exists it,
       weight_step sts (syopt p) oJ oS = Ok it
       /\ (data (it_S_y it) <> [] -> asum (it_S_y it) == 1))
  /\ (forall Jf W R S,
        levelsCCA_cov Cxx_dd Cyx_yetd Cyy_tyeye seed p = Ok (Jf, W, R, S) ->
        (data S <> [] -> asum S == 1)
        /\ (seed = None
            \/ (exists s, seed = Some s /\ Forall (fun x => 0 <= x) (data s)) ->
            Forall (fun x => 0 <= x) (data S)))
  /\ (syopt p = Some "lspos"%string ->
      seed = None \/ (exists s, seed = Some s /\ ~ asum s == 0) ->
      exists st, levelsCCA_cov_run Cxx_dd Cyx_yetd Cyy_tyeye seed p = Ok st).
Proof.
  split; [|split].
  - intros sts oJ oS s. apply weight_step_renormalises.
  - unfold levelsCCA_cov. intros Jf W R S Hret.
    destruct (levelsCCA_cov_run Cxx_dd Cyx_yetd Cyy_tyeye seed p) as [st| |] eqn:Hrun;
      cbn [mbind res_bind] in Hret; try discriminate Hret.
    pose proof (run_spec _ _ _ _ _ _ Hrun) as (Hc & _ & _ & _ & _ & Hnil & Hfin).
    destruct (last (history st)) as [it|] eqn:Hlast.
    2:{ apply last_None in Hlast. rewrite (Hnil Hlast) in Hret. discriminate Hret. }
    destruct (Hfin it eq_refl) as (_ & HS & Hm). rewrite Hm in Hret.
    destruct (rescale _) as [WR| |]; cbn [mbind res_bind] in Hret; try discriminate Hret.
    injection Hret as _ _ _ <-. rewrite HS.
    apply last_elem_of in Hlast.
    destruct (chain_weights _ _ _ _ _ Hc) as [H1 H2].
    rewrite Forall_forall in H1. split; [now apply H1|].
    intros Hseed.
    assert (Hpos : Forall (fun x => 0 <= x)
                     (data (seed_or_uniform (dim_last2 Cyy_tyeye) seed))).
    { destruct Hseed as [-> | (s & -> & Hs)]; [|exact Hs].
      cbn. pose proof (uniform_spec (dim_last2 Cyy_tyeye)). tauto. }
    specialize (H2 Hpos). rewrite Forall_forall in H2. now apply H2.
  - intros Hmode Hseed. unfold levelsCCA_cov_run. rewrite Hmode.
    apply loop_lspos_total. cbn [init_state S_y].
    destruct Hseed as [-> | (s & -> & Hs)]; [|now left].
    cbn [seed_or_uniform]. apply sums_to_one_or_empty. intros Hne.
    destruct (dim_last2 Cyy_tyeye) as [|n] eqn:HnY; [now destruct Hne|].
    unfold asum, uniform, amap, vec. cbn [data].
    eapply Qeq_trans; [apply sumQ_map_div|]. rewrite sumQ_replicate_one.
    field. change 0 with (inject_Z 0). rewrite inject_Z_injective. lia.
Qed.

(** X7.  The trace buffer [Js] has [max_iter] rows.  Row [i] holds the
    pair (pre, post) of iteration [i] for every iteration that ran, and
    is still the row of nan it was created with for every later
    index. *)
Theorem levelsCCA_cov_trace_layout st :
  levelsCCA_cov_run Cxx_dd Cyx_yetd Cyy_tyeye seed p = Ok st ->
  length (Js st) = max_iter p
  /\ (forall i it, history st !! i = Some it ->
        Js st !! i = Some (Some (J_wr it, J_s it)))
  /\ (forall i, (length (history st) <= i < max_iter p)%nat ->
        Js st !! i = Some None).
Proof.
  intros Hrun. apply run_spec in Hrun as (_ & Hlen & _ & _ & HJs & _ & _).
  rewrite HJs. split; [now rewrite length_inserts, length_replicate|].
  split.
  - intros i it Hi.
    pose proof (lookup_lt_Some _ _ _ Hi) as Hlt.
    rewrite list_lookup_inserts;
      [|rewrite length_fmap; lia | rewrite length_replicate; lia].
    now rewrite Nat.sub_0_r, list_lookup_fmap, Hi.
  - intros i [Hge Hlt].
    rewrite list_lookup_inserts_ge by (rewrite length_fmap; lia).
    now apply lookup_replicate_2.
Qed.

Lemma converged_nonpos tol it sts oJ oS :
  weight_step sts (syopt p) oJ oS = Ok it -> tol <= 0 -> converged tol it = false.
Proof.
  intros Hw Htol.
  apply weight_step_inv in Hw as (_ & _ & _ & _ & _ & _ & _ & HdS & HdJ).
  apply converged_false. rewrite HdS, HdJ. split.
  - eapply Qle_trans; [exact Htol|]. unfold asum. apply sumQ_nonneg.
    unfold amap. cbn [data]. apply Forall_forall. intros x Hx.
    apply list_elem_of_fmap in Hx as (y & -> & _). apply Qabs_nonneg.
  - eapply Qle_trans; [exact Htol | apply Qabs_nonneg].
Qed.

(** X8.  With [tol <= 0] the convergence test never passes: a run that
    completes has made exactly [max_iter] iterations. *)
Theorem levelsCCA_cov_nonpositive_tol_runs_all st :
  tol p <= 0 ->
  levelsCCA_cov_run Cxx_dd Cyx_yetd Cyy_tyeye seed p = Ok st ->
  length (history st) = max_iter p.
Proof.
  intros Htol Hrun.
  apply run_spec in Hrun as (Hc & Hlen & _ & Hlast & _).
  destruct (Nat.eq_dec (length (history st)) (max_iter p)) as [He|Hne]; [exact He|].
  exfalso. destruct Hlast as (it & Hl & Hcv); [lia|].
  apply last_elem_of in Hl. apply list_elem_of_lookup in Hl as (i & Hi).
  destruct (chain_lookup _ _ _ _ _ _ _ Hc Hi) as (oJ & mdl & _ & Hw & _).
  rewrite (converged_nonpos _ _ _ _ _ Hw Htol) in Hcv. discriminate Hcv.
Qed.

End Run.
End RunFacts.

(** ** Edge cases of the optimiser and its debugging wrapper *)

Module EdgeFacts.
Import CCA CCAFacts SelectFacts Callers.

Section Errors.
Context `{LinAlg}.
Variables (step : ndarray -> model * stats) (syopt : option string) (tol : Q).

(** An exception that ends the loop was raised by the weight solver. *)
Lemma loop_raise n e : forall iter st,
  loop step syopt tol n iter st = Raise e ->
  exists C_xx C_yx C_yy s_y,
    Solver.nonneglsopt_default C_xx C_yx C_yy s_y syopt = Raise e.
Proof.
  induction n as [|n IH]; intros iter st; [discriminate|].
  cbn [loop]. destruct (step (S_y st)) as [mdl sts].
  destruct (weight_step sts syopt (J st) (S_y st)) as [it| |] eqn:Hw;
    cbn [mbind res_bind]; [|intros [= <-]|discriminate].
  - destruct (converged tol it); [discriminate | apply IH].
  - unfold weight_step in Hw.
    destruct (Solver.nonneglsopt_default _ _ _ _ _) as [s| |] eqn:Hs;
      cbn [mbind res_bind] in Hw; [|injection Hw as <-; eauto|discriminate Hw].
    destruct (div_scalar s (asum s)) as [s'| |] eqn:Hd; cbn [mbind res_bind] in Hw;
      try discriminate Hw.
    now apply SolverModes.div_scalar_no_raise in Hd.
Qed.

(** The first iteration of a loop that is allowed one runs the solver
    on the statistics of the step for the weights it starts with. *)
Lemma loop_first_raise n iter st e :
  Solver.nonneglsopt_default (wCxxw (snd (step (S_y st)))) (rCyxw_y (snd (step (S_y st))))
    (rCyyr_yy (snd (step (S_y st)))) (S_y st) syopt = Raise e ->
  loop step syopt tol (S n) iter st = Raise e.
Proof.
  intros Hs. cbn [loop]. destruct (step (S_y st)) as [mdl sts]. cbn [snd] in Hs.
  unfold weight_step. now rewrite Hs.
Qed.

End Errors.

Section Run.
Context `{LinAlg}.
Variables (Cxx_dd Cyx_yetd Cyy_tyeye : ndarray) (seed : option ndarray) (p : params).

(** X9.  [levelsCCA_cov] raises UnboundLocalError on [l_k] exactly when
    it is called with [max_iter = 0]: the loop body, which binds
    [l_k], never runs, and the rescaling after the loop reads it. *)
Theorem levelsCCA_cov_unbound_iff_no_iteration :
  levelsCCA_cov Cxx_dd Cyx_yetd Cyy_tyeye seed p = Raise (UnboundLocalError "l_k")
  <-> max_iter p = 0%nat.
Proof.
  unfold levelsCCA_cov. split.
  - intros Hret.
    destruct (levelsCCA_cov_run Cxx_dd Cyx_yetd Cyy_tyeye seed p) as [st| |] eqn:Hrun;
      cbn [mbind res_bind] in Hret; [|injection Hret as ->|discriminate Hret].
    + pose proof (run_spec _ _ _ _ _ _ Hrun) as (_ & _ & _ & Hlast & _ & _ & Hfin).
      destruct (history st) as [|it0 rest] eqn:Hh.
      * destruct (max_iter p) as [|n]; [reflexivity|].
        destruct Hlast as (it & Hl & _); [cbn; lia | discriminate Hl].
      * exfalso.
        destruct (last (it0 :: rest)) as [it|] eqn:Hl;
          [|apply last_None in Hl; discriminate Hl].
        destruct (Hfin it eq_refl) as (_ & _ & Hm). rewrite Hm in Hret.
        unfold rescale, relative_weights, np_max in Hret.
        destruct (data (l_k _)); cbn [mbind res_bind] in Hret; discriminate Hret.
    + exfalso. unfold levelsCCA_cov_run in Hrun.
      apply loop_raise in Hrun as (C_xx & C_yx & C_yy & s_y & Hs).
      apply SolverModes.nonneglsopt_raise_update in Hs as (_ & _ & s' & Hu).
      apply SolverModes.update_raise in Hu as [(He & _) | (He & _)]; discriminate He.
  - intros Hz. unfold levelsCCA_cov_run. now rewrite Hz.
Qed.

(** X10.  [levelsCCA_cov] in the mode 'expgrad' or 'gd', allowed at
    least one iteration, raises NameError on [eta] in its first
    iteration unless the reduced Gram matrix of that iteration is all
    zero, whatever value the caller passes for the parameter [eta]:
    that parameter is not handed to the solver. *)
Theorem levelsCCA_cov_expgrad_gd_raise :
  syopt p = Some "expgrad"%string \/ syopt p = Some "gd"%string ->
  max_iter p <> 0%nat ->
  ~ Forall (fun x => x == 0)
      (data (rCyyr_yy (snd (step_of Cxx_dd Cyx_yetd Cyy_tyeye p
                              (seed_or_uniform (dim_last2 Cyy_tyeye) seed))))) ->
  levelsCCA_cov Cxx_dd Cyx_yetd Cyy_tyeye seed p = Raise (NameError "eta").
Proof.
  intros Hm Hn Hnz. unfold levelsCCA_cov, levelsCCA_cov_run.
  destruct (max_iter p) as [|n] eqn:Hmax; [congruence|].
  rewrite (loop_first_raise _ _ _ _ _ _ (NameError "eta")); [reflexivity|].
  cbn [init_state S_y].
  assert (Hz : all_zero (rCyyr_yy (snd (step_of Cxx_dd Cyx_yetd Cyy_tyeye p
                 (seed_or_uniform (dim_last2 Cyy_tyeye) seed)))) = false).
  { destruct (all_zero _) eqn:Hz; [|reflexivity].
    exfalso. now apply Hnz, all_zero_spec. }
  unfold Solver.nonneglsopt_default.
  destruct Hm as [-> | ->];
    apply SolverFacts.missing_eta_raises; auto; discriminate.
Qed.

(** X11.  A rank parameter of 1 or less, zero and negative numbers
    included, is taken as 1: an iteration keeps one component (none
    when the SVD offers none), and its singular value is the largest
    one. *)
Theorem levelsCCA_cov_rank_floor S_y :
  (rank p <= 1)%Z ->
  let s := data (snd (fst (svd_factors Cxx_dd Cyx_yetd Cyy_tyeye p S_y))) in
  let mdl := fst (step_of Cxx_dd Cyx_yetd Cyy_tyeye p S_y) in
  length (data (l_k mdl)) = Nat.min 1 (length s)
  /\ dim (W_kd mdl) 0 = Nat.min 1 (length s)
  /\ dim (R_ket mdl) 0 = Nat.min 1 (length s)
  /\ (forall l x, l ∈ data (l_k mdl) -> x ∈ s -> x <= l).
Proof.
  intros Hr s mdl.
  assert (Hrank : Z.to_nat (Z.max 1 (rank p)) = 1%nat) by lia.
  pose proof (step_of_retain Cxx_dd Cyx_yetd Cyy_tyeye p S_y) as Hret.
  cbv zeta in Hret. rewrite Hrank in Hret. fold mdl in Hret.
  destruct Hret as (Hl & HW & HR & _).
  destruct (top_idx_spec s 1 (snd (fst (svd_factors Cxx_dd Cyx_yetd Cyy_tyeye p S_y)))
              eq_refl) as (Hlen & _ & Hrange & _ & Htop).
  set (idx := top_idx 1 (snd (fst (svd_factors Cxx_dd Cyx_yetd Cyy_tyeye p S_y)))) in *.
  split; [rewrite Hl; cbn; now rewrite length_map|].
  split; [now rewrite HW|]. split; [now rewrite HR|].
  intros l x Hlin Hx. rewrite Hl in Hlin. cbn in Hlin.
  apply list_elem_of_fmap in Hlin as (i & -> & Hi).
  apply list_elem_of_lookup in Hx as (j & Hj).
  pose proof (lookup_lt_Some _ _ _ Hj) as Hjlt.
  rewrite <- (nth_lookup_Some _ _ 0 _ Hj).
  destruct (decide (j ∈ idx)) as [Hin | Hnin].
  - destruct idx as [|i0 [|i1 rest]]; cbn [length] in Hlen.
    + inversion Hi.
    + apply list_elem_of_singleton in Hi as ->.
      apply list_elem_of_singleton in Hin as ->. fold s. apply Qle_refl.
    + lia.
  - exact (Htop i j Hi Hjlt Hnin).
Qed.

Lemma loop_same_mode step a b tol n : forall iter st,
  (forall sts oJ oS, weight_step sts a oJ oS = weight_step sts b oJ oS) ->
  loop step a tol n iter st = loop step b tol n iter st.
Proof.
  induction n as [|n IH]; intros iter st Hw; [reflexivity|].
  cbn [loop]. destruct (step (S_y st)) as [mdl sts]. rewrite Hw.
  destruct (weight_step sts b (J st) (S_y st)) as [it| |]; cbn [mbind res_bind];
    try reflexivity.
  destruct (converged tol it); [reflexivity | now apply IH].
Qed.

(** X12.  [debug_levelsCCA_cov] returns the filters, responses and
    weights that [levelsCCA_cov] returns on the same arguments, and
    fails as it fails: replacing a missing [syopt] by 'negridge' before
    the call changes nothing. *)
Theorem debug_levelsCCA_cov_same_result :
  debug_levelsCCA_cov Cxx_dd Cyx_yetd Cyy_tyeye seed p
  = (levelsCCA_cov Cxx_dd Cyx_yetd Cyy_tyeye seed p
     ≫= fun out => Ok (snd (fst (fst out)), snd (fst out), snd out)).
Proof.
  unfold debug_levelsCCA_cov.
  assert (He : levelsCCA_cov Cxx_dd Cyx_yetd Cyy_tyeye seed
                 {| reg := reg p; rank := rank p; rcond := rcond p; tol := tol p;
                    max_iter := max_iter p; eta := eta p;
                    syopt := Some match syopt p with
                                  | Some s => s
                                  | None => "negridge"%string
                                  end |}
               = levelsCCA_cov Cxx_dd Cyx_yetd Cyy_tyeye seed p).
  { destruct p as [rg rk rc tl mi et [s|]]; cbn [syopt]; [reflexivity|].
    unfold levelsCCA_cov, levelsCCA_cov_run. cbn [syopt tol max_iter].
    rewrite (loop_same_mode _ (Some "negridge"%string) None); reflexivity. }
  rewrite He.
  destruct (levelsCCA_cov Cxx_dd Cyx_yetd Cyy_tyeye seed p) as [[[[Jf W] R] S]| |];
    reflexivity.
Qed.

End Run.
End EdgeFacts.

(** ** Input without signal *)

Module NoSignalFacts.
Import CCA CCAFacts.
Section NoSignal.
Context `{LinAlg}.

(** Dividing the uniform weights by their sum changes no entry. *)
Lemma uniform_renormalised (nY : nat) :
  exists v, div_scalar (uniform nY) (asum (uniform nY)) = Ok v
    /\ Forall2 Qeq (data v) (data (uniform nY))
    /\ asum (amap Qabs (asub v (uniform nY))) == 0.
Proof.
  destruct (uniform_spec nY) as (_ & Hlen & Hval & _).
  assert (Hsum : nY <> 0%nat -> asum (uniform nY) == 1).
  { intros Hn. unfold asum, uniform, amap, vec. cbn [data].
    eapply Qeq_trans; [apply sumQ_map_div|]. rewrite sumQ_replicate_one.
    field. change 0 with (inject_Z 0). rewrite inject_Z_injective. lia. }
  unfold div_scalar. destruct (Qeq_bool (asum (uniform nY)) 0) eqn:Hz.
  - apply Qeq_bool_iff in Hz.
    destruct nY as [|n]; [|rewrite Hsum in Hz by discriminate; discriminate Hz].
    exists (uniform 0). split; [reflexivity|]. split; [constructor | reflexivity].
  - eexists. split; [reflexivity|].
    assert (Hn : nY <> 0%nat).
    { intros ->. discriminate Hz. }
    specialize (Hsum Hn).
    assert (Hpt : Forall2 Qeq (map (fun x => x / asum (uniform nY)) (data (uniform nY)))
                    (data (uniform nY))).
    { apply Forall2_fmap_l, Forall_Forall2_diag, Forall_forall. intros x _.
      change (x / asum (uniform nY) == x). rewrite Hsum. field. }
    split; [exact Hpt|].
    unfold asum at 1. unfold amap, asub, azip. cbn [data].
    revert Hpt. generalize (map (fun x => x / asum (uniform nY)) (data (uniform nY))).
    generalize (data (uniform nY)). intros l l' Hll.
    induction Hll as [|x y l' l Hxy _ IH]; [reflexivity|].
    cbn [zip_with map]. rewrite sumQ_cons, IH, Hxy.
    unfold Qminus. rewrite Qplus_opp_r. reflexivity.
Qed.

(** X19.  No signal: called without a seed, with [tol > 0] and at
    least one iteration allowed, on statistics for which the reduced
    Gram matrix of the first iteration is all zero, the loop of
    [levelsCCA_cov] completes after exactly one iteration and leaves
    the uniform weights [1/nY] as they were: the solver hands the
    weights back, the renormalisation changes no entry, and the change
    of [S_y], being 0, is below [tol]. *)
Theorem levelsCCA_cov_no_signal Cxx_dd Cyx_yetd Cyy_tyeye p :
  0 < tol p ->
  max_iter p <> 0%nat ->
  Forall (fun x => x == 0)
    (data (rCyyr_yy (snd (step_of Cxx_dd Cyx_yetd Cyy_tyeye p
                            (uniform (dim_last2 Cyy_tyeye)))))) ->
  exists st,
    levelsCCA_cov_run Cxx_dd Cyx_yetd Cyy_tyeye None p = Ok st
    /\ length (history st) = 1%nat
    /\ Forall2 Qeq (data (S_y st)) (data (uniform (dim_last2 Cyy_tyeye))).
Proof.
  intros Htol Hmax Hz. apply all_zero_spec in Hz.
  unfold levelsCCA_cov_run. destruct (max_iter p) as [|n]; [congruence|].
  cbn [loop init_state seed_or_uniform S_y J].
  set (nY := dim_last2 Cyy_tyeye) in *.
  destruct (step_of Cxx_dd Cyx_yetd Cyy_tyeye p (uniform nY)) as [mdl sts].
  cbn [snd] in Hz.
  unfold weight_step, Solver.nonneglsopt_default, Solver.nonneglsopt.
  rewrite Hz. cbn [mbind res_bind].
  destruct (uniform_renormalised nY) as (v & Hv & Hpt & Hd).
  rewrite Hv. cbn [mbind res_bind].
  unfold converged. cbn [deltaS_y deltaJ].
  assert (Hc : Qlt_bool (asum (amap Qabs (asub v (uniform nY)))) (tol p) = true).
  { apply Qlt_bool_iff. rewrite Hd. exact Htol. }
  rewrite Hc. cbn [orb].
  eexists. split; [reflexivity|]. cbn [history S_y length app]. split; [reflexivity|].
  exact Hpt.
Qed.

End NoSignal.
End NoSignalFacts.

Module NoSignalRuns.
Import CCA CCAFacts Small Inputs NoSignalFacts.

Lemma no_signal_gram_check :
  all_zero (rCyyr_yy (snd (step_of Cxx0 Cyx0 Cyy0 default_params
                             (uniform (dim_last2 Cyy0))))) = true.
Proof. vm_compute. reflexivity. Qed.

Lemma levelsCCA_cov_no_signal_witness :
  exists st,
    levelsCCA_cov_run Cxx0 Cyx0 Cyy0 None default_params = Ok st
    /\ length (history st) = 1%nat
    /\ Forall2 Qeq (data (S_y st)) (data (uniform 2)).
Proof.
  apply (levelsCCA_cov_no_signal Cxx0 Cyx0 Cyy0 default_params).
  - reflexivity.
  - discriminate.
  - apply all_zero_spec, no_signal_gram_check.
Defined.

End NoSignalRuns.

(** ** Shapes of the result *)

Module ShapeFacts.
Import CCA CCAFacts SelectFacts.
Section ShapeFacts.
Context `{LinAlg}.
Variables (Cxx_dd Cyx_yetd Cyy_tyeye : ndarray) (seed : option ndarray) (p : params).

Lemma step_of_shapes S_y :
  let mdl := fst (step_of Cxx_dd Cyx_yetd Cyy_tyeye p S_y) in
  let isqrtCxx_dd :=
    robust_whitener Cxx_dd (fst (as_pair (reg p))) (fst (as_pair (rcond p))) true in
  shape (W_kd mdl) = [dim (W_kd mdl) 0; dim isqrtCxx_dd 1]
  /\ shape (R_ket mdl) = [dim (R_ket mdl) 0; dim_last Cyy_tyeye; dim Cyy_tyeye 0].
Proof.
  unfold step_of, cca_step. cbv zeta.
  destruct (whitened_cross _ _ _ _ _ _ _ _) as [isq M].
  destruct (np_svd M) as [[U s] Vh]. cbn. tauto.
Qed.

(** X17.  The shapes of what [levelsCCA_cov] returns: the filters
    [W_kd] are [(k, d)] and the responses [R_ket] are [(k, nE, tau)],
    where [tau] and [nE] are the first and the last axis of
    [Cyy_tyeye], [d] is the number of columns of the spatial whitener,
    and [k], the number of components, is at least 1 and at most
    [max(1, rank)]. *)
Theorem levelsCCA_cov_output_shapes Jf W R S :
  levelsCCA_cov Cxx_dd Cyx_yetd Cyy_tyeye seed p = Ok (Jf, W, R, S) ->
  exists k,
    shape W = [k; dim (robust_whitener Cxx_dd (fst (as_pair (reg p)))
                         (fst (as_pair (rcond p))) true) 1]
    /\ shape R = [k; dim_last Cyy_tyeye; dim Cyy_tyeye 0]
    /\ (1 <= k <= Z.to_nat (Z.max 1 (rank p)))%nat.
Proof.
  unfold levelsCCA_cov. intros Hret.
  destruct (levelsCCA_cov_run Cxx_dd Cyx_yetd Cyy_tyeye seed p) as [st| |] eqn:Hrun;
    cbn [mbind res_bind] in Hret; try discriminate Hret.
  pose proof (run_spec _ _ _ _ _ _ Hrun) as (_ & _ & _ & _ & _ & Hnil & Hfin).
  destruct (last (history st)) as [it|] eqn:Hlast.
  2:{ apply last_None in Hlast. rewrite (Hnil Hlast) in Hret. discriminate Hret. }
  destruct (Hfin it eq_refl) as (_ & _ & Hm). rewrite Hm in Hret.
  set (m := fst (step_of Cxx_dd Cyx_yetd Cyy_tyeye p (it_oS_y it))) in *.
  unfold rescale, relative_weights in Hret.
  destruct (np_max (l_k m)) as [mx| |] eqn:Hmx; cbn [mbind res_bind] in Hret;
    try discriminate Hret.
  injection Hret as _ <- <- _. cbn [fst snd scale_rows tabulate shape].
  destruct (step_of_shapes (it_oS_y it)) as [HW HR]. fold m in HW, HR.
  pose proof (step_of_retain Cxx_dd Cyx_yetd Cyy_tyeye p (it_oS_y it)) as Hret.
  cbv zeta in Hret. fold m in Hret. destruct Hret as (Hl & HW0 & HR0 & _).
  set (usv := svd_factors Cxx_dd Cyx_yetd Cyy_tyeye p (it_oS_y it)) in *.
  destruct (top_idx_spec (data (snd (fst usv))) (Z.to_nat (Z.max 1 (rank p)))
              (snd (fst usv)) eq_refl) as (Hlen & _).
  set (idx := top_idx (Z.to_nat (Z.max 1 (rank p))) (snd (fst usv))) in *.
  exists (length idx).
  split; [now rewrite HW, HW0|]. split; [now rewrite HR, HR0|].
  split; [|lia].
  destruct idx as [|i idx']; [|cbn; lia].
  exfalso. unfold np_max in Hmx. rewrite Hl in Hmx. discriminate Hmx.
Qed.

End ShapeFacts.
End ShapeFacts.

(** ** The single-output test *)

Module OneHotFacts.
Import CCA CCAFacts Callers.

Lemma indices_in_range (shp ix : list nat) :
  In ix (indices shp) -> Forall2 lt ix shp.
Proof.
  revert ix. induction shp as [|n shp IH]; intros ix Hin.
  - destruct Hin as [<- | []]. constructor.
  - cbn [indices] in Hin. apply in_flat_map in Hin as (i & Hi & Hin).
    apply in_map_iff in Hin as (ix' & <- & Hin').
    apply in_seq in Hi. constructor; [lia | now apply IH].
Qed.

Lemma tabulate_ext (shp : list nat) (f g : list nat -> Q) :
  (forall ix, Forall2 lt ix shp -> f ix = g ix) ->
  tabulate shp f = tabulate shp g.
Proof.
  intros Hfg. unfold tabulate. f_equal. apply map_ext_in.
  intros ix Hin. now apply Hfg, indices_in_range.
Qed.

Lemma sumQ_pointwise (l l' : list Q) : Forall2 Qeq l l' -> sumQ l == sumQ l'.
Proof.
  induction 1 as [|x y l l' Hxy _ IH]; [reflexivity|].
  rewrite !sumQ_cons, Hxy, IH. reflexivity.
Qed.

(** A sum is kept in lowest terms, so sums of the same value are the
    same number. *)
Lemma sumQ_canonical (l l' : list Q) :
  Forall2 Qeq l l' -> sumQ l = sumQ l'.
Proof.
  intros Hll. destruct Hll as [|x y l l' Hxy Hrest]; [reflexivity|].
  unfold sumQ. cbn [foldr]. apply Qred_complete.
  fold (sumQ l) (sumQ l'). now rewrite Hxy, (sumQ_pointwise _ _ Hrest).
Qed.

Lemma big_sum_pointwise (n : nat) (f g : nat -> Q) :
  (forall i, (i < n)%nat -> f i == g i) -> big_sum n f = big_sum n g.
Proof.
  intros Hfg. unfold big_sum. apply sumQ_canonical.
  apply Forall2_fmap, Forall2_lookup. intros i.
  destruct (decide (i < n)%nat) as [Hi | Hi].
  - rewrite lookup_seq_lt by exact Hi. constructor. cbn. now apply Hfg.
  - rewrite lookup_seq_ge by lia. constructor.
Qed.

Lemma get_one_hot_at (nY y0 : nat) : (y0 < nY)%nat -> get (one_hot nY y0) [y0] = 1.
Proof.
  intros Hy. unfold one_hot. rewrite get_vec. apply nth_lookup_Some.
  apply list_lookup_insert_eq. now rewrite length_replicate.
Qed.

Lemma get_one_hot_off (nY y0 y : nat) : y <> y0 -> get (one_hot nY y0) [y] = 0.
Proof.
  intros Hy. unfold one_hot. rewrite get_vec.
  destruct (decide (y < nY)%nat) as [Hlt | Hge].
  - apply nth_lookup_Some. rewrite list_lookup_insert_ne by congruence.
    now apply lookup_replicate_2.
  - apply nth_overflow. rewrite length_insert, length_replicate. lia.
Qed.

Section OneHot.
Context `{LinAlg}.
Variables (nY y0 : nat).

(** The weighted Gram tensor and cross term under a one-hot seed read
    one slice of their operands. *)
Lemma whitened_cross_one_hot reg1 rcond1 F F' G G' nE tau nD :
  shape F = shape F' -> shape G = shape G' ->
  (forall e t f u,
     (e < dim F 1)%nat -> (t < dim F 2)%nat -> (f < dim F 4)%nat -> (u < dim F 5)%nat ->
     get F [y0; e; t; y0; f; u] = get F' [y0; e; t; y0; f; u]) ->
  (forall e t d,
     (y0 < dim G 0)%nat -> (e < dim G 1)%nat -> (t < dim G 2)%nat -> (d < dim G 3)%nat ->
     get G [y0; e; t; d] = get G' [y0; e; t; d]) ->
  whitened_cross reg1 rcond1 F G nE tau nD (one_hot nY y0)
  = whitened_cross reg1 rcond1 F' G' nE tau nD (one_hot nY y0).
Proof.
  intros HsF HsG HF HG. unfold whitened_cross. cbv zeta.
  assert (HdF : forall k, dim F' k = dim F k) by (intros k; unfold dim; now rewrite HsF).
  assert (HdG : forall k, dim G' k = dim G k) by (intros k; unfold dim; now rewrite HsG).
  rewrite !HdF, !HdG.
  assert (E1 :
    tabulate [dim F 1; dim F 2; dim F 4; dim F 5]
      (fun ix => match ix with
       | [e; t; f; u] =>
           big_sum (dim (one_hot nY y0) 0) (fun y => big_sum (dim (one_hot nY y0) 0) (fun z =>
             get (one_hot nY y0) [y] * get F [y; e; t; z; f; u] * get (one_hot nY y0) [z]))
       | _ => 0 end)
    = tabulate [dim F 1; dim F 2; dim F 4; dim F 5]
      (fun ix => match ix with
       | [e; t; f; u] =>
           big_sum (dim (one_hot nY y0) 0) (fun y => big_sum (dim (one_hot nY y0) 0) (fun z =>
             get (one_hot nY y0) [y] * get F' [y; e; t; z; f; u] * get (one_hot nY y0) [z]))
       | _ => 0 end)).
  { apply tabulate_ext. intros ix Hix.
    destruct ix as [|e [|t [|f [|u [|]]]]]; try reflexivity.
    inversion Hix as [|? ? ? ? He Hix1]; subst.
    inversion Hix1 as [|? ? ? ? Ht Hix2]; subst.
    inversion Hix2 as [|? ? ? ? Hf Hix3]; subst.
    inversion Hix3 as [|? ? ? ? Hu _]; subst.
    apply big_sum_pointwise. intros y _.
    assert (Hin : big_sum (dim (one_hot nY y0) 0) (fun z =>
                    get (one_hot nY y0) [y] * get F [y; e; t; z; f; u]
                    * get (one_hot nY y0) [z])
                  = big_sum (dim (one_hot nY y0) 0) (fun z =>
                    get (one_hot nY y0) [y] * get F' [y; e; t; z; f; u]
                    * get (one_hot nY y0) [z])).
    { apply big_sum_pointwise. intros z _.
      destruct (decide (y = y0)) as [-> | Hy].
      - destruct (decide (z = y0)) as [-> | Hz].
        + now rewrite (HF e t f u He Ht Hf Hu).
        + rewrite (get_one_hot_off _ _ z Hz). ring.
      - rewrite (get_one_hot_off _ _ y Hy). ring. }
    rewrite Hin. reflexivity. }
  assert (E2 :
    tabulate [dim G 1; dim G 2; dim G 3]
      (fun ix => match ix with
       | [e; t; d] =>
           big_sum (dim G 0) (fun y => get G [y; e; t; d] * get (one_hot nY y0) [y])
       | _ => 0 end)
    = tabulate [dim G 1; dim G 2; dim G 3]
      (fun ix => match ix with
       | [e; t; d] =>
           big_sum (dim G 0) (fun y => get G' [y; e; t; d] * get (one_hot nY y0) [y])
       | _ => 0 end)).
  { apply tabulate_ext. intros ix Hix.
    destruct ix as [|e [|t [|d [|]]]]; try reflexivity.
    inversion Hix as [|? ? ? ? He Hix1]; subst.
    inversion Hix1 as [|? ? ? ? Ht Hix2]; subst.
    inversion Hix2 as [|? ? ? ? Hd _]; subst.
    apply big_sum_pointwise. intros y Hy.
    destruct (decide (y = y0)) as [-> | Hne].
    - now rewrite (HG e t d Hy He Ht Hd).
    - rewrite (get_one_hot_off _ _ y Hne). ring. }
  rewrite E1, E2. reflexivity.
Qed.

Lemma step_of_one_hot Cxx Cyx Cyx' Cyy Cyy' p :
  shape Cyx = shape Cyx' ->
  (forall e t d,
     (e < dim Cyx 1)%nat -> (t < dim Cyx 2)%nat -> (d < dim Cyx 3)%nat ->
     get Cyx [y0; e; t; d] = get Cyx' [y0; e; t; d]) ->
  shape Cyy = shape Cyy' ->
  shape (Cyy_tyeye_diag2full Cyy) = shape (Cyy_tyeye_diag2full Cyy') ->
  (forall e t f u,
     (e < dim (Cyy_tyeye_diag2full Cyy) 1)%nat -> (t < dim (Cyy_tyeye_diag2full Cyy) 2)%nat ->
     (f < dim (Cyy_tyeye_diag2full Cyy) 4)%nat -> (u < dim (Cyy_tyeye_diag2full Cyy) 5)%nat ->
     get (Cyy_tyeye_diag2full Cyy) [y0; e; t; y0; f; u]
     = get (Cyy_tyeye_diag2full Cyy') [y0; e; t; y0; f; u]) ->
  fst (step_of Cxx Cyx Cyy p (one_hot nY y0))
  = fst (step_of Cxx Cyx' Cyy' p (one_hot nY y0)).
Proof.
  intros HsX HX HsY HsF HF. unfold step_of, cca_step. cbv zeta.
  assert (Hd0 : dim Cyy' 0 = dim Cyy 0) by (unfold dim; now rewrite HsY).
  assert (Hdl : dim_last Cyy' = dim_last Cyy) by (unfold dim_last; now rewrite HsY).
  rewrite Hd0, Hdl.
  set (isq := robust_whitener Cxx (fst (as_pair (reg p))) (fst (as_pair (rcond p))) true).
  rewrite (whitened_cross_one_hot _ _ (Cyy_tyeye_diag2full Cyy) (Cyy_tyeye_diag2full Cyy')
             (whiten_Cyx Cyx isq) (whiten_Cyx Cyx' isq) _ _ _ HsF).
  - destruct (whitened_cross _ _ _ _ _ _ _ _) as [isqC M].
    unfold reduced. destruct (retain _ _ _ _) as [[R l] W]. reflexivity.
  - unfold whiten_Cyx, tabulate, dim. cbn [shape]. now rewrite HsX.
  - exact HF.
  - intros e t d Hy He Ht Hd.
    assert (HdX : forall k, dim Cyx' k = dim Cyx k) by (intros k; unfold dim; now rewrite HsX).
    unfold whiten_Cyx in *. rewrite !HdX.
    unfold dim in Hy, He, Ht, Hd. cbn [tabulate shape nth] in Hy, He, Ht, Hd.
    rewrite !get_tabulate by (repeat constructor; assumption).
    apply big_sum_pointwise. intros k Hk. now rewrite (HX e t k He Ht Hk).
Qed.

Variables (Cxx Cyx Cyx' Cyy Cyy' : ndarray) (p : params).

Lemma one_iteration_model seed C1 C2 C3 Jf W R S :
  max_iter p = 1%nat ->
  levelsCCA_cov C1 C2 C3 (Some seed) p = Ok (Jf, W, R, S) ->
  exists WR, rescale (fst (step_of C1 C2 C3 p seed)) = Ok WR /\ W = fst WR /\ R = snd WR.
Proof.
  unfold levelsCCA_cov. intros Hmax Hret.
  destruct (levelsCCA_cov_run C1 C2 C3 (Some seed) p) as [st| |] eqn:Hrun;
    cbn [mbind res_bind] in Hret; try discriminate Hret.
  pose proof (run_spec _ _ _ _ _ _ Hrun) as (Hc & Hlen & _ & _ & _ & Hnil & Hfin).
  destruct (history st) as [|it [|it' rest]] eqn:Hh.
  - rewrite (Hnil eq_refl) in Hret. discriminate Hret.
  - destruct (Hfin it eq_refl) as (_ & _ & Hm).
    destruct (chain_lookup _ _ _ _ _ 0%nat it Hc eq_refl) as (_ & _ & _ & _ & _ & HoS).
    cbn [seed_or_uniform] in HoS. rewrite Hm, HoS in Hret.
    destruct (rescale _) as [WR| |]; cbn [mbind res_bind] in Hret; try discriminate Hret.
    injection Hret as _ <- <- _. now exists WR.
  - cbn in Hlen. lia.
Qed.

(** X18.  The single-output test of [testcase_levelsCCA]: a run of
    one iteration from the seed that is 1 at output [y0] and 0
    elsewhere.  The filters and responses it returns depend on [Cyx]
    and on the expanded [Cyy] only through the slice of output [y0]:
    two inputs that agree there (and in [Cxx] and the shapes) give the
    same [W_kd] and [R_ket], whatever the statistics of the other
    outputs are. *)
Theorem levelsCCA_cov_one_hot_seed Jf W R S Jf' W' R' S' :
  (y0 < nY)%nat ->
  max_iter p = 1%nat ->
  shape Cyx = shape Cyx' ->
  (forall e t d,
     (e < dim Cyx 1)%nat -> (t < dim Cyx 2)%nat -> (d < dim Cyx 3)%nat ->
     get Cyx [y0; e; t; d] = get Cyx' [y0; e; t; d]) ->
  shape Cyy = shape Cyy' ->
  shape (Cyy_tyeye_diag2full Cyy) = shape (Cyy_tyeye_diag2full Cyy') ->
  (forall e t f u,
     (e < dim (Cyy_tyeye_diag2full Cyy) 1)%nat -> (t < dim (Cyy_tyeye_diag2full Cyy) 2)%nat ->
     (f < dim (Cyy_tyeye_diag2full Cyy) 4)%nat -> (u < dim (Cyy_tyeye_diag2full Cyy) 5)%nat ->
     get (Cyy_tyeye_diag2full Cyy) [y0; e; t; y0; f; u]
     = get (Cyy_tyeye_diag2full Cyy') [y0; e; t; y0; f; u]) ->
  levelsCCA_cov Cxx Cyx Cyy (Some (one_hot nY y0)) p = Ok (Jf, W, R, S) ->
  levelsCCA_cov Cxx Cyx' Cyy' (Some (one_hot nY y0)) p = Ok (Jf', W', R', S') ->
  W = W' /\ R = R'.
Proof.
  intros _ Hmax HsX HX HsY HsF HF Hret Hret'.
  apply (one_iteration_model _ _ _ _ _ _ _ _ Hmax) in Hret as (WR & Hr & -> & ->).
  apply (one_iteration_model _ _ _ _ _ _ _ _ Hmax) in Hret' as (WR' & Hr' & -> & ->).
  rewrite (step_of_one_hot Cxx Cyx Cyx' Cyy Cyy' p HsX HX HsY HsF HF) in Hr.
  rewrite Hr in Hr'. injection Hr' as <-. now split.
Qed.

End OneHot.
End OneHotFacts.

(** ** Array objects: what is returned *)

Module ObjectFacts.
Import Heap HeapFacts.
#[local] Existing Instance M_ret.
#[local] Existing Instance M_bind.

Section Fresh.
Context `{LinAlg}.
Variable h0 : gmap nat cell.

(** The solver hands back the reference it was given, or a new
    object. *)
Lemma keeps_nonneglsopt_out C_xx C_yx C_yy s_y syopt max_iter tol ridge eps :
  keeps h0 (fun q => q = s_y \/ h0 !! q = None)
    (nonneglsopt C_xx C_yx C_yy s_y syopt max_iter tol ridge eps).
Proof.
  unfold nonneglsopt.
  eapply keeps_bind; [apply keeps_load|]. intros vC_yy _.
  destruct (all_zero vC_yy); [apply keeps_ret; now left|].
  eapply keeps_bind; [apply keeps_load|]. intros vC_yx _.
  eapply keeps_bind; [apply keeps_load|]. intros vs_y _.
  eapply keeps_bind; [apply keeps_alloc|]. intros copy _.
  eapply keeps_bind; [apply keeps_load|]. intros vcopy _.
  eapply keeps_bind; [apply keeps_alloc|]. intros C_yy' _.
  eapply keeps_bind; [apply keeps_load|]. intros vC_yy' _.
  eapply keeps_bind; [apply keeps_lift|]. intros r _.
  eapply keeps_weaken; [apply keeps_alloc|]. auto.
Qed.

(** The loop leaves its variables as they were, or ends with the
    weights and the model of an iteration, all new objects. *)
Lemma keeps_loop_out step syopt tol Js n : forall iter J S_y last,
  h0 !! Js = None ->
  keeps h0
    (fun out => (snd (fst out) = S_y /\ snd out = last)
                \/ (h0 !! snd (fst out) = None /\ snd out <> None))
    (loop step syopt tol n iter Js J S_y last).
Proof.
  induction n as [|n IH]; intros iter J S_y last HJs; cbn [loop].
  - apply keeps_ret. now left.
  - eapply keeps_bind; [apply keeps_load|]. intros voS_y _.
    destruct (step voS_y) as [mdl sts].
    eapply keeps_bind; [apply keeps_alloc|]. intros W_kd _.
    eapply keeps_bind; [apply keeps_alloc|]. intros R_ket _.
    eapply keeps_bind; [apply keeps_alloc|]. intros l_k _.
    eapply keeps_bind; [apply keeps_alloc|]. intros rCyxw_y _.
    eapply keeps_bind; [apply keeps_alloc|]. intros rCyyr_yy _.
    eapply keeps_bind; [apply keeps_nonneglsopt|]. intros S1 _.
    eapply keeps_bind; [apply keeps_load|]. intros vS1 _.
    eapply keeps_bind; [apply keeps_lift|]. intros vS2 _.
    eapply keeps_bind; [apply keeps_alloc|]. intros S2 HS2.
    eapply keeps_bind; [apply keeps_write, HJs|]. intros [] _.
    destruct (_ || _).
    + apply keeps_ret. right. cbn. split; [exact HS2 | discriminate].
    + eapply keeps_weaken; [apply IH, HJs|].
      intros [[J' S'] last'] [[HS Hl] | [HS Hl]]; cbn in *; right.
      * subst. split; [exact HS2 | discriminate].
      * split; assumption.
Qed.

Lemma keeps_levelsCCA_cov_out Cxx_dd Cyx_yetd Cyy_tyeye seed p :
  keeps h0
    (fun out => h0 !! snd (fst (fst out)) = None /\ h0 !! snd (fst out) = None
                /\ h0 !! snd out = None)
    (levelsCCA_cov Cxx_dd Cyx_yetd Cyy_tyeye seed p).
Proof.
  unfold levelsCCA_cov.
  eapply keeps_bind; [apply keeps_load|]. intros vCxx _.
  eapply keeps_bind; [apply keeps_load|]. intros vCyx _.
  eapply keeps_bind; [apply keeps_load|]. intros vCyy _.
  eapply keeps_bind; [apply keeps_alloc|]. intros Js HJs.
  eapply keeps_bind; [apply keeps_write, HJs|]. intros [] _.
  eapply keeps_bind with (Q := fun _ => True).
  { destruct seed; [now apply keeps_ret|].
    eapply keeps_weaken; [apply keeps_alloc|]. auto. }
  intros S_y _.
  eapply keeps_bind; [apply keeps_loop_out, HJs|]. intros [[J S] last] Hout.
  destruct last as [[[W_kd R_ket] l_k]|].
  2:{ intros h r h' Hh [= <- <-]. split; [exact Hh | discriminate]. }
  eapply keeps_bind; [apply keeps_load|]. intros vW _.
  eapply keeps_bind; [apply keeps_load|]. intros vR _.
  eapply keeps_bind; [apply keeps_load|]. intros vl _.
  eapply keeps_bind; [apply keeps_lift|]. intros WR _.
  eapply keeps_bind; [apply keeps_alloc|]. intros W' HW.
  eapply keeps_bind; [apply keeps_alloc|]. intros R' HR.
  apply keeps_ret. cbn. repeat split; try assumption.
  destruct Hout as [[_ Hl] | [HS _]]; [discriminate Hl | exact HS].
Qed.

End Fresh.

Section Objects.
Context `{LinAlg}.

Lemma load_inv (h : gmap nat cell) p r h1 : load p h = (r, h1) -> h1 = h.
Proof.
  unfold load. destruct (h !! p) as [[a|rows]|]; now intros [= _ <-].
Qed.

Lemma fresh_above (h h1 : gmap nat cell) : h ⊆ h1 -> h !! fresh (dom h1) = None.
Proof.
  intros Hsub. eapply lookup_weaken_None; [|exact Hsub].
  apply not_elem_of_dom, is_fresh.
Qed.

(** X13.  What the solver returns is the very array object it was
    given as [s_y], with nothing allocated, when [C_yy] is all zero;
    otherwise it is a new array object, distinct from every object
    that existed before the call. *)
Theorem nonneglsopt_returns_input_or_new
    C_xx C_yx C_yy s_y syopt max_iter tol ridge eps (h h' : gmap nat cell) a q :
  h !! C_yy = Some (Arr a) ->
  nonneglsopt C_xx C_yx C_yy s_y syopt max_iter tol ridge eps h = (Ok q, h') ->
  (Forall (fun x => x == 0) (data a) -> q = s_y /\ h' = h)
  /\ (~ Forall (fun x => x == 0) (data a) ->
      h !! q = None /\ exists v, h' !! q = Some (Arr v)).
Proof.
  intros Hyy. unfold nonneglsopt.
  rewrite (bind_ok _ _ _ _ _ (load_eq _ _ _ Hyy)).
  destruct (all_zero a) eqn:Hz.
  - intros [= <- <-]. split; [auto|].
    intros Hnz. exfalso. now apply Hnz, all_zero_spec.
  - intros Hrun. split.
    { intros Hc. apply all_zero_spec in Hc. congruence. }
    intros _. revert Hrun. unfold mbind, M_bind, bind.
    destruct (load C_yx h) as [[vyx|e|] h1] eqn:H1; try discriminate.
    apply load_inv in H1 as ->.
    destruct (load s_y h) as [[vs|e|] h1] eqn:H1; try discriminate.
    apply load_inv in H1 as ->.
    unfold alloc at 1.
    set (h1 := <[fresh (dom h) := Arr a]> h).
    destruct (load (fresh (dom h)) h1) as [[vc|e|] h2] eqn:H2; try discriminate.
    apply load_inv in H2 as ->.
    unfold alloc at 1.
    set (h2 := <[fresh (dom h1) := Arr (Solver.add_ridge vc ridge)]> h1).
    destruct (load (fresh (dom h1)) h2) as [[vr|e|] h3] eqn:H3; try discriminate.
    apply load_inv in H3 as ->.
    unfold lift.
    destruct (Solver.solve _ _ _ _ _ _ _ _) as [r| |]; try discriminate.
    unfold alloc. intros [= <- <-].
    assert (Hsub : h ⊆ h2) by (etransitivity; apply alloc_sub).
    split; [now apply fresh_above|].
    exists r. apply lookup_insert_eq.
Qed.

(** X14.  The three arrays [levelsCCA_cov] returns are new objects:
    none of [W_kd], [R_ket], [S_y] is an object that existed before the
    call.  In particular the returned [S_y] is never the caller's seed
    array, also when the solver handed its input back. *)
Theorem levelsCCA_cov_returns_new_objects
    Cxx_dd Cyx_yetd Cyy_tyeye seed p (h h' : gmap nat cell) J W R S :
  levelsCCA_cov Cxx_dd Cyx_yetd Cyy_tyeye seed p h = (Ok (J, W, R, S), h') ->
  h !! W = None /\ h !! R = None /\ h !! S = None.
Proof.
  intros Hrun.
  destruct (keeps_levelsCCA_cov_out h Cxx_dd Cyx_yetd Cyy_tyeye seed p h _ h'
              (reflexivity h) Hrun) as [_ Hout].
  exact (Hout _ eq_refl).
Qed.

End Objects.
End ObjectFacts.

(** ** The entry points on data *)

Module CallersFacts.
Import Callers.
Section CallersFacts.
Context `{LinAlg} `{Stats}.

(** X15.  [levelsCCA] passes [offset, center, unitnorm, zeropadded] to
    [levelsSummaryStatistics] by position, where the fourth to seventh
    parameters are [Cxx_dd, Cyx_yetd, Cyy_tyeye, offset].  So the
    statistics are always computed with [center=True],
    [unitnorm=False], [zeropadded=True] and [badEpThresh=4], the
    caller's [zeropadded] is used as the offset, and the caller's
    [offset], [center] and [unitnorm] are added, as previous
    statistics, to [Cxx], [Cyx] and [Cyy] (unless they are [None]):
    with [center=True] every entry of [Cyx] is raised by 1. *)
Theorem levelsCCA_positional_arguments
    X_TSd Y_TSye tau offset reg rank rcond center unitnorm zeropadded :
  levelsCCA X_TSd Y_TSye tau offset reg rank rcond center unitnorm zeropadded
  = (XY ← zero_outliers X_TSd Y_TSye (PInt 4);
     nCxx ← updateCxx (fst XY) tau zeropadded (PBool true) (PBool false);
     nCyx ← updateCxy (fst XY) (snd XY) tau zeropadded (PBool true) (PBool false);
     nCyy ← compCyy_diag (snd XY) tau (PBool true) (PBool false);
     CCA.levelsCCA_cov (accumulate nCxx offset) (accumulate nCyx center)
       (accumulate nCyy unitnorm) None
       {| CCA.reg := reg; CCA.rank := rank; CCA.rcond := rcond;
          CCA.tol := 1 # 1000; CCA.max_iter := 100; CCA.eta := 1 # 2;
          CCA.syopt := None |})
  /\ (forall n, data (accumulate n (PBool true)) = map (fun x => x + 1) (data n))
  /\ (forall n, accumulate n PNone = n).
Proof.
  split; [|split; reflexivity].
  unfold levelsCCA, levelsSummaryStatistics, levelsSummaryStatistics_body.
  cbn [call_bind sig_levelsSummaryStatistics bind_positional bind_keywords
       mbind res_bind fst snd forallb app assoc].
  change (var ?e ?x) with (default PNone (assoc x e)).
  cbn [assoc String.eqb Ascii.eqb Bool.eqb default from_option id].
  destruct (zero_outliers X_TSd Y_TSye (PInt 4)) as [[X Y]| |]; cbn [mbind res_bind fst snd];
    try reflexivity.
  destruct (updateCxx _ _ _ _ _) as [nCxx| |]; cbn [mbind res_bind]; try reflexivity.
  destruct (updateCxy _ _ _ _ _ _) as [nCyx| |]; cbn [mbind res_bind]; try reflexivity.
  destruct (compCyy_diag _ _ _ _) as [nCyy| |]; cbn [mbind res_bind]; reflexivity.
Qed.

(** X16.  Called with [tau] and the flags as keyword arguments, as the
    test cases call it, [levelsSummaryStatistics] hands each flag to
    the routines under its own name and returns the new statistics as
    they are; and previous statistics passed as arrays are added to
    the new ones entry by entry. *)
Theorem levelsSummaryStatistics_keywords X_TSd Y_TSye tau offset center unitnorm zeropadded :
  levelsSummaryStatistics [X_TSd; Y_TSye]
    [("tau", tau); ("offset", offset); ("center", center); ("unitnorm", unitnorm);
     ("zeropadded", zeropadded)]%string
  = (XY ← zero_outliers X_TSd Y_TSye (PInt 4);
     nCxx ← updateCxx (fst XY) tau offset center unitnorm;
     nCyx ← updateCxy (fst XY) (snd XY) tau offset center unitnorm;
     nCyy ← compCyy_diag (snd XY) tau zeropadded unitnorm;
     Ok (nCxx, nCyx, nCyy))
  /\ (forall Cxx Cyx Cyy,
        levelsSummaryStatistics [X_TSd; Y_TSye; tau; PArr Cxx; PArr Cyx; PArr Cyy]
          [("offset", offset); ("center", center); ("unitnorm", unitnorm);
           ("zeropadded", zeropadded)]%string
        = (XY ← zero_outliers X_TSd Y_TSye (PInt 4);
           nCxx ← updateCxx (fst XY) tau offset center unitnorm;
           nCyx ← updateCxy (fst XY) (snd XY) tau offset center unitnorm;
           nCyy ← compCyy_diag (snd XY) tau zeropadded unitnorm;
           Ok (aadd nCxx Cxx, aadd nCyx Cyx, aadd nCyy Cyy))).
Proof.
  split; [|intros Cxx Cyx Cyy];
    unfold levelsSummaryStatistics, levelsSummaryStatistics_body;
    cbn [call_bind sig_levelsSummaryStatistics bind_positional bind_keywords
         mbind res_bind fst snd forallb existsb map app assoc
         String.eqb Ascii.eqb Bool.eqb orb andb];
    change (var ?e ?x) with (default PNone (assoc x e));
    cbn [assoc String.eqb Ascii.eqb Bool.eqb default from_option id];
    (destruct (zero_outliers X_TSd Y_TSye (PInt 4)) as [[X Y]| |];
       cbn [mbind res_bind fst snd]; try reflexivity);
    (destruct (updateCxx _ _ _ _ _) as [nCxx| |]; cbn [mbind res_bind]; try reflexivity);
    (destruct (updateCxy _ _ _ _ _ _) as [nCyx| |]; cbn [mbind res_bind]; try reflexivity);
    (destruct (compCyy_diag _ _ _ _) as [nCyy| |]; cbn [mbind res_bind]; reflexivity).
Qed.

End CallersFacts.
End CallersFacts.

(** ** Concrete runs for the further properties *)

Module MoreRuns.
Import CCA CCAFacts Small Inputs MoreInputs CCARuns RunFacts EdgeFacts.

Lemma run_zero_tol_ok :
  is_ok (levelsCCA_cov_run Cxx1 Cyx_one Cyy_one None p_zero_tol) = true.
Proof. vm_compute. reflexivity. Qed.

Lemma levelsCCA_cov_returns_weights_witness :
  (exists Jf W R S,
     levelsCCA_cov Cxx1 Cyx1 Cyy1 None p_one = Ok (Jf, W, R, S)
     /\ (data S <> [] -> asum S == 1)
     /\ Forall (fun x => 0 <= x) (data S))
  /\ (exists st, levelsCCA_cov_run Cxx1 Cyx1 Cyy1 None p_lspos = Ok st).
Proof.
  split.
  - pose proof ret_one_ok as Hok.
    remember (levelsCCA_cov Cxx1 Cyx1 Cyy1 None p_one) as r eqn:Hret.
    destruct r as [[[[Jf W] R] S]| |]; try discriminate Hok. symmetry in Hret.
    destruct (levelsCCA_cov_returns_weights Cxx1 Cyx1 Cyy1 None p_one) as (_ & Hw & _).
    destruct (Hw Jf W R S Hret) as (Hsum & Hpos).
    exists Jf, W, R, S. split; [reflexivity|]. split; [exact Hsum|].
    apply Hpos. now left.
  - destruct (levelsCCA_cov_returns_weights Cxx1 Cyx1 Cyy1 None p_lspos) as (_ & _ & Ht).
    apply Ht; [reflexivity | now left].
Defined.

Lemma levelsCCA_cov_trace_layout_witness :
  exists st,
    levelsCCA_cov_run Cxx1 Cyx1 Cyy1 None p_tol = Ok st
    /\ length (Js st) = 100%nat
    /\ (forall i, (length (history st) <= i < 100)%nat -> Js st !! i = Some None).
Proof.
  pose proof run_tol_ok as Hok.
  remember (levelsCCA_cov_run Cxx1 Cyx1 Cyy1 None p_tol) as r eqn:Hrun.
  destruct r as [st| |]; try discriminate Hok. symmetry in Hrun.
  destruct (levelsCCA_cov_trace_layout Cxx1 Cyx1 Cyy1 None p_tol st Hrun)
    as (Hlen & _ & Hnan).
  exists st. split; [reflexivity|]. split; [exact Hlen | exact Hnan].
Defined.

Lemma levelsCCA_cov_nonpositive_tol_runs_all_witness :
  exists st,
    levelsCCA_cov_run Cxx1 Cyx_one Cyy_one None p_zero_tol = Ok st
    /\ length (history st) = 2%nat.
Proof.
  pose proof run_zero_tol_ok as Hok.
  remember (levelsCCA_cov_run Cxx1 Cyx_one Cyy_one None p_zero_tol) as r eqn:Hrun.
  destruct r as [st| |]; try discriminate Hok. symmetry in Hrun.
  exists st. split; [reflexivity|].
  apply (levelsCCA_cov_nonpositive_tol_runs_all Cxx1 Cyx_one Cyy_one None p_zero_tol st);
    [apply Qle_refl | exact Hrun].
Defined.

Lemma levelsCCA_cov_unbound_iff_no_iteration_witness :
  levelsCCA_cov Cxx1 Cyx1 Cyy1 None p_tol_noiter = Raise (UnboundLocalError "l_k").
Proof.
  apply (levelsCCA_cov_unbound_iff_no_iteration Cxx1 Cyx1 Cyy1 None p_tol_noiter).
  reflexivity.
Defined.

Lemma gram_gd_check :
  all_zero (rCyyr_yy (snd (step_of Cxx1 Cyx1 Cyy1 p_gd_rank0
                             (seed_or_uniform (dim_last2 Cyy1) None)))) = false.
Proof. vm_compute. reflexivity. Qed.

Lemma levelsCCA_cov_expgrad_gd_raise_witness :
  levelsCCA_cov Cxx1 Cyx1 Cyy1 None p_gd_rank0 = Raise (NameError "eta").
Proof.
  apply (levelsCCA_cov_expgrad_gd_raise Cxx1 Cyx1 Cyy1 None p_gd_rank0).
  - right. reflexivity.
  - discriminate.
  - intros Hz. apply all_zero_spec in Hz. pose proof gram_gd_check as Hc.
    rewrite Hz in Hc. discriminate Hc.
Defined.

Lemma levelsCCA_cov_rank_floor_witness :
  (rank p_gd_rank0 <= 1)%Z
  /\ dim (W_kd (fst (step_of Cxx1 Cyx1 Cyy1 p_gd_rank0 (uniform 2)))) 0
     = Nat.min 1 (length (data (snd (fst (svd_factors Cxx1 Cyx1 Cyy1 p_gd_rank0
                                            (uniform 2)))))).
Proof.
  assert (Hr : (rank p_gd_rank0 <= 1)%Z) by (cbn; lia).
  split; [exact Hr|].
  destruct (levelsCCA_cov_rank_floor Cxx1 Cyx1 Cyy1 p_gd_rank0 (uniform 2) Hr)
    as (_ & HW & _).
  exact HW.
Defined.

End MoreRuns.

Module ObjectRuns.
Import CCA Small Inputs Heap HeapFacts ObjectFacts.

Lemma heap_solver_ok :
  is_ok (fst (nonneglsopt 1 0 1 2 None 30 (1 # 10000) (1 # 10000) (1 # 1000) store2))
  = true.
Proof. vm_compute. reflexivity. Qed.

Lemma heap_run_ok : is_ok (fst (levelsCCA_cov 0 1 2 None p_one store1)) = true.
Proof. vm_compute. reflexivity. Qed.

Lemma store2_gram : store2 !! 1%nat = Some (Arr (mk_nd [2; 2]%nat [2; 0; 0; 2])).
Proof. vm_compute. reflexivity. Qed.

Lemma nonneglsopt_returns_input_or_new_witness :
  exists q h',
    nonneglsopt 1 0 1 2 None 30 (1 # 10000) (1 # 10000) (1 # 1000) store2 = (Ok q, h')
    /\ store2 !! q = None
    /\ exists v, h' !! q = Some (Arr v).
Proof.
  pose proof heap_solver_ok as Hok.
  remember (nonneglsopt 1 0 1 2 None 30 (1 # 10000) (1 # 10000) (1 # 1000) store2)
    as out eqn:Hrun.
  destruct out as [[q| |] h']; try discriminate Hok. symmetry in Hrun.
  destruct (nonneglsopt_returns_input_or_new 1 0 1 2 None 30 (1 # 10000) (1 # 10000)
              (1 # 1000) store2 h' _ q store2_gram Hrun) as [_ Hnew].
  exists q, h'. split; [reflexivity|]. apply Hnew.
  intros Hz. inversion Hz as [|x l Hx _]. discriminate Hx.
Defined.

Lemma levelsCCA_cov_returns_new_objects_witness :
  exists J W R S h',
    levelsCCA_cov 0 1 2 None p_one store1 = (Ok (J, W, R, S), h')
    /\ store1 !! W = None /\ store1 !! R = None /\ store1 !! S = None.
Proof.
  pose proof heap_run_ok as Hok.
  remember (levelsCCA_cov 0 1 2 None p_one store1) as out eqn:Hrun.
  destruct out as [[[[[J W] R] S]| |] h']; try discriminate Hok. symmetry in Hrun.
  exists J, W, R, S, h'. split; [reflexivity|].
  exact (levelsCCA_cov_returns_new_objects 0 1 2 None p_one store1 h' J W R S Hrun).
Defined.

End ObjectRuns.

Module OneHotRuns.
Import CCA CCAFacts Callers Small Inputs MoreInputs OneHotFacts ShapeFacts.

Lemma one_hot_runs_ok :
  is_ok (levelsCCA_cov Cxx1 Cyx1 Cyy4 (Some (one_hot 2 0)) p_one)
  && is_ok (levelsCCA_cov Cxx1 Cyx2 Cyy2 (Some (one_hot 2 0)) p_one) = true.
Proof. vm_compute. reflexivity. Qed.

Lemma levelsCCA_cov_one_hot_seed_witness :
  exists Jf W R S Jf' S',
    levelsCCA_cov Cxx1 Cyx1 Cyy4 (Some (one_hot 2 0)) p_one = Ok (Jf, W, R, S)
    /\ levelsCCA_cov Cxx1 Cyx2 Cyy2 (Some (one_hot 2 0)) p_one = Ok (Jf', W, R, S').
Proof.
  pose proof one_hot_runs_ok as Hok. apply andb_prop in Hok as [Hok1 Hok2].
  remember (levelsCCA_cov Cxx1 Cyx1 Cyy4 (Some (one_hot 2 0)) p_one) as r eqn:Hret.
  destruct r as [[[[Jf W] R] S]| |]; try discriminate Hok1. symmetry in Hret.
  remember (levelsCCA_cov Cxx1 Cyx2 Cyy2 (Some (one_hot 2 0)) p_one) as r' eqn:Hret'.
  destruct r' as [[[[Jf' W'] R'] S']| |]; try discriminate Hok2. symmetry in Hret'.
  destruct (levelsCCA_cov_one_hot_seed 2 0 Cxx1 Cyx1 Cyx2 Cyy4 Cyy2 p_one
              Jf W R S Jf' W' R' S') as [<- <-].
  - lia.
  - reflexivity.
  - reflexivity.
  - intros e t d He Ht Hd. cbn in He, Ht, Hd.
    replace e with 0%nat by lia. replace t with 0%nat by lia.
    replace d with 0%nat by lia. reflexivity.
  - reflexivity.
  - reflexivity.
  - intros e t f u He Ht Hf Hu. cbn in He, Ht, Hf, Hu.
    replace e with 0%nat by lia. replace t with 0%nat by lia.
    replace f with 0%nat by lia. replace u with 0%nat by lia. reflexivity.
  - exact Hret.
  - exact Hret'.
  - exists Jf, W, R, S, Jf', S'. split; reflexivity.
Defined.

Lemma levelsCCA_cov_output_shapes_witness :
  exists Jf W R S,
    levelsCCA_cov Cxx1 Cyx1 Cyy1 None p_one = Ok (Jf, W, R, S)
    /\ shape W = [1; 1]%nat /\ shape R = [1; 1; 1]%nat.
Proof.
  pose proof CCARuns.ret_one_ok as Hok.
  remember (levelsCCA_cov Cxx1 Cyx1 Cyy1 None p_one) as r eqn:Hret.
  destruct r as [[[[Jf W] R] S]| |]; try discriminate Hok. symmetry in Hret.
  destruct (levelsCCA_cov_output_shapes Cxx1 Cyx1 Cyy1 None p_one Jf W R S Hret)
    as (k & HW & HR & Hk).
  exists Jf, W, R, S. split; [reflexivity|].
  assert (Hk1 : k = 1%nat) by (cbn in Hk; lia). subst k.
  split; [exact HW | exact HR].
Defined.

End OneHotRuns.
